(** * A shallow embedding of the chat server (src/app.py)

    The server keeps a registry of connected clients (a Python dict, which
    iterates in insertion order), an in-memory chat history and a flag
    [running].  Every accepted connection is served by [handle_client]:
    username negotiation, a read/dispatch loop and a [finally] block.

    Modelling choices.
    - Text ([str]) is a [string] holding the UTF-8 encoding of the text; the
      operations used by the server ([==], [startswith], [split " "],
      [replace "broadcast "], f-strings) act on the encoding exactly as they
      act on the text, and [strip] removes the encodings of the characters
      Python counts as whitespace.
    - A socket object is a record in a store indexed by connection handles;
      the registry holds handles, so two references to one socket see the
      same object.  What the peer does (reset, broken pipe) is the field
      [link] of the socket; what it sends is given to the handler as a
      [recv_result].
    - Python exceptions are values of [exn]; code that can raise runs in the
      state-and-exception monad [M].
    - The wall clock read by [store_message] is an argument [now].
    - Handlers are threads of one process, and nothing they share is
      locked.  The functions of the server are given twice: in the monad
      [M], as they run when no other thread gets in between, and as
      processes ([proc]) made of single accesses to what is shared (a call
      on a socket, a read or an update of the registry or of the flag, one
      item asked of the iterator of the live dict).  The system of threads
      ([sys_step]) interleaves these accesses freely, together with new
      connections, peers that reset or drop theirs, and the [finally] block
      of [start] in the main thread.  Run without interruption a process
      does what the function in [M] does ([negotiate_collapse],
      [iterate_collapse], [finish_collapse], [shutdown_agrees]). *)

From Stdlib Require Import String Ascii ZArith.
From stdpp Require Import base tactics option list functions strings relations.

(** stdpp blocks the unfolding of string append; the proofs below compute
    with it. *)
#[global] Arguments String.append !_ _ / : simpl nomatch.

(** ** Text *)

Module Text.

Definition chr (n : nat) : string := String (ascii_of_nat n) "".

Definition bytes (l : list nat) : string :=
  foldr (fun n s => String (ascii_of_nat n) s) "" l.

(** "\n" *)
Definition nl : string := chr 10.

(** [s.startswith(p)] *)
Definition startswith (p s : string) : bool := String.prefix p s.

Fixpoint drop (n : nat) (s : string) : string :=
  match n, s with
  | 0, _ => s
  | S _, "" => ""
  | S n', String _ s' => drop n' s'
  end.

Fixpoint rev_onto (s acc : string) : string :=
  match s with
  | "" => acc
  | String a s' => rev_onto s' (String a acc)
  end.

Definition rev (s : string) : string := rev_onto s "".

(** The characters for which [str.isspace] holds, each as its UTF-8
    encoding: U+0009..U+000D, U+001C..U+001F, U+0020, U+0085, U+00A0,
    U+1680, U+2000..U+200A, U+2028, U+2029, U+202F, U+205F, U+3000. *)
Definition whitespace : list string :=
  map chr [9; 10; 11; 12; 13; 28; 29; 30; 31; 32] ++
  map bytes
    [ [194; 133]; [194; 160]; [225; 154; 128];
      [226; 128; 128]; [226; 128; 129]; [226; 128; 130]; [226; 128; 131];
      [226; 128; 132]; [226; 128; 133]; [226; 128; 134]; [226; 128; 135];
      [226; 128; 136]; [226; 128; 137]; [226; 128; 138];
      [226; 128; 168]; [226; 128; 169]; [226; 128; 175];
      [226; 129; 159]; [227; 128; 128] ].

(** The first token of [toks] that [s] starts with. *)
Definition leading (toks : list string) (s : string) : option string :=
  List.find (fun t => startswith t s) toks.

(** Remove leading tokens while there is one; [fuel] bounds the number of
    rounds, and [String.length s] rounds always suffice since every token
    is non-empty ([lstrip_with_done]). *)
Fixpoint lstrip_with (toks : list string) (fuel : nat) (s : string) : string :=
  match fuel with
  | 0 => s
  | S fuel' =>
      match leading toks s with
      | Some t => lstrip_with toks fuel' (drop (String.length t) s)
      | None => s
      end
  end.

Definition lstrip (s : string) : string :=
  lstrip_with whitespace (String.length s) s.

Definition rstrip (s : string) : string :=
  rev (lstrip_with (map rev whitespace) (String.length s) (rev s)).

(** [s.strip()] *)
Definition strip (s : string) : string := rstrip (lstrip s).

(** [s.partition(sep)] for a one-character separator: the text before the
    first [sep] and the text after it, or [None] when [sep] does not occur. *)
Fixpoint cut (sep : ascii) (s : string) : option (string * string) :=
  match s with
  | "" => None
  | String a s' =>
      if Ascii.eqb a sep then Some ("", s')
      else match cut sep s' with
           | Some (l, r) => Some (String a l, r)
           | None => None
           end
  end.

(** [sep in s] *)
Definition contains (sep : ascii) (s : string) : bool :=
  bool_decide (is_Some (cut sep s)).

(** [s.split(sep, maxsplit)] for a one-character separator. *)
Fixpoint split (sep : ascii) (maxsplit : nat) (s : string) : list string :=
  match maxsplit with
  | 0 => [s]
  | S k =>
      match cut sep s with
      | Some (l, r) => l :: split sep k r
      | None => [s]
      end
  end.

(** [s.replace(old, new, 1)]: the first occurrence of [old] is replaced. *)
Fixpoint replace1 (old new s : string) : string :=
  if startswith old s then new +:+ drop (String.length old) s
  else match s with
       | "" => ""
       | String a s' => String a (replace1 old new s')
       end.

(** [sub in s] *)
Fixpoint occurs (sub s : string) : bool :=
  startswith sub s ||
  match s with
  | "" => false
  | String _ s' => occurs sub s'
  end.

(** ["sep".join(l)] *)
Definition join (sep : string) (l : list string) : string := String.concat sep l.

(** [bool(s)]: a text is truthy when it is not empty. *)
Definition truthy (s : string) : bool :=
  match s with "" => false | _ => true end.

End Text.

(** ** Sockets, server state, exceptions *)

(** A connection handle: the identity of a socket object. *)
Definition conn := nat.

(** What the peer has done to the connection: [sendall] on a connection
    whose peer has reset it raises [ConnectionResetError], on one whose peer
    has gone away [BrokenPipeError]. *)
Inductive link_state := LinkUp | LinkReset | LinkBroken.

(** A socket object.  [calls] records every text [sendall] was invoked with
    on this socket, whether or not the call succeeded; [outbox] is what the
    transport accepted for the peer. *)
Record sock := Sock {
  calls : list string;
  outbox : list string;
  closed : bool;
  link : link_state
}.

(** [self.clients]: username -> (ip, conn), in insertion order. *)
Definition registry := list (string * (string * conn)).

Record state := State {
  clients : registry;
  chat_history : list string;
  running : bool;
  net : conn -> sock
}.

(** The exceptions the code can meet.  [OSError] stands for an [OSError]
    that is none of the first three; [RuntimeError] is what the iteration
    over a dict raises when the dict has changed size. *)
Inductive exn :=
| ConnectionResetError | BrokenPipeError | socket_timeout
| OSError | ValueError | KeyError | UnicodeDecodeError | RuntimeError.

#[global] Instance link_state_eq_dec : EqDecision link_state.
Proof. solve_decision. Defined.
#[global] Instance exn_eq_dec : EqDecision exn.
Proof. solve_decision. Defined.

(** The exceptions named by [except (ConnectionResetError, BrokenPipeError)]. *)
Definition is_conn_error (e : exn) : bool :=
  match e with
  | ConnectionResetError | BrokenPipeError => true
  | _ => false
  end.

(** *** Dict operations on the registry *)

Module Dict.
Section dict.
Context {V : Type}.
Implicit Types (d : list (string * V)) (k : string).

(** [d.get(k)] *)
Fixpoint get k d : option V :=
    match d with
    | [] => None
    | (k', v) :: d' => if decide (k' = k) then Some v else get k d'
    end.

(** [k in d] *)
Definition mem k d : bool := bool_decide (is_Some (get k d)).

(** [d[k] = v]: an existing key keeps its position, a new key goes last. *)
Fixpoint set k (v : V) d : list (string * V) :=
    match d with
    | [] => [(k, v)]
    | (k', v') :: d' =>
        if decide (k' = k) then (k, v) :: d' else (k', v') :: set k v d'
    end.

(** The entries left by [del d[k]]. *)
Definition remove k d : list (string * V) :=
    List.filter (fun e => negb (bool_decide (e.1 = k))) d.
End dict.
End Dict.

(** *** The state-and-exception monad *)

Inductive result (A : Type) := Ok (a : A) | Raise (e : exn).
Arguments Ok {A} a.
Arguments Raise {A} e.

Definition M (A : Type) : Type := state -> state * result A.

Definition ret {A} (a : A) : M A := fun w => (w, Ok a).
Definition raise {A} (e : exn) : M A := fun w => (w, Raise e).
Definition bind {A B} (m : M A) (k : A -> M B) : M B :=
  fun w => match m w with
           | (w', Ok a) => k a w'
           | (w', Raise e) => (w', Raise e)
           end.
(** [try: m  except <handles>: h] *)
Definition try_except {A} (m : M A) (handles : exn -> bool) (h : exn -> M A) : M A :=
  fun w => match m w with
           | (w', Raise e) => if handles e then h e w' else (w', Raise e)
           | r => r
           end.
Definition get_state : M state := fun w => (w, Ok w).
Definition modify (f : state -> state) : M unit := fun w => (f w, Ok tt).

Notation "'let*' x := m 'in' k" := (bind m (fun x => k))
  (at level 10, x name, m at level 100, k at level 200).

Definition set_clients (r : registry) (w : state) : state :=
  State r (chat_history w) (running w) (net w).
Definition set_history (h : list string) (w : state) : state :=
  State (clients w) h (running w) (net w).
Definition set_net (n : conn -> sock) (w : state) : state :=
  State (clients w) (chat_history w) (running w) n.

(** *** Socket calls *)

Definition note_call (msg : string) (s : sock) : sock :=
  Sock (calls s ++ [msg]) (outbox s) (closed s) (link s).
Definition deliver (msg : string) (s : sock) : sock :=
  Sock (calls s) (outbox s ++ [msg]) (closed s) (link s).
Definition shut (s : sock) : sock :=
  Sock (calls s) (outbox s) true (link s).

(** What [c.sendall] does on a socket in state [s]: a closed socket object
    raises [OSError] (bad file descriptor), a reset or broken connection
    raises the matching connection error. *)
Definition send_outcome (s : sock) : result unit :=
  if closed s then Raise OSError
  else match link s with
       | LinkUp => Ok tt
       | LinkReset => Raise ConnectionResetError
       | LinkBroken => Raise BrokenPipeError
       end.

(** The socket after one [sendall]: the call is recorded, and the text is
    in the outbox when the call succeeded. *)
Definition attempt (msg : string) (s : sock) : sock :=
  match send_outcome s with
  | Ok _ => deliver msg (note_call msg s)
  | Raise _ => note_call msg s
  end.

(** [c.sendall(msg.encode('utf-8'))] *)
Definition sendall (c : conn) (msg : string) : M unit :=
  fun w => (set_net (alter (attempt msg) c (net w)) w, send_outcome (net w c)).

(** [c.close()] *)
Definition close (c : conn) : M unit :=
  modify (fun w => set_net (alter shut c (net w)) w).

(** ** The server's methods *)

(** [store_message]; [now] is [datetime.datetime.now().strftime(...)]. *)
Definition log_entry (now sender message : string) : string :=
  "[" +:+ now +:+ "] " +:+ sender +:+ ": " +:+ message.

Definition store_message (now sender message : string) : M string :=
  let entry := log_entry now sender message in
  let* _ := modify (fun w => set_history (chat_history w ++ [entry]) w) in
  ret entry.

Definition get_help : string :=
  Text.nl +:+ "Available commands:" +:+ Text.nl +:+
  "  list                       → list all connected users" +:+ Text.nl +:+
  "  broadcast <msg>            → send message to everyone" +:+ Text.nl +:+
  "  send <username> <msg>      → private message to user" +:+ Text.nl +:+
  "  exit                       → disconnect" +:+ Text.nl.

(** The first loop of [broadcast_message], over the items of the registry:
    [disconnected_users] collects the users whose delivery raised a
    connection error. *)
Fixpoint send_pass (message : string) (exclude_username : option string)
    (items : registry) (disconnected_users : list string) : M (list string) :=
  match items with
  | [] => ret disconnected_users
  | (username, (_, c)) :: items' =>
      if decide (Some username = exclude_username)
      then send_pass message exclude_username items' disconnected_users
      else
        let* d := try_except (let* _ := sendall c message in ret disconnected_users)
                    is_conn_error
                    (fun _ => ret (disconnected_users ++ [username])) in
        send_pass message exclude_username items' d
  end.

(** The second loop: remove the disconnected users. *)
Fixpoint evict (disconnected_users : list string) : M unit :=
  match disconnected_users with
  | [] => ret tt
  | username :: rest =>
      let* w := get_state in
      match Dict.get username (clients w) with
      | Some (_, c) =>
          let* _ := close c in
          let* _ := modify (fun w => set_clients (Dict.remove username (clients w)) w) in
          evict rest
      | None => evict rest
      end
  end.

Definition broadcast_message (message : string) (exclude_username : option string)
    : M unit :=
  let* w := get_state in
  let* disconnected_users := send_pass message exclude_username (clients w) [] in
  evict disconnected_users.

(** ** [handle_client] *)

(** What a read on the connection yields: the decoded text of one chunk
    (empty when the peer has closed), or the exception raised by [recv] or
    by [decode]. *)
Inductive recv_result := RecvData (text : string) | RecvRaise (e : exn).

(** [c.recv(n).decode('utf-8')]; a closed socket object raises [OSError]
    (as [settimeout] on it does). *)
Definition recv (c : conn) (r : recv_result) : M string :=
  let* w := get_state in
  if closed (net w c) then raise OSError
  else match r with
       | RecvData text => ret text
       | RecvRaise e => raise e
       end.

(** What [select.select([c], [], [], 1.0)] reports within its wait. *)
Inductive loop_event := Idle | Ready (r : recv_result).

(** [select] on a closed socket object raises [ValueError]. *)
Definition select (c : conn) (ev : loop_event) : M (option recv_result) :=
  let* w := get_state in
  if closed (net w c) then raise ValueError
  else ret (match ev with Idle => None | Ready r => Some r end).

(** [del self.clients[username]] *)
Definition del_client (username : string) : M unit :=
  let* w := get_state in
  if Dict.mem username (clients w)
  then modify (fun w => set_clients (Dict.remove username (clients w)) w)
  else raise KeyError.

(** How a piece of the [try] body ends when it does not raise. *)
Inductive ctl :=
| Next    (** go on: enter the loop, or its next iteration *)
| Leave.  (** [return] or [break]: on to the [finally] block *)

Definition taken_msg : string := "Username already taken. Disconnecting.".
Definition usage_msg : string := "Usage: send <username> <message>".
Definition welcome_msg (username : string) : string :=
  "Welcome to the chat, " +:+ username +:+ "! Type 'help' for commands.".
Definition joined_msg (username : string) : string :=
  "[Server] " +:+ username +:+ " joined the chat".
Definition left_msg (username : string) : string :=
  "[Server] " +:+ username +:+ " left the chat".
Definition private_msg (username msg : string) : string :=
  "[Private from " +:+ username +:+ "] " +:+ msg.
Definition broadcast_msg (username msg : string) : string :=
  "[BROADCAST from " +:+ username +:+ "] " +:+ msg.
Definition not_found_msg (target_user : string) : string :=
  "User " +:+ target_user +:+ " not found.".
Definition not_connected_msg (target_user : string) : string :=
  "User " +:+ target_user +:+ " is not connected.".
Definition at_ip (username ip : string) : string := username +:+ "@" +:+ ip.

(** Lines 61-79: the body after the username has been read. *)
Definition join (c : conn) (ip username now : string) : M ctl :=
  if negb (Text.truthy username) then
    let* _ := close c in ret Leave
  else
    let* w := get_state in
    if Dict.mem username (clients w) then
      let* _ := sendall c taken_msg in
      let* _ := close c in
      ret Leave
    else
      let* _ := modify (fun w => set_clients (Dict.set username (ip, c) (clients w)) w) in
      let* _ := store_message now "Server" (at_ip username ip +:+ " joined the chat") in
      let* _ := broadcast_message (joined_msg username) (Some username) in
      let* _ := sendall c (welcome_msg username) in
      ret Next.

(** The reply to [list]. *)
Definition roster_line (e : string * (string * conn)) : string :=
  "  " +:+ at_ip e.1 e.2.1.
Definition list_response (r : registry) : string :=
  "Connected clients:" +:+ Text.nl +:+ Text.join Text.nl (map roster_line r).

(** Lines 105-120: the [send] command. *)
Definition send_command (c : conn) (username data : string) : M unit :=
  let parts := Text.split " " 2 data in
  if length parts =? 3 then
    let target_user := nth 1 parts "" in
    let msg := nth 2 parts "" in
    let* w := get_state in
    match Dict.get target_user (clients w) with
    | Some (_, t_conn) =>
        try_except (sendall t_conn (private_msg username msg))
          is_conn_error
          (fun _ => sendall c (not_connected_msg target_user))
    | None => sendall c (not_found_msg target_user)
    end
  else sendall c usage_msg.

(** Lines 94-126: the command dispatch on a stripped, non-empty line. *)
Definition dispatch (c : conn) (username data : string) : M ctl :=
  if decide (data = "list") then
    let* w := get_state in
    let* _ := sendall c (list_response (clients w)) in ret Next
  else if Text.startswith "broadcast " data then
    let msg := Text.replace1 "broadcast " "" data in
    let* _ := broadcast_message (broadcast_msg username msg) (Some username) in
    ret Next
  else if Text.startswith "send " data then
    let* _ := send_command c username data in ret Next
  else if decide (data = "exit") then ret Leave
  else
    let* _ := sendall c get_help in ret Next.

(** Lines 82-131: one iteration of the loop body, with its two handlers. *)
Definition iteration (c : conn) (ip username : string) (ev : loop_event)
    (now : string) : M ctl :=
  try_except
    (let* ready := select c ev in
     match ready with
     | None => ret Next
     | Some r =>
         let* raw := recv c r in
         let data := Text.strip raw in
         if negb (Text.truthy data) then ret Leave
         else
           let* _ := store_message now (at_ip username ip) data in
           dispatch c username data
     end)
    (fun e => bool_decide (e = socket_timeout) || is_conn_error e)
    (fun e => if decide (e = socket_timeout) then ret Next else ret Leave).

(** [while self.running: ...]: the test and one iteration. *)
Definition loop_step (c : conn) (ip username : string) (ev : loop_event)
    (now : string) : M ctl :=
  let* w := get_state in
  if running w then iteration c ip username ev now else ret Leave.

(** Lines 135-142: the [finally] block; [username] is the local variable,
    [None] until the name has been read. *)
Definition finally_block (c : conn) (ip : string) (username : option string)
    (now : string) : M unit :=
  let* w := get_state in
  let* _ :=
    match username with
    | Some u =>
        if Text.truthy u && Dict.mem u (clients w) then
          let* _ := store_message now "Server" (at_ip u ip +:+ " left the chat") in
          let* _ := broadcast_message (left_msg u) (Some u) in
          del_client u
        else ret tt
    | None => ret tt
    end in
  close c.

(** *** The handler as a state machine

    A handler is [Negotiating] until its first read, [Active] while it is in
    the loop, [Closing] when the [try] body has been left (by [return], by
    [break], by the loop test or by an exception, which [except Exception]
    only prints), and [Closed] after the [finally] block; [Died] when the
    [finally] block itself raised. *)
Inductive phase :=
| Negotiating
| Active (username : string)
| Closing (username : option string)
| Closed
| Died (e : exn).

Record handler := Handler { h_conn : conn; h_ip : string; h_phase : phase }.

Definition enter (c : conn) (ip : string) (p : phase) : handler := Handler c ip p.

(** Lines 57-79 up to the loop. *)
Definition negotiate (c : conn) (ip : string) (r : recv_result) (now : string)
    (w : state) : state * phase :=
  match recv c r w with
  | (w1, Raise _) => (w1, Closing None)
  | (w1, Ok raw) =>
      let username := Text.strip raw in
      match join c ip username now w1 with
      | (w2, Ok Next) => (w2, Active username)
      | (w2, Ok Leave) => (w2, Closing (Some username))
      | (w2, Raise _) => (w2, Closing (Some username))
      end
  end.

Definition iterate (c : conn) (ip username : string) (ev : loop_event)
    (now : string) (w : state) : state * phase :=
  match loop_step c ip username ev now w with
  | (w1, Ok Next) => (w1, Active username)
  | (w1, Ok Leave) => (w1, Closing (Some username))
  | (w1, Raise _) => (w1, Closing (Some username))
  end.

Definition finish (c : conn) (ip : string) (username : option string)
    (now : string) (w : state) : state * phase :=
  match finally_block c ip username now w with
  | (w1, Ok _) => (w1, Closed)
  | (w1, Raise e) => (w1, Died e)
  end.

(** A connection that does not get into the loop: [return] and exceptions
    both lead to the [finally] block at once; [now'] is the clock there. *)
Definition handshake (c : conn) (ip : string) (r : recv_result) (now now' : string)
    (w : state) : state * phase :=
  let (w1, p) := negotiate c ip r now w in
  match p with
  | Closing username => finish c ip username now' w1
  | _ => (w1, p)
  end.

(** The loop on a script of what the socket reports and of clock readings;
    the handler is still [Active] when the script ends before the loop does. *)
Fixpoint serve (c : conn) (ip username : string)
    (script : list (loop_event * string)) (w : state) : state * phase :=
  match script with
  | [] => (w, Active username)
  | (ev, now) :: script' =>
      match iterate c ip username ev now w with
      | (w', Active _) => serve c ip username script' w'
      | res => res
      end
  end.

(** [handle_client] run on its own: the first read [r], the loop on [script],
    and the [finally] block once the [try] body has been left. *)
Definition handle_client (c : conn) (ip : string) (r : recv_result) (now : string)
    (script : list (loop_event * string)) (now' : string) (w : state)
    : state * phase :=
  match negotiate c ip r now w with
  | (w1, Active username) =>
      match serve c ip username script w1 with
      | (w2, Closing uo) => finish c ip uo now' w2
      | res => res
      end
  | (w1, Closing uo) => finish c ip uo now' w1
  | res => res
  end.

(** The next stretch of a handler (the negotiation, one iteration of the
    loop or the [finally] block), run with no other thread in between:
    [ev] is what its socket reports, [now] the clock. *)
Definition step (h : handler) (ev : loop_event) (now : string) (w : state)
    : state * handler :=
  let c := h_conn h in
  let ip := h_ip h in
  match h_phase h with
  | Negotiating =>
      match ev with
      | Idle => (w, h)
      | Ready r => let (w', p) := negotiate c ip r now w in (w', enter c ip p)
      end
  | Active username =>
      let (w', p) := iterate c ip username ev now w in (w', enter c ip p)
  | Closing username =>
      let (w', p) := finish c ip username now w in (w', enter c ip p)
  | Closed | Died _ => (w, h)
  end.


(** ** The code as threads see it

    [handle_client] runs in one thread per connection and the [finally]
    block of [start] in the main thread.  The source takes no lock, so
    another thread may run between any two accesses to [self.clients],
    [self.chat_history], [self.running] or a socket.  The definitions of
    this section are the same code cut at these accesses: a [proc] is what
    is left to do, and each [Act] is one access, after which any other
    thread may take its turn.  The functions in [M] above are what a [proc]
    does when no other thread runs meanwhile ([collapse]).

    A [for] loop over [self.clients.items()] walks the live dict.  Its
    iterator remembers the size the dict had when the loop began, how many
    items it may still yield, and where it stands.  [next] raises
    [RuntimeError] when the size is no longer the same, and also when it
    finds an item after it has yielded as many as the dict had (CPython 3.8
    and later).  As long as nothing was added or deleted since the loop
    began it yields the items in insertion order.  When entries were added
    and deleted so that the size is the same again, Python only says that
    the loop may miss entries: the item it yields then, if any, is left open
    ([choice]). *)

Abbreviation entry := (string * (string * conn))%type (only parsing).

Record iterator := Iterator {
  it_size : nat;     (** the size of the dict when the loop began *)
  it_epoch : nat;    (** how often the dict had been changed by then *)
  it_pos : nat       (** the number of items yielded *)
}.

Definition advance (it : iterator) : iterator :=
  Iterator (it_size it) (it_epoch it) (S (it_pos it)).

(** What the iterator yields when the dict was changed but has its old
    size: [Some e] for an item, [None] for the end of the loop. *)
Definition choice : Type := option entry.

Definition next_item (it : iterator) (ch : choice) (ep : nat) (r : registry)
    : result (option entry) :=
  if decide (length r = it_size it) then
    if decide (ep = it_epoch it) then Ok (r !! it_pos it)
    else match ch with
         | Some e => if decide (e ∈ r) then Ok (Some e) else Ok None
         | None => Ok None
         end
  else Raise RuntimeError.

(** The accesses to what the threads share. *)
Inductive prim : Type -> Type :=
| PSendall (c : conn) (msg : string) : prim unit        (** [c.sendall(msg)] *)
| PClose (c : conn) : prim unit                          (** [c.close()] *)
| PRecv (c : conn) (r : recv_result) : prim string       (** [c.recv(n).decode()] *)
| PSelect (c : conn) (ev : loop_event) : prim (option recv_result)
| PClients : prim registry          (** a look at [self.clients]: [in], [[]] *)
| PRunning : prim bool                                   (** [self.running] *)
| PSetClient (u : string) (v : string * conn) : prim unit (** [self.clients[u] = v] *)
| PDelClient (u : string) : prim unit                    (** [del self.clients[u]] *)
| PStore (now sender message : string) : prim string     (** [store_message] *)
| PStop : prim unit                                      (** [self.running = False] *)
| PIter : prim iterator             (** the start of a loop over [self.clients.items()] *)
| PNext (it : iterator) : prim (option entry).           (** the next item of that loop *)

Definition set_running (b : bool) (w : state) : state :=
  State (clients w) (chat_history w) b (net w).

(** One access, on the state as it is at that moment; [ep] counts the
    changes of the registry so far. *)
Definition exec {X : Type} (o : prim X) (ch : choice) (ep : nat) : M X :=
  match o in prim X return M X with
  | PSendall c msg => sendall c msg
  | PClose c => close c
  | PRecv c r => recv c r
  | PSelect c ev => select c ev
  | PClients => fun w => (w, Ok (clients w))
  | PRunning => fun w => (w, Ok (running w))
  | PSetClient u v => modify (fun w => set_clients (Dict.set u v (clients w)) w)
  | PDelClient u => del_client u
  | PStore now sender message => store_message now sender message
  | PStop => modify (set_running false)
  | PIter => fun w => (w, Ok (Iterator (length (clients w)) ep 0))
  | PNext it => fun w => (w, next_item it ch ep (clients w))
  end.

(** The registry counts as changed when it is not what it was. *)
Definition bump (ep : nat) (w w' : state) : nat :=
  if decide (clients w' = clients w) then ep else S ep.

(** What is left to do: nothing, with a result, or an access and what
    follows it. *)
Inductive proc (A : Type) : Type :=
| Fin (r : result A)
| Act {X : Type} (o : prim X) (k : result X -> proc A).
Arguments Fin {A} r.
Arguments Act {A X} o k.

Definition call {X : Type} (o : prim X) : proc X := Act o Fin.

Fixpoint pbind {A B : Type} (p : proc A) (k : A -> proc B) : proc B :=
  match p with
  | Fin (Ok a) => k a
  | Fin (Raise e) => Fin (Raise e)
  | Act o k' => Act o (fun r => pbind (k' r) k)
  end.

(** [try: p  except <handles>: h] *)
Fixpoint ptry {A : Type} (p : proc A) (handles : exn -> bool) (h : exn -> proc A)
    : proc A :=
  match p with
  | Fin (Ok a) => Fin (Ok a)
  | Fin (Raise e) => if handles e then h e else Fin (Raise e)
  | Act o k' => Act o (fun r => ptry (k' r) handles h)
  end.

(** The end of a piece of code, normal or not, turned into a value. *)
Fixpoint settle {A B : Type} (p : proc A) (f : result A -> B) : proc B :=
  match p with
  | Fin r => Fin (Ok (f r))
  | Act o k' => Act o (fun r => settle (k' r) f)
  end.

Notation "'do*' x := p 'in' k" := (pbind p (fun x => k))
  (at level 10, x name, p at level 100, k at level 200).

(** A [proc] run to its end with no other thread in between. *)
Fixpoint collapse {A : Type} (p : proc A) (ep : nat) (w : state)
    : state * nat * result A :=
  match p with
  | Fin r => (w, ep, r)
  | Act o k =>
      let (w', r) := exec o None ep w in
      collapse (k r) (bump ep w w') w'
  end.

(** *** [broadcast_message], lines 36-50 *)

(** The first loop; [remaining] is the number of items the iterator may
    still yield. *)
Fixpoint pass_p (remaining : nat) (message : string) (exclude_username : option string)
    (it : iterator) (disconnected_users : list string) : proc (list string) :=
  do* item := call (PNext it) in
  match item with
  | None => Fin (Ok disconnected_users)
  | Some (username, (_, c)) =>
      match remaining with
      | 0 => Fin (Raise RuntimeError)
      | S n =>
          if decide (Some username = exclude_username)
          then pass_p n message exclude_username (advance it) disconnected_users
          else
            do* d := ptry (do* _ := call (PSendall c message) in
                           Fin (Ok disconnected_users))
                       is_conn_error
                       (fun _ => Fin (Ok (disconnected_users ++ [username]))) in
            pass_p n message exclude_username (advance it) d
      end
  end.

(** The second loop, over the local list: [if username in self.clients],
    then [self.clients[username][1].close()], then [del]. *)
Fixpoint evict_p (disconnected_users : list string) : proc unit :=
  match disconnected_users with
  | [] => Fin (Ok tt)
  | username :: rest =>
      do* r := call PClients in
      if Dict.mem username r then
        do* r' := call PClients in
        match Dict.get username r' with
        | Some (_, c) =>
            do* _ := call (PClose c) in
            do* _ := call (PDelClient username) in
            evict_p rest
        | None => Fin (Raise KeyError)
        end
      else evict_p rest
  end.

Definition broadcast_p (message : string) (exclude_username : option string)
    : proc unit :=
  do* it := call PIter in
  do* disconnected_users := pass_p (it_size it) message exclude_username it [] in
  evict_p disconnected_users.

(** *** [handle_client] *)

(** Lines 61-79. *)
Definition join_p (c : conn) (ip username now : string) : proc ctl :=
  if negb (Text.truthy username) then
    do* _ := call (PClose c) in Fin (Ok Leave)
  else
    do* r := call PClients in
    if Dict.mem username r then
      do* _ := call (PSendall c taken_msg) in
      do* _ := call (PClose c) in
      Fin (Ok Leave)
    else
      do* _ := call (PSetClient username (ip, c)) in
      do* _ := call (PStore now "Server" (at_ip username ip +:+ " joined the chat")) in
      do* _ := broadcast_p (joined_msg username) (Some username) in
      do* _ := call (PSendall c (welcome_msg username)) in
      Fin (Ok Next).

(** The list comprehension of lines 95-97, over the live registry. *)
Fixpoint roster_p (remaining : nat) (it : iterator) (lines : list string)
    : proc (list string) :=
  do* item := call (PNext it) in
  match item with
  | None => Fin (Ok lines)
  | Some e =>
      match remaining with
      | 0 => Fin (Raise RuntimeError)
      | S n => roster_p n (advance it) (lines ++ [roster_line e])
      end
  end.

(** Lines 105-120: [target_user in self.clients], then
    [self.clients[target_user]]. *)
Definition send_command_p (c : conn) (username data : string) : proc unit :=
  let parts := Text.split " " 2 data in
  if length parts =? 3 then
    let target_user := nth 1 parts "" in
    let msg := nth 2 parts "" in
    do* r := call PClients in
    if Dict.mem target_user r then
      do* r' := call PClients in
      match Dict.get target_user r' with
      | Some (_, t_conn) =>
          ptry (call (PSendall t_conn (private_msg username msg)))
            is_conn_error
            (fun _ => call (PSendall c (not_connected_msg target_user)))
      | None => Fin (Raise KeyError)
      end
    else call (PSendall c (not_found_msg target_user))
  else call (PSendall c usage_msg).

(** Lines 94-126. *)
Definition dispatch_p (c : conn) (username data : string) : proc ctl :=
  if decide (data = "list") then
    do* it := call PIter in
    do* lines := roster_p (it_size it) it [] in
    do* _ := call (PSendall c ("Connected clients:" +:+ Text.nl +:+ Text.join Text.nl lines)) in
    Fin (Ok Next)
  else if Text.startswith "broadcast " data then
    let msg := Text.replace1 "broadcast " "" data in
    do* _ := broadcast_p (broadcast_msg username msg) (Some username) in
    Fin (Ok Next)
  else if Text.startswith "send " data then
    do* _ := send_command_p c username data in Fin (Ok Next)
  else if decide (data = "exit") then Fin (Ok Leave)
  else
    do* _ := call (PSendall c get_help) in Fin (Ok Next).

(** Lines 82-131. *)
Definition iteration_p (c : conn) (ip username : string) (ev : loop_event)
    (now : string) : proc ctl :=
  ptry
    (do* ready := call (PSelect c ev) in
     match ready with
     | None => Fin (Ok Next)
     | Some r =>
         do* raw := call (PRecv c r) in
         let data := Text.strip raw in
         if negb (Text.truthy data) then Fin (Ok Leave)
         else
           do* _ := call (PStore now (at_ip username ip) data) in
           dispatch_p c username data
     end)
    (fun e => bool_decide (e = socket_timeout) || is_conn_error e)
    (fun e => if decide (e = socket_timeout) then Fin (Ok Next) else Fin (Ok Leave)).

Definition loop_step_p (c : conn) (ip username : string) (ev : loop_event)
    (now : string) : proc ctl :=
  do* b := call PRunning in
  if b then iteration_p c ip username ev now else Fin (Ok Leave).

(** Lines 135-142: [if username and username in self.clients]. *)
Definition finally_p (c : conn) (ip : string) (username : option string)
    (now : string) : proc unit :=
  do* _ :=
    match username with
    | Some u =>
        if Text.truthy u then
          do* r := call PClients in
          if Dict.mem u r then
            do* _ := call (PStore now "Server" (at_ip u ip +:+ " left the chat")) in
            do* _ := broadcast_p (left_msg u) (Some u) in
            call (PDelClient u)
          else Fin (Ok tt)
        else Fin (Ok tt)
    | None => Fin (Ok tt)
    end in
  call (PClose c).

(** The three stretches of [handle_client], each ending in the phase the
    handler is in next. *)
Definition negotiate_p (c : conn) (ip : string) (r : recv_result) (now : string)
    : proc phase :=
  Act (PRecv c r) (fun res =>
    match res with
    | Raise _ => Fin (Ok (Closing None))
    | Ok raw =>
        let username := Text.strip raw in
        settle (join_p c ip username now)
          (fun res => match res with
                      | Ok Next => Active username
                      | Ok Leave => Closing (Some username)
                      | Raise _ => Closing (Some username)
                      end)
    end).

Definition iterate_p (c : conn) (ip username : string) (ev : loop_event)
    (now : string) : proc phase :=
  settle (loop_step_p c ip username ev now)
    (fun res => match res with
                | Ok Next => Active username
                | Ok Leave => Closing (Some username)
                | Raise _ => Closing (Some username)
                end).

Definition finish_p (c : conn) (ip : string) (username : option string)
    (now : string) : proc phase :=
  settle (finally_p c ip username now)
    (fun res => match res with
                | Ok _ => Closed
                | Raise e => Died e
                end).

(** ** [start]: shutting down *)

Definition shutdown_msg : string := "Server is shutting down. Goodbye!".

(** Lines 170-175: the loop over the registry in the [finally] block of
    [start].  The bare [except] swallows whatever [sendall] or [close]
    raises; [close] is inside the [try], after [sendall]. *)
Fixpoint goodbye_pass (items : registry) : M unit :=
  match items with
  | [] => ret tt
  | (_, (_, c)) :: items' =>
      let* _ := try_except
                  (let* _ := sendall c shutdown_msg in close c)
                  (fun _ => true)
                  (fun _ => ret tt) in
      goodbye_pass items'
  end.

(** Lines 167-175: the [finally] block of [start], up to the closing of the
    listening socket. *)
Definition shutdown : M unit :=
  let* _ := modify (set_running false) in
  let* w := get_state in
  goodbye_pass (clients w).

(** ** Choosing the port *)

(** [ChatServer.__init__], line 12: [port or int(os.getenv('PORT', 5000))];
    [env_port] is what [int(os.getenv('PORT', 5000))] gives, a number or
    [ValueError].  It is only evaluated when [port] is falsy: [None] or 0. *)
Definition init_port (port : option Z) (env_port : result Z) : result Z :=
  match port with
  | Some p => if decide (p = 0%Z) then env_port else Ok p
  | None => env_port
  end.

(** Lines 183-191 of the main block: the port from the environment, then the
    first command-line argument when there is one and [int] accepts it
    ([arg] is what [int(sys.argv[1])] gives; only [ValueError] is caught),
    then the constructor. *)
Definition main_port (env_port : result Z) (arg : option (result Z)) : result Z :=
  match env_port with
  | Raise e => Raise e
  | Ok p0 =>
      let port :=
        match arg with
        | Some (Ok n) => Ok n
        | Some (Raise e) => if decide (e = ValueError) then Ok p0 else Raise e
        | None => Ok p0
        end in
      match port with
      | Ok p => init_port (Some p) env_port
      | Raise e => Raise e
      end
  end.

(** The same block as the main thread runs it among the handlers: the loop
    walks the live registry.  An exception of [sendall] or [close] is
    swallowed by the bare [except]; one raised by the loop itself is not. *)
Fixpoint goodbye_p (remaining : nat) (it : iterator) : proc unit :=
  do* item := call (PNext it) in
  match item with
  | None => Fin (Ok tt)
  | Some (_, (_, c)) =>
      match remaining with
      | 0 => Fin (Raise RuntimeError)
      | S n =>
          do* _ := ptry (do* _ := call (PSendall c shutdown_msg) in call (PClose c))
                     (fun _ => true)
                     (fun _ => Fin (Ok tt)) in
          goodbye_p n (advance it)
      end
  end.

Definition shutdown_p : proc unit :=
  do* _ := call PStop in
  do* it := call PIter in
  goodbye_p (it_size it) it.

(** ** The server as a system of threads

    [start] accepts connections and gives each to a handler thread; its
    [finally] block runs in the main thread when the accept loop is left.
    A step of the system is one access of one thread to what the threads
    share ([sys_work], [sys_main_work]); between two accesses of a thread
    any other thread may take steps, a new connection may be accepted and a
    peer may reset or drop its connection.  A handler takes up the next
    stretch of [handle_client] (the negotiation, one iteration of the loop,
    the [finally] block) with what its socket will report and the clock
    reading it will get ([sys_begin]), and enters its next phase when the
    stretch is done ([sys_done]).  When the main thread has finished the
    process ends, and the handlers, which are daemon threads, with it. *)

(** The socket object [accept] returns. *)
Definition fresh_sock (l : link_state) : sock := Sock [] [] false l.

(** The peer changes the condition of its connection. *)
Definition peer_sets (l : link_state) (s : sock) : sock :=
  Sock (calls s) (outbox s) (closed s) l.

(** A handler thread: its connection, the address of the peer, the phase
    it is in, and what is left of the stretch it is running. *)
Record worker := Worker {
  w_conn : conn;
  w_ip : string;
  w_phase : phase;
  w_task : option (proc phase)
}.

(** The main thread: in the accept loop, in the [finally] block of [start],
    or finished. *)
Inductive boss :=
| Serving
| Stopping (p : proc unit)
| Stopped.

Record pool := Pool {
  shared : state;
  epoch : nat;         (** how often the registry has been changed *)
  workers : list worker;
  main : boss
}.

(** The stretch a handler takes up next. *)
Definition begin (wk : worker) (ev : loop_event) (now : string) : option (proc phase) :=
  match w_phase wk with
  | Negotiating =>
      match ev with
      | Idle => None
      | Ready r => Some (negotiate_p (w_conn wk) (w_ip wk) r now)
      end
  | Active username => Some (iterate_p (w_conn wk) (w_ip wk) username ev now)
  | Closing username => Some (finish_p (w_conn wk) (w_ip wk) username now)
  | Closed | Died _ => None
  end.

Definition with_task (wk : worker) (t : option (proc phase)) : worker :=
  Worker (w_conn wk) (w_ip wk) (w_phase wk) t.

(** The phase after a stretch; an exception that leaves the [finally] block
    ends the thread. *)
Definition next_phase (r : result phase) : phase :=
  match r with
  | Ok p => p
  | Raise e => Died e
  end.

Inductive sys_step : pool -> pool -> Prop :=
| sys_accept g c ip l :
    main g = Serving ->
    c ∉ map w_conn (workers g) ->
    sys_step g (Pool (set_net (<[c := fresh_sock l]> (net (shared g))) (shared g))
                     (epoch g)
                     (workers g ++ [Worker c ip Negotiating None])
                     (main g))
| sys_peer g c l :
    sys_step g (Pool (set_net (alter (peer_sets l) c (net (shared g))) (shared g))
                     (epoch g) (workers g) (main g))
| sys_begin g i wk ev now p :
    main g <> Stopped ->
    workers g !! i = Some wk ->
    w_task wk = None ->
    begin wk ev now = Some p ->
    sys_step g (Pool (shared g) (epoch g)
                     (<[i := with_task wk (Some p)]> (workers g)) (main g))
| sys_work g i wk X (o : prim X) k ch w' r :
    main g <> Stopped ->
    workers g !! i = Some wk ->
    w_task wk = Some (Act o k) ->
    exec o ch (epoch g) (shared g) = (w', r) ->
    sys_step g (Pool w' (bump (epoch g) (shared g) w')
                     (<[i := with_task wk (Some (k r))]> (workers g)) (main g))
| sys_done g i wk r :
    main g <> Stopped ->
    workers g !! i = Some wk ->
    w_task wk = Some (Fin r) ->
    sys_step g (Pool (shared g) (epoch g)
                     (<[i := Worker (w_conn wk) (w_ip wk) (next_phase r) None]> (workers g))
                     (main g))
| sys_interrupt g :
    main g = Serving ->
    sys_step g (Pool (shared g) (epoch g) (workers g) (Stopping shutdown_p))
| sys_main_work g X (o : prim X) k ch w' r :
    main g = Stopping (Act o k) ->
    exec o ch (epoch g) (shared g) = (w', r) ->
    sys_step g (Pool w' (bump (epoch g) (shared g) w') (workers g) (Stopping (k r)))
| sys_main_done g r :
    main g = Stopping (Fin r) ->
    sys_step g (Pool (shared g) (epoch g) (workers g) Stopped).

(** *** The server between two stretches

    A [system] is what the server looks like at a moment when no handler is
    in the middle of a stretch: the shared state and, for each handler, its
    connection, address and phase. *)
Record system := System { srv : state; threads : list handler }.

(** The server when [start] begins to accept. *)
Definition boot : system :=
  System (State [] [] true (fun _ => fresh_sock LinkUp)) [].

Definition boot_pool : pool := Pool (srv boot) 0 [] Serving.

Definition idle (g : pool) : Prop := Forall (fun wk => w_task wk = None) (workers g).

Definition seen (wk : worker) : handler := Handler (w_conn wk) (w_ip wk) (w_phase wk).

Definition view (g : pool) : system := System (shared g) (map seen (workers g)).

(** The states the threads can bring about, seen between two stretches. *)
Definition reachable (s : system) : Prop :=
  exists g, rtc sys_step boot_pool g /\ idle g /\ view g = s.

(** ** Vocabulary of the properties *)

(** A socket on which [sendall] succeeds. *)
Definition healthy (s : sock) : Prop := closed s = false /\ link s = LinkUp.

(** An open socket on which [sendall] raises a connection error. *)
Definition failing (s : sock) : Prop := closed s = false /\ link s <> LinkUp.

(** The connection of the socket is up. *)
Definition link_up (s : sock) : bool := bool_decide (link s = LinkUp).

(** The entries a broadcast sends to. *)
Definition targeted (exclude_username : option string)
    (e : string * (string * conn)) : bool :=
  negb (bool_decide (Some e.1 = exclude_username)).

(** How many of the targeted entries hold the handle [c]. *)
Definition hits (exclude_username : option string) (c : conn) (items : registry) : nat :=
  length (List.filter (fun e => targeted exclude_username e && bool_decide (e.2.2 = c)) items).

(** The users of the targeted entries whose connection is not up. *)
Definition failed_users (exclude_username : option string) (n : conn -> sock)
    (items : registry) : list string :=
  (List.filter (fun e => targeted exclude_username e && negb (link_up (n e.2.2))) items).*1.

(** The handles the second loop closes. *)
Definition evicted (disconnected_users : list string) (r : registry) : list conn :=
  omap (fun u => snd <$> Dict.get u r) disconnected_users.

(** Everything but the sockets is the same in both states. *)
Definition same_server (w w' : state) : Prop :=
  clients w' = clients w /\ chat_history w' = chat_history w /\ running w' = running w.

(** The entries that stay when the users [disc] are removed. *)
Definition kept (disc : list string) (e : string * (string * conn)) : bool :=
  negb (bool_decide (e.1 ∈ disc)).

(** The connection handles held by the registry. *)
Definition handles (r : registry) : list conn := map (fun e => e.2.2) r.

(** Keys of a dict are unique; a connection is registered by its own handler
    only, so handles are unique too. *)
Definition wf_registry (r : registry) : Prop := NoDup r.*1 /\ NoDup (handles r).

(** No socket in the registry has been closed. *)
Definition all_open (w : state) : Prop :=
  forall e, e ∈ clients w -> closed (net w e.2.2) = false.

(** The state after [store_message] has logged a line. *)
Definition logged (now sender message : string) (w : state) : state :=
  set_history (chat_history w ++ [log_entry now sender message]) w.

(** A transition that touches neither the registry nor the open/closed state
    of any socket. *)
Definition quiet (w w' : state) : Prop :=
  clients w' = clients w /\ forall c, closed (net w' c) = closed (net w c).

(** A transition that only removes entries from the registry, and closes
    only sockets that are not in the registry afterwards. *)
Definition shrinks (w w' : state) : Prop :=
  clients w' `sublist_of` clients w /\
  forall c, closed (net w' c) = true ->
            closed (net w c) = true \/ c ∉ handles (clients w').

(** *** What the threads keep up *)

(** A stretch that adds nothing to the registry and does not touch the flag
    [running]. *)
Fixpoint settled {A : Type} (p : proc A) : Prop :=
  match p with
  | Fin _ => True
  | Act o k =>
      match o with
      | PSetClient _ _ | PStop => False
      | _ => True
      end /\ forall r, settled (k r)
  end.

(** A stretch that adds to the registry at most once, and then the entry of
    its own connection [c] and address [ip] under a non-empty name. *)
Fixpoint fresh (c : conn) (ip : string) {A : Type} (p : proc A) : Prop :=
  match p with
  | Fin _ => True
  | Act o k =>
      match o with
      | PSetClient u v => u <> "" /\ v = (ip, c) /\ forall r, settled (k r)
      | PStop => False
      | _ => forall r, fresh c ip (k r)
      end
  end.

(** A stretch that adds nothing to the registry. *)
Fixpoint never_registers {A : Type} (p : proc A) : Prop :=
  match p with
  | Fin _ => True
  | Act o k =>
      match o with
      | PSetClient _ _ => False
      | _ => True
      end /\ forall r, never_registers (k r)
  end.

(** What an access does to the registry: it sets a key, deletes one, or
    leaves the registry alone. *)
Definition touch {X : Type} (o : prim X) : option (string * option (string * conn)) :=
  match o with
  | PSetClient u v => Some (u, Some v)
  | PDelClient u => Some (u, None)
  | _ => None
  end.

(** A stretch that does not take the handler back to the negotiation. *)
Fixpoint past_negotiation (p : proc phase) : Prop :=
  match p with
  | Fin r => r <> Ok Negotiating
  | Act o k => forall r, past_negotiation (k r)
  end.

(** A handler that has not registered yet holds a connection that is not
    in the registry; one that is past that point adds nothing any more. *)
Definition worker_ok (w : state) (wk : worker) : Prop :=
  match w_task wk with
  | None => w_phase wk = Negotiating -> w_conn wk ∉ handles (clients w)
  | Some p =>
      past_negotiation p /\
      (settled p \/
       (fresh (w_conn wk) (w_ip wk) p /\ w_conn wk ∉ handles (clients w)))
  end.

(** What holds at every moment of every run: names and handles in the
    registry are unique, no registered name is empty, the handlers hold
    distinct connections, and every registered connection is that of a
    handler. *)
Definition inv (g : pool) : Prop :=
  wf_registry (clients (shared g)) /\
  ("" ∉ (clients (shared g)).*1) /\
  NoDup (map w_conn (workers g)) /\
  (forall c, c ∈ handles (clients (shared g)) -> c ∈ map w_conn (workers g)) /\
  Forall (worker_ok (shared g)) (workers g) /\
  match main g with
  | Stopping p => never_registers p
  | _ => True
  end.

(** No handler is in a stretch that would set the flag [running] or register
    anything but itself.  It holds when no handler is in a stretch, and the
    stretches of [handle_client] keep it. *)
Definition tame (g : pool) : Prop :=
  Forall (fun wk => forall p, w_task wk = Some p -> fresh (w_conn wk) (w_ip wk) p)
         (workers g).

(** [p] does at [w], run without interruption, what [m] does. *)
Definition agrees_at {A} (w : state) (p : proc A) (m : M A) : Prop :=
  forall ep, exists ep', collapse p ep w = ((m w).1, ep', (m w).2).

Definition agrees {A} (p : proc A) (m : M A) : Prop := forall w, agrees_at w p m.



(** A computation all of whose runs, normal or not, are such transitions. *)
Definition respects {A} (R : state -> state -> Prop) (m : M A) : Prop :=
  forall w w' r, m w = (w', r) -> R w w'.


(** What the loop of the shutdown makes of a socket it visits: the goodbye
    is attempted, and the socket is closed only when that succeeded. *)
Definition farewell (s : sock) : sock :=
  match send_outcome s with
  | Ok _ => shut (attempt shutdown_msg s)
  | Raise _ => attempt shutdown_msg s
  end.

(** A transition that leaves the history and the flag alone. *)
Definition same_log (w w' : state) : Prop :=
  chat_history w' = chat_history w /\ running w' = running w.

(** ** Running the system

    A script of what happens to the server, and the state it leads to.
    [Handle] runs the next stretch of a handler from its beginning to its
    end, with no other thread in between. *)

Inductive action :=
| Accept (c : conn) (ip : string) (l : link_state)
| Handle (i : nat) (ev : loop_event) (now : string)
| Peer (c : conn) (l : link_state).

(** An action that is not possible (a connection accepted twice, a handler
    that does not exist) is skipped. *)
Definition act (a : action) (s : system) : system :=
  match a with
  | Accept c ip l =>
      if decide (c ∈ map h_conn (threads s)) then s
      else System (set_net (<[c := fresh_sock l]> (net (srv s))) (srv s))
                  (threads s ++ [Handler c ip Negotiating])
  | Handle i ev now =>
      match threads s !! i with
      | Some h => System (step h ev now (srv s)).1
                         (<[i := (step h ev now (srv s)).2]> (threads s))
      | None => s
      end
  | Peer c l =>
      System (set_net (alter (peer_sets l) c (net (srv s))) (srv s)) (threads s)
  end.

Definition run (script : list action) (s : system) : system :=
  foldl (fun s a => act a s) s script.

(** Alice, bob and carol join, in this order. *)
Definition town_script : list action :=
  [ Accept 1 "10.0.0.1" LinkUp; Handle 0 (Ready (RecvData "alice")) "09:00";
    Accept 2 "10.0.0.2" LinkUp; Handle 1 (Ready (RecvData "bob")) "09:01";
    Accept 3 "10.0.0.3" LinkUp; Handle 2 (Ready (RecvData "carol")) "09:02" ].

Definition town : system := run town_script boot.

(** The same, after carol's peer has reset its connection. *)
Definition stormy : system := run (town_script ++ [Peer 3 LinkReset]) boot.

(** The same as [town], after a newcomer has connected. *)
Definition knocking : system := run (town_script ++ [Accept 4 "10.0.0.4" LinkUp]) boot.

Definition calm : state := srv town.
Definition demo : state := srv stormy.
Definition demo_clients : registry :=
  [ ("alice", ("10.0.0.1", 1)); ("bob", ("10.0.0.2", 2)); ("carol", ("10.0.0.3", 3)) ].



(** ** Running the threads

    A script of single steps of the threads.  [MStretch] lets a handler run
    its next stretch from beginning to end; [MBegin], [MWork] and [MDone]
    take it through a stretch one access at a time, so that other threads
    can be scheduled in between. *)
Inductive move :=
| MAccept (c : conn) (ip : string) (l : link_state)
| MPeer (c : conn) (l : link_state)
| MStretch (i : nat) (ev : loop_event) (now : string)
| MBegin (i : nat) (ev : loop_event) (now : string)
| MWork (i : nat) (ch : choice)
| MDone (i : nat)
| MInterrupt
| MMain (ch : choice)
| MMainDone.

(** A move on a handler that is there, while the process is alive. *)
Definition on_worker (g : pool) (i : nat) (f : worker -> pool) : pool :=
  match main g with
  | Stopped => g
  | _ => match workers g !! i with
         | Some wk => f wk
         | None => g
         end
  end.

(** A move that is not possible is skipped. *)
Definition play (mv : move) (g : pool) : pool :=
  match mv with
  | MAccept c ip l =>
      match main g with
      | Serving =>
          if decide (c ∈ map w_conn (workers g)) then g
          else Pool (set_net (<[c := fresh_sock l]> (net (shared g))) (shared g))
                    (epoch g) (workers g ++ [Worker c ip Negotiating None]) (main g)
      | _ => g
      end
  | MPeer c l =>
      Pool (set_net (alter (peer_sets l) c (net (shared g))) (shared g))
           (epoch g) (workers g) (main g)
  | MStretch i ev now =>
      on_worker g i (fun wk =>
        match w_task wk, begin wk ev now with
        | None, Some p =>
            let '(w', ep', r) := collapse p (epoch g) (shared g) in
            Pool w' ep'
                 (<[i := Worker (w_conn wk) (w_ip wk) (next_phase r) None]> (workers g))
                 (main g)
        | _, _ => g
        end)
  | MBegin i ev now =>
      on_worker g i (fun wk =>
        match w_task wk, begin wk ev now with
        | None, Some p =>
            Pool (shared g) (epoch g) (<[i := with_task wk (Some p)]> (workers g)) (main g)
        | _, _ => g
        end)
  | MWork i ch =>
      on_worker g i (fun wk =>
        match w_task wk with
        | Some (Act o k) =>
            let (w', r) := exec o ch (epoch g) (shared g) in
            Pool w' (bump (epoch g) (shared g) w')
                 (<[i := with_task wk (Some (k r))]> (workers g)) (main g)
        | _ => g
        end)
  | MDone i =>
      on_worker g i (fun wk =>
        match w_task wk with
        | Some (Fin r) =>
            Pool (shared g) (epoch g)
                 (<[i := Worker (w_conn wk) (w_ip wk) (next_phase r) None]> (workers g))
                 (main g)
        | _ => g
        end)
  | MInterrupt =>
      match main g with
      | Serving => Pool (shared g) (epoch g) (workers g) (Stopping shutdown_p)
      | _ => g
      end
  | MMain ch =>
      match main g with
      | Stopping (Act o k) =>
          let (w', r) := exec o ch (epoch g) (shared g) in
          Pool w' (bump (epoch g) (shared g) w') (workers g) (Stopping (k r))
      | _ => g
      end
  | MMainDone =>
      match main g with
      | Stopping (Fin _) => Pool (shared g) (epoch g) (workers g) Stopped
      | _ => g
      end
  end.

Definition replay (script : list move) (g : pool) : pool :=
  foldl (fun g mv => play mv g) g script.

(** Alice, bob and carol join, in this order, each without interruption. *)
Definition town_moves : list move :=
  [ MAccept 1 "10.0.0.1" LinkUp; MStretch 0 (Ready (RecvData "alice")) "09:00";
    MAccept 2 "10.0.0.2" LinkUp; MStretch 1 (Ready (RecvData "bob")) "09:01";
    MAccept 3 "10.0.0.3" LinkUp; MStretch 2 (Ready (RecvData "carol")) "09:02" ].

Definition town_pool : pool := replay town_moves boot_pool.

(** Alice's handler reads [broadcast hi] and starts the broadcast: it has
    passed over its own entry and sent the text to bob when dave connects
    and joins.  Then alice's handler asks the registry for the next item. *)
Definition race_moves : list move :=
  [ MBegin 0 (Ready (RecvData "broadcast hi")) "10:00";
    MWork 0 None;    (* the test of [self.running] *)
    MWork 0 None;    (* [select] *)
    MWork 0 None;    (* [recv] *)
    MWork 0 None;    (* [store_message] *)
    MWork 0 None;    (* the loop over the registry begins *)
    MWork 0 None;    (* the first item: alice, who is excluded *)
    MWork 0 None;    (* the second item: bob *)
    MWork 0 None;    (* [sendall] on bob's socket *)
    MAccept 4 "10.0.0.4" LinkUp;
    MStretch 3 (Ready (RecvData "dave")) "10:01";
    MWork 0 None;    (* the third item: the registry has changed size *)
    MDone 0 ].

Definition race_pool : pool := replay race_moves town_pool.

(** The main thread leaves its accept loop and runs its [finally] block to
    the end of the goodbye loop.  Bob's handler, a daemon thread that is
    still alive, then finds [running] cleared, leaves its loop and runs its
    own [finally] block. *)
Definition closing_moves : list move :=
  [MInterrupt] ++ replicate 12 (MMain None) ++
  [ MStretch 1 Idle "12:00"; MStretch 1 Idle "12:01" ].

Definition closing_pool : pool := replay closing_moves town_pool.

(** * Properties *)

(** ** Text *)

Module TextFacts.
Import Text.

Lemma app_assoc (a b c : string) : (a +:+ b) +:+ c = a +:+ (b +:+ c).
Proof. induction a as [|x a IH]; simpl; [done | by rewrite IH]. Qed.





Lemma cut_app (sep : ascii) (l r : string) :
  contains sep l = false -> cut sep (l +:+ String sep r) = Some (l, r).
Proof.
  unfold contains. induction l as [|a l IH]; simpl; intros Hl.
  - by rewrite Ascii.eqb_refl.
  - destruct (Ascii.eqb a sep) eqn:E.
    + exfalso. apply bool_decide_eq_false in Hl. apply Hl. by eexists.
    + rewrite IH; [done |]. apply bool_decide_eq_false. intros [x Hx].
      apply bool_decide_eq_false in Hl. apply Hl. rewrite Hx. destruct x. by eexists.
Qed.

Lemma cut_join (sep : ascii) (s l r : string) :
  cut sep s = Some (l, r) -> s = l +:+ String sep r /\ contains sep l = false.
Proof.
  unfold contains. revert l r. induction s as [|a s IH]; simpl; intros l r H; [done |].
  destruct (Ascii.eqb a sep) eqn:E.
  - apply Ascii.eqb_eq in E. by simplify_eq.
  - destruct (cut sep s) as [[l' r']|] eqn:C; [| done]. simplify_eq.
    destruct (IH _ _ eq_refl) as [-> Hc]. split; [done |].
    apply bool_decide_eq_false. simpl. rewrite E.
    apply bool_decide_eq_false in Hc. intros [x Hx]. apply Hc.
    destruct (cut sep l') as [[? ?]|]; [by eexists | done].
Qed.

(** [split] yields at most [maxsplit + 1] pieces, and joining them with the
    separator gives the text back: the last piece is the rest of the line. *)
Lemma split_length (sep : ascii) (n : nat) (s : string) :
  1 <= length (split sep n s) <= S n.
Proof.
  revert s. induction n as [|n IH]; intros s; simpl; [lia |].
  destruct (cut sep s) as [[l r]|]; simpl; [| lia]. specialize (IH r). lia.
Qed.

Lemma split_join (sep : ascii) (n : nat) (s : string) :
  join (String sep "") (split sep n s) = s.
Proof.
  unfold join. revert s. induction n as [|n IH]; intros s; simpl; [done |].
  destruct (cut sep s) as [[l r]|] eqn:C; [| done].
  apply cut_join in C as [-> _]. specialize (IH r).
  simpl. destruct (split sep n r) as [|x xs] eqn:E.
  - pose proof (split_length sep n r) as H. rewrite E in H. simpl in H. lia.
  - by rewrite IH.
Qed.

(** The three pieces of a [send] line. *)
Lemma split_send (target msg : string) :
  contains " " target = false ->
  split " " 2 ("send " +:+ target +:+ " " +:+ msg) = ["send"; target; msg].
Proof.
  intros H. change ("send " +:+ target +:+ " " +:+ msg)
    with ("send" +:+ String " " (target +:+ String " " msg)).
  cbn [split]. rewrite cut_app by done. rewrite cut_app by done. done.
Qed.

(** Every whitespace token is non-empty, so a round of [lstrip_with] makes
    the text shorter. *)
Lemma drop_length (n : nat) (s : string) :
  String.length (drop n s) = String.length s - n.
Proof. revert s. induction n as [|n IH]; intros [|a s]; simpl; auto with lia. Qed.

Lemma leading_Some (toks : list string) (s t : string) :
  leading toks s = Some t -> t ∈ toks.
Proof.
  unfold leading. intros H. apply find_some in H as [H _]. by apply list_elem_of_In.
Qed.

(** With [String.length s] rounds the loop of [lstrip_with] has run to its
    end: no token is left in front. *)
Lemma lstrip_with_done (toks : list string) (fuel : nat) (s : string) :
  Forall (fun t => 0 < String.length t) toks ->
  String.length s <= fuel ->
  leading toks (lstrip_with toks fuel s) = None.
Proof.
  intros Htoks. revert s. induction fuel as [|fuel IH]; intros s Hlen; simpl.
  - destruct s; [| simpl in Hlen; lia].
    destruct (leading toks "") as [t|] eqn:E; [| done].
    pose proof (leading_Some _ _ _ E) as Ht.
    rewrite Forall_forall in Htoks. specialize (Htoks _ Ht).
    unfold leading in E. apply find_some in E as [_ E].
    destruct t; [simpl in Htoks; lia | done].
  - destruct (leading toks s) as [t|] eqn:E; [| done].
    apply IH. rewrite drop_length. apply leading_Some in E.
    rewrite Forall_forall in Htoks. specialize (Htoks _ E). lia.
Qed.

Lemma whitespace_nonempty : Forall (fun t => 0 < String.length t) whitespace.
Proof. repeat constructor. Qed.

Lemma lstrip_done (s : string) : leading whitespace (lstrip s) = None.
Proof. apply lstrip_with_done; [apply whitespace_nonempty | done]. Qed.

(** More rounds than needed change nothing. *)
Lemma lstrip_with_stable (toks : list string) (fuel fuel' : nat) (s : string) :
  Forall (fun t => 0 < String.length t) toks ->
  String.length s <= fuel -> fuel <= fuel' ->
  lstrip_with toks fuel' s = lstrip_with toks fuel s.
Proof.
  intros Htoks. revert fuel' s. induction fuel as [|fuel IH]; intros fuel' s Hlen Hle.
  - destruct s; [| simpl in Hlen; lia]. simpl. destruct fuel'; [done |]. simpl.
    destruct (leading toks "") as [t|] eqn:E; [| done].
    pose proof (leading_Some _ _ _ E) as Ht.
    rewrite Forall_forall in Htoks. specialize (Htoks _ Ht).
    unfold leading in E. apply find_some in E as [_ E].
    destruct t; [simpl in Htoks; lia | done].
  - destruct fuel' as [|fuel']; [lia |]. simpl.
    destruct (leading toks s) as [t|] eqn:E; [| done].
    apply IH; [| lia]. rewrite drop_length. apply leading_Some in E.
    rewrite Forall_forall in Htoks. specialize (Htoks _ E). lia.
Qed.

Lemma rev_onto_length (s acc : string) :
  String.length (rev_onto s acc) = String.length s + String.length acc.
Proof.
  revert acc. induction s as [|a s IH]; intros acc; simpl; [done |].
  rewrite IH. simpl. lia.
Qed.

Lemma rev_length (s : string) : String.length (rev s) = String.length s.
Proof. unfold rev. rewrite rev_onto_length. simpl. lia. Qed.

Lemma rev_onto_rev_onto (s acc acc' : string) :
  rev_onto (rev_onto s acc) acc' = rev_onto acc (s +:+ acc').
Proof.
  revert acc acc'. induction s as [|a s IH]; intros acc acc'; simpl; [done |].
  by rewrite IH.
Qed.

Lemma rev_rev (s : string) : rev (rev s) = s.
Proof.
  unfold rev. rewrite rev_onto_rev_onto. simpl.
  induction s as [|a s IH]; simpl; [done | by rewrite IH].
Qed.

Lemma whitespace_rev_nonempty :
  Forall (fun t => 0 < String.length t) (map rev whitespace).
Proof. repeat constructor. Qed.

(** The loop of [rstrip] too has run to its end: read from the back, the
    result starts with no whitespace. *)
Lemma rstrip_done (s : string) : leading (map rev whitespace) (rev (rstrip s)) = None.
Proof.
  unfold rstrip. rewrite rev_rev.
  apply lstrip_with_done; [apply whitespace_rev_nonempty |]. by rewrite rev_length.
Qed.

End TextFacts.

(** ** The registry as a dict *)

Module DictFacts.
Section facts.
Context {V : Type}.
Implicit Types (d : list (string * V)) (k : string) (v : V).

Lemma mem_true k d : Dict.mem k d = true <-> is_Some (Dict.get k d).
Proof. unfold Dict.mem. apply bool_decide_eq_true. Qed.

Lemma mem_false k d : Dict.mem k d = false <-> Dict.get k d = None.
Proof.
  unfold Dict.mem. rewrite bool_decide_eq_false, <- eq_None_not_Some. done.
Qed.

Lemma get_Some_elem k v d : Dict.get k d = Some v -> (k, v) ∈ d.
Proof.
  induction d as [|[k' v'] d IH]; simpl; [done |].
  case_decide; intros Hg; simplify_eq; [left | right; auto].
Qed.

Lemma get_None_keys k d : Dict.get k d = None <-> k ∉ d.*1.
Proof.
  induction d as [|[k' v'] d IH]; simpl.
  - split; [intros _; apply not_elem_of_nil | done].
  - rewrite not_elem_of_cons. case_decide as Hk.
    + subst. split; [done | by intros [? _]].
    + rewrite IH. split; [by split | by intros [_ ?]].
Qed.

Lemma get_elem k v d : NoDup d.*1 -> (k, v) ∈ d -> Dict.get k d = Some v.
Proof.
  induction d as [|[k' v'] d IH]; simpl; intros Hnd Hin.
  - by apply elem_of_nil in Hin.
  - apply NoDup_cons in Hnd as [Hk Hnd]. apply elem_of_cons in Hin as [Hin | Hin].
    + simplify_eq. by rewrite decide_True.
    + rewrite decide_False; [auto |]. intros ->. apply Hk.
      apply list_elem_of_fmap. by exists (k, v).
Qed.

Lemma elem_remove k d (e : string * V) : e ∈ Dict.remove k d <-> e ∈ d /\ e.1 <> k.
Proof.
  unfold Dict.remove. rewrite !list_elem_of_In, filter_In, negb_true_iff,
    bool_decide_eq_false. done.
Qed.

Lemma get_remove k k' d :
  Dict.get k' (Dict.remove k d) = if decide (k' = k) then None else Dict.get k' d.
Proof.
  induction d as [|[k0 v0] d IH]; simpl; [by case_decide |].
  destruct (decide (k0 = k)) as [-> | Hne].
  - rewrite bool_decide_eq_true_2 by done. simpl. rewrite IH.
    repeat case_decide; congruence.
  - rewrite bool_decide_eq_false_2 by done. simpl. rewrite IH.
    repeat case_decide; congruence.
Qed.

Lemma remove_absent k d : Dict.get k d = None -> Dict.remove k d = d.
Proof.
  induction d as [|[k0 v0] d IH]; simpl; [done |].
  case_decide; [done |]. intros Hg. rewrite bool_decide_eq_false_2 by done.
  simpl. by rewrite IH.
Qed.

Lemma keys_remove k d : (Dict.remove k d).*1 = List.filter (fun x => negb (bool_decide (x = k))) d.*1.
Proof.
  unfold Dict.remove. induction d as [|[k0 v0] d IH]; simpl; [done |].
  destruct (bool_decide (k0 = k)); simpl; [| f_equal]; exact IH.
Qed.

Lemma NoDup_filter_bool {A} (f : A -> bool) (l : list A) : NoDup l -> NoDup (List.filter f l).
Proof.
  induction 1 as [|x l Hx Hl IH]; simpl; [constructor |].
  destruct (f x); [| done]. constructor; [| done].
  rewrite list_elem_of_In, filter_In, <- list_elem_of_In. tauto.
Qed.

(** Deleting a key keeps the keys unique. *)
Lemma NoDup_remove k d : NoDup d.*1 -> NoDup (Dict.remove k d).*1.
Proof. intros Hnd. rewrite keys_remove. by apply NoDup_filter_bool. Qed.

Lemma mem_cons k k0 v0 d :
  Dict.mem k ((k0, v0) :: d) = if decide (k0 = k) then true else Dict.mem k d.
Proof.
  unfold Dict.mem. simpl. case_decide; [| done].
  apply bool_decide_eq_true. by eexists.
Qed.

Lemma keys_set k v d :
  (Dict.set k v d).*1 = if Dict.mem k d then d.*1 else d.*1 ++ [k].
Proof.
  induction d as [|[k0 v0] d IH].
  { by rewrite (proj2 (mem_false k [])). }
  rewrite mem_cons. simpl. case_decide; [by subst |].
  csimpl. rewrite IH. by destruct (Dict.mem k d).
Qed.

(** Assigning a key keeps the keys unique. *)
Lemma NoDup_set k v d : NoDup d.*1 -> NoDup (Dict.set k v d).*1.
Proof.
  intros Hnd. rewrite keys_set. destruct (Dict.mem k d) eqn:E; [done |].
  apply mem_false, get_None_keys in E. apply NoDup_app. split_and!; [done | | apply NoDup_singleton].
  intros x Hx Hx'. apply list_elem_of_singleton in Hx'. by subst.
Qed.

Lemma get_set k v d : Dict.get k (Dict.set k v d) = Some v.
Proof.
  induction d as [|[k0 v0] d IH]; simpl; [by rewrite decide_True |].
  destruct (decide (k0 = k)) as [-> | Hne]; simpl; [by rewrite decide_True |].
  by rewrite decide_False.
Qed.


End facts.
End DictFacts.

Example strip_ex : Text.strip ("  send bob hi " +:+ Text.nl) = "send bob hi".
Proof. reflexivity. Qed.
Example split_ex : Text.split " "%char 2 "send bob hi there" = ["send"; "bob"; "hi there"].
Proof. reflexivity. Qed.
Example replace_ex : Text.replace1 "broadcast " "" "broadcast a broadcast b" = "a broadcast b".
Proof. reflexivity. Qed.

(** ** Sockets *)

Section sockets.
Implicit Types (s : sock) (msg : string) (c : conn) (w : state).

Lemma attempt_closed msg s : closed (attempt msg s) = closed s.
Proof. unfold attempt. by destruct (send_outcome s). Qed.

Lemma attempt_link msg s : link (attempt msg s) = link s.
Proof. unfold attempt. by destruct (send_outcome s). Qed.

Lemma attempt_calls msg s : calls (attempt msg s) = calls s ++ [msg].
Proof. unfold attempt. by destruct (send_outcome s). Qed.

Lemma send_outcome_healthy s : healthy s -> send_outcome s = Ok tt.
Proof. intros [Hc Hl]. unfold send_outcome. by rewrite Hc, Hl. Qed.

Lemma send_outcome_open s :
  closed s = false ->
  send_outcome s = Ok tt /\ link s = LinkUp \/
  exists e, send_outcome s = Raise e /\ is_conn_error e = true /\ link s <> LinkUp.
Proof.
  intros Hc. unfold send_outcome. rewrite Hc.
  destruct (link s); [left | right; eexists | right; eexists]; done.
Qed.

Lemma send_outcome_failing s :
  failing s -> exists e, send_outcome s = Raise e /\ is_conn_error e = true.
Proof.
  intros [Hc Hl]. destruct (send_outcome_open s Hc) as [[_ ?] | (e & ? & ? & _)]; [done |].
  by exists e.
Qed.

Lemma attempt_outbox_up msg s :
  healthy s -> outbox (attempt msg s) = outbox s ++ [msg].
Proof. intros H. unfold attempt. by rewrite send_outcome_healthy. Qed.

Lemma attempt_outbox_down msg s :
  link s <> LinkUp -> outbox (attempt msg s) = outbox s.
Proof.
  intros H. unfold attempt, send_outcome.
  destruct (closed s); [done |]. by destruct (link s).
Qed.

Lemma attempt_outbox_closed msg s :
  closed s = true -> outbox (attempt msg s) = outbox s.
Proof. intros H. unfold attempt, send_outcome. by rewrite H. Qed.

Lemma shut_shut s : shut (shut s) = shut s.
Proof. done. Qed.

(** [sendall] touches one socket and nothing else of the state. *)
Lemma sendall_run c msg w :
  sendall c msg w = (set_net (alter (attempt msg) c (net w)) w, send_outcome (net w c)).
Proof. done. Qed.

Lemma net_alter_eq (f : sock -> sock) c (n : conn -> sock) : alter f c n c = f (n c).
Proof. apply fn_lookup_alter. Qed.

Lemma net_alter_ne (f : sock -> sock) c c' (n : conn -> sock) :
  c <> c' -> alter f c n c' = n c'.
Proof. apply fn_lookup_alter_ne. Qed.

Lemma net_alter (f : sock -> sock) c c' (n : conn -> sock) :
  alter f c n c' = if decide (c = c') then f (n c') else n c'.
Proof.
  case_decide as E; [subst; apply net_alter_eq | by apply net_alter_ne].
Qed.

End sockets.

(** ** The broadcast pass *)

Section broadcast.
Implicit Types (msg : string) (ex : option string) (c : conn) (w : state)
  (items r : registry) (disc : list string).

Lemma failed_users_ext ex (n n' : conn -> sock) items :
  (forall c, link (n' c) = link (n c)) ->
  failed_users ex n' items = failed_users ex n items.
Proof.
  intros H. unfold failed_users, link_up. f_equal.
  apply filter_ext. intros e. by rewrite H.
Qed.


Lemma iter_attempt_link msg k s : link (Nat.iter k (attempt msg) s) = link s.
Proof. induction k as [|k IH]; simpl; [done |]. by rewrite attempt_link. Qed.

Lemma hits_cons ex c u ip c0 items :
  hits ex c ((u, (ip, c0)) :: items) =
  (if decide (Some u = ex) then 0 else if decide (c0 = c) then 1 else 0)
  + hits ex c items.
Proof.
  unfold hits, targeted. simpl.
  destruct (decide (Some u = ex)) as [E | E].
  - by rewrite (bool_decide_eq_true_2 _ E).
  - rewrite (bool_decide_eq_false_2 _ E). simpl.
    destruct (decide (c0 = c)) as [E' | E'].
    + by rewrite (bool_decide_eq_true_2 _ E').
    + by rewrite (bool_decide_eq_false_2 _ E').
Qed.

Lemma failed_users_cons ex (n : conn -> sock) u ip c0 items :
  failed_users ex n ((u, (ip, c0)) :: items) =
  (if decide (Some u = ex) then []
   else if decide (link (n c0) = LinkUp) then [] else [u])
  ++ failed_users ex n items.
Proof.
  unfold failed_users, targeted, link_up. simpl.
  destruct (decide (Some u = ex)) as [E | E].
  - by rewrite (bool_decide_eq_true_2 _ E).
  - rewrite (bool_decide_eq_false_2 _ E). simpl.
    destruct (decide (link (n c0) = LinkUp)) as [E' | E'].
    + by rewrite (bool_decide_eq_true_2 _ E').
    + by rewrite (bool_decide_eq_false_2 _ E').
Qed.

(** The first loop on a registry none of whose targeted sockets is closed:
    it does not raise, every targeted socket is tried once per entry that
    holds it, the registry is not touched, and the users whose connection
    is down are returned, in registry order. *)
Lemma send_pass_spec msg ex items : forall disc w,
  (forall e, e ∈ items -> targeted ex e = true -> closed (net w e.2.2) = false) ->
  exists w',
    send_pass msg ex items disc w = (w', Ok (disc ++ failed_users ex (net w) items)) /\
    same_server w w' /\
    forall c, net w' c = Nat.iter (hits ex c items) (attempt msg) (net w c).
Proof.
  induction items as [|[u [ip c0]] items IH]; intros disc w Hopen.
  - exists w. unfold failed_users. simpl. rewrite app_nil_r. done.
  - assert (Hrest : forall w1, (forall c, closed (net w1 c) = closed (net w c)) ->
        forall e, e ∈ items -> targeted ex e = true -> closed (net w1 e.2.2) = false).
    { intros w1 Hw1 e He Ht. rewrite Hw1. apply Hopen; [by right | done]. }
    simpl. rewrite failed_users_cons.
    destruct (decide (Some u = ex)) as [Hex | Hex].
    + destruct (IH disc w) as (w' & Hrun & Hsame & Hnet); [by apply Hrest |].
      exists w'. split_and!; [done | done |].
      intros c. rewrite hits_cons, decide_True by done. apply Hnet.
    + set (w1 := set_net (alter (attempt msg) c0 (net w)) w).
      assert (Hcl : forall c, closed (net w1 c) = closed (net w c)).
      { intros c. unfold w1. simpl. rewrite net_alter. case_decide; [| done].
        apply attempt_closed. }
      assert (Hlk : forall c, link (net w1 c) = link (net w c)).
      { intros c. unfold w1. simpl. rewrite net_alter. case_decide; [| done].
        apply attempt_link. }
      assert (Hc0 : closed (net w c0) = false).
      { apply (Hopen (u, (ip, c0))); [left |]. unfold targeted. simpl.
        by rewrite (bool_decide_eq_false_2 _ Hex). }
      assert (Hstep : forall c, Nat.iter (hits ex c items) (attempt msg) (net w1 c) =
          Nat.iter (hits ex c ((u, (ip, c0)) :: items)) (attempt msg) (net w c)).
      { intros c. rewrite hits_cons, decide_False by done.
        unfold w1. simpl. rewrite net_alter.
        destruct (decide (c0 = c)) as [-> | Hne]; [| done].
        symmetry. apply (Nat.iter_succ_r (hits ex c items) (attempt msg)). }
      unfold bind, try_except. rewrite sendall_run. fold w1.
      destruct (send_outcome_open _ Hc0) as [[Hout Hup] | (e & Hout & He & Hdown)];
        rewrite Hout; simpl.
      * destruct (IH disc w1) as (w' & Hrun & Hsame & Hnet); [by apply Hrest |].
        exists w'. split_and!; [| done | by intros c; rewrite Hnet, Hstep].
        rewrite Hrun, (failed_users_ext _ _ _ _ Hlk), decide_True by done. done.
      * rewrite He. simpl.
        destruct (IH (disc ++ [u]) w1) as (w' & Hrun & Hsame & Hnet); [by apply Hrest |].
        exists w'. split_and!; [| done | by intros c; rewrite Hnet, Hstep].
        rewrite Hrun, (failed_users_ext _ _ _ _ Hlk), decide_False by done.
        by rewrite <- app_assoc.
Qed.

End broadcast.

Section evict.
Implicit Types (msg : string) (ex : option string) (c : conn) (w : state)
  (items r : registry) (disc : list string).

Lemma elem_of_evicted c disc r :
  c ∈ evicted disc r <-> exists u ip, u ∈ disc /\ Dict.get u r = Some (ip, c).
Proof.
  unfold evicted. rewrite list_elem_of_omap. split.
  - intros (u & Hu & Hg). destruct (Dict.get u r) as [[ip c']|] eqn:E; [| done].
    simpl in Hg. simplify_eq. by exists u, ip.
  - intros (u & ip & Hu & Hg). exists u. by rewrite Hg.
Qed.

Lemma kept_remove u rest r :
  List.filter (kept rest) (Dict.remove u r) = List.filter (kept (u :: rest)) r.
Proof.
  unfold Dict.remove, kept. induction r as [|[k v] r IH]; simpl; [done |].
  destruct (decide (k = u)) as [-> | Hne].
  - rewrite bool_decide_eq_true_2 by done. simpl.
    rewrite (bool_decide_eq_true_2 (u ∈ u :: rest)) by left. simpl. exact IH.
  - rewrite bool_decide_eq_false_2 by done. simpl.
    destruct (decide (k ∈ rest)) as [Hin | Hin].
    + rewrite (bool_decide_eq_true_2 _ Hin).
      rewrite (bool_decide_eq_true_2 (k ∈ u :: rest)) by (by right). simpl. exact IH.
    + rewrite (bool_decide_eq_false_2 _ Hin).
      rewrite (bool_decide_eq_false_2 (k ∈ u :: rest)).
      * simpl. f_equal. exact IH.
      * rewrite elem_of_cons. by intros [? | ?].
Qed.

Lemma kept_nil r : List.filter (kept []) r = r.
Proof.
  induction r as [|e r IH]; [done |]. cbn [List.filter].
  assert (kept [] e = true) as ->; [| by f_equal].
  unfold kept. by rewrite bool_decide_eq_false_2 by apply not_elem_of_nil.
Qed.

Lemma kept_absent u rest r :
  Dict.get u r = None -> List.filter (kept (u :: rest)) r = List.filter (kept rest) r.
Proof.
  intros H. rewrite <- kept_remove. by rewrite DictFacts.remove_absent.
Qed.

Lemma evict_spec disc : forall w,
  exists w',
    evict disc w = (w', Ok tt) /\
    clients w' = List.filter (kept disc) (clients w) /\
    chat_history w' = chat_history w /\ running w' = running w /\
    forall c, net w' c =
      if decide (c ∈ evicted disc (clients w)) then shut (net w c) else net w c.
Proof.
  induction disc as [|u rest IH]; intros w.
  - exists w. split_and!; try done. by rewrite kept_nil.
  - simpl. unfold bind, get_state. simpl.
    destruct (Dict.get u (clients w)) as [[ip c0]|] eqn:Hg.
    + set (w1 := set_clients (Dict.remove u (clients w)) (set_net (alter shut c0 (net w)) w)).
      destruct (IH w1) as (w' & Hrun & Hcl & Hh & Hr & Hnet).
      exists w'. unfold close, modify. simpl. fold w1. split_and!; try done.
      * rewrite Hcl. unfold w1. simpl. apply kept_remove.
      * intros c. rewrite Hnet. unfold w1 at 2 3. simpl. rewrite net_alter.
        destruct (decide (c0 = c)) as [-> | Hne].
        -- rewrite (decide_True (P := c ∈ c :: evicted rest (clients w))) by left.
           by case_decide.
        -- assert (Hiff : c ∈ evicted rest (clients w1) <->
                          c ∈ c0 :: evicted rest (clients w)).
           { rewrite elem_of_cons, !elem_of_evicted. unfold w1. simpl. split.
             - intros (u' & ip' & Hu' & Hg'). rewrite DictFacts.get_remove in Hg'.
               case_decide; [done |]. right. by exists u', ip'.
             - intros [-> | (u' & ip' & Hu' & Hg')]; [done |]. exists u', ip'.
               rewrite DictFacts.get_remove.
               destruct (decide (u' = u)) as [-> | Hne']; [congruence | done]. }
           unfold w1 in Hiff. simpl in Hiff.
           destruct (decide (c ∈ evicted rest (Dict.remove u (clients w)))) as [Hin | Hin].
           ++ by rewrite decide_True by by apply Hiff.
           ++ rewrite decide_False; [done |]. by rewrite <- Hiff.
    + destruct (IH w) as (w' & Hrun & Hcl & Hh & Hr & Hnet).
      exists w'. split_and!; try done.
      rewrite Hcl. by rewrite kept_absent.
Qed.

(** [broadcast_message] on a registry none of whose targeted sockets is
    closed. *)
Lemma broadcast_message_spec msg ex w :
  (forall e, e ∈ clients w -> targeted ex e = true -> closed (net w e.2.2) = false) ->
  let failed := failed_users ex (net w) (clients w) in
  exists w',
    broadcast_message msg ex w = (w', Ok tt) /\
    clients w' = List.filter (kept failed) (clients w) /\
    chat_history w' = chat_history w /\ running w' = running w /\
    forall c, net w' c =
      let s := Nat.iter (hits ex c (clients w)) (attempt msg) (net w c) in
      if decide (c ∈ evicted failed (clients w)) then shut s else s.
Proof.
  intros Hopen failed. unfold broadcast_message, bind, get_state. simpl.
  destruct (send_pass_spec msg ex (clients w) [] w Hopen) as (w1 & Hrun & (Hc & Hh & Hr) & Hnet).
  rewrite Hrun. simpl. fold failed.
  destruct (evict_spec failed w1) as (w' & Hrun' & Hc' & Hh' & Hr' & Hnet').
  exists w'. split_and!; try congruence.
  intros c. rewrite Hnet', Hc, Hnet. done.
Qed.

End evict.

(** ** Well-formed registries *)

Section wf.
Implicit Types (msg : string) (ex : option string) (c : conn) (w : state)
  (r : registry) (u ip : string).

Lemma elem_handles u ip c r : (u, (ip, c)) ∈ r -> c ∈ handles r.
Proof.
  intros H. unfold handles. apply list_elem_of_In, in_map_iff.
  exists (u, (ip, c)). split; [done | by apply list_elem_of_In].
Qed.

Lemma hits_absent ex c r : c ∉ handles r -> hits ex c r = 0.
Proof.
  induction r as [|[u [ip c0]] r IH]; [done |]. intros Hc.
  unfold handles in Hc. simpl in Hc. apply not_elem_of_cons in Hc as [Hne Hc].
  rewrite hits_cons, IH by done. case_decide; [done |]. by rewrite decide_False.
Qed.

Lemma hits_entry ex u ip c r :
  NoDup (handles r) -> (u, (ip, c)) ∈ r ->
  hits ex c r = if decide (Some u = ex) then 0 else 1.
Proof.
  induction r as [|[u0 [ip0 c0]] r IH]; intros Hnd Hin.
  - by apply elem_of_nil in Hin.
  - unfold handles in Hnd. simpl in Hnd. apply NoDup_cons in Hnd as [Hc0 Hnd].
    rewrite hits_cons. apply elem_of_cons in Hin as [Heq | Hin].
    + simplify_eq. rewrite hits_absent by done. case_decide; [done |].
      by rewrite decide_True.
    + rewrite IH by done.
      assert (c0 <> c) by (intros ->; apply Hc0; by eapply elem_handles).
      rewrite (decide_False (P := c0 = c)) by done. by repeat case_decide.
Qed.

Lemma elem_failed_users ex (n : conn -> sock) u r :
  u ∈ failed_users ex n r <->
  exists ip c, (u, (ip, c)) ∈ r /\ Some u <> ex /\ link (n c) <> LinkUp.
Proof.
  unfold failed_users. rewrite list_elem_of_fmap. split.
  - intros ([u' [ip c]] & -> & Hin). apply list_elem_of_In, filter_In in Hin as [Hin Hf].
    apply andb_true_iff in Hf as [Ht Hl]. unfold targeted, link_up in *. simpl in *.
    apply negb_true_iff, bool_decide_eq_false in Ht, Hl.
    exists ip, c. by rewrite list_elem_of_In.
  - intros (ip & c & Hin & Hex & Hl). exists (u, (ip, c)). split; [done |].
    apply list_elem_of_In, filter_In. split; [by apply list_elem_of_In |].
    unfold targeted, link_up. simpl.
    by rewrite !bool_decide_eq_false_2 by done.
Qed.

Lemma elem_kept disc r (e : string * (string * conn)) :
  e ∈ List.filter (kept disc) r <-> e ∈ r /\ e.1 ∉ disc.
Proof.
  rewrite (list_elem_of_In _ e), filter_In, <- (list_elem_of_In _ e). unfold kept.
  by rewrite negb_true_iff, bool_decide_eq_false.
Qed.

Lemma handle_unique u ip c u' ip' r :
  NoDup (handles r) -> (u, (ip, c)) ∈ r -> (u', (ip', c)) ∈ r -> u' = u /\ ip' = ip.
Proof.
  induction r as [|[u0 [ip0 c0]] r IH]; intros Hnd H1 H2.
  - by apply elem_of_nil in H1.
  - unfold handles in Hnd. simpl in Hnd. apply NoDup_cons in Hnd as [Hc0 Hnd].
    apply elem_of_cons in H1 as [E1 | H1]; apply elem_of_cons in H2 as [E2 | H2].
    + by simplify_eq.
    + simplify_eq. exfalso. apply Hc0. by eapply elem_handles.
    + simplify_eq. exfalso. apply Hc0. by eapply elem_handles.
    + by apply IH.
Qed.

(** The handle of an entry is closed by the second loop exactly when the
    entry was targeted and its connection is down. *)
Lemma evicted_entry ex (n : conn -> sock) u ip c r :
  wf_registry r -> (u, (ip, c)) ∈ r ->
  c ∈ evicted (failed_users ex n r) r <-> Some u <> ex /\ link (n c) <> LinkUp.
Proof.
  intros [Hk Hh] Hin. rewrite elem_of_evicted. split.
  - intros (u' & ip' & Hf & Hg). apply DictFacts.get_Some_elem in Hg.
    destruct (handle_unique _ _ _ _ _ _ Hh Hin Hg) as [-> ->].
    apply elem_failed_users in Hf as (ip2 & c2 & Hin2 & Hex & Hl).
    assert (Some (ip2, c2) = Some (ip, c)) as [= -> ->]; [| done].
    by rewrite <- (DictFacts.get_elem u _ r Hk Hin2), <- (DictFacts.get_elem u _ r Hk Hin).
  - intros [Hex Hl]. exists u, ip. split.
    + apply elem_failed_users. by exists ip, c.
    + by apply DictFacts.get_elem.
Qed.

Lemma evicted_absent disc c r : c ∉ handles r -> c ∉ evicted disc r.
Proof.
  intros Hc Hin. apply elem_of_evicted in Hin as (u & ip & _ & Hg).
  apply DictFacts.get_Some_elem in Hg. apply Hc. by eapply elem_handles.
Qed.

(** What one broadcast does to each entry of a well-formed registry with no
    closed targeted socket: the excluded entry is not touched; a targeted
    entry gets one [sendall]; it is evicted, and its socket closed, exactly
    when its connection is down. *)
Lemma broadcast_message_wf msg ex w :
  wf_registry (clients w) ->
  (forall e, e ∈ clients w -> targeted ex e = true -> closed (net w e.2.2) = false) ->
  exists w',
    broadcast_message msg ex w = (w', Ok tt) /\
    chat_history w' = chat_history w /\ running w' = running w /\
    clients w' = List.filter (kept (failed_users ex (net w) (clients w))) (clients w) /\
    (forall c, c ∉ handles (clients w) -> net w' c = net w c) /\
    (forall u ip c, (u, (ip, c)) ∈ clients w ->
       if decide (Some u = ex) then net w' c = net w c /\ (u, (ip, c)) ∈ clients w'
       else if decide (link (net w c) = LinkUp)
            then net w' c = attempt msg (net w c) /\ (u, (ip, c)) ∈ clients w'
            else net w' c = shut (attempt msg (net w c)) /\ u ∉ (clients w').*1).
Proof.
  intros Hwf Hopen.
  destruct (broadcast_message_spec msg ex w Hopen) as (w' & Hrun & Hcl & Hh & Hr & Hnet).
  exists w'. split_and!; try done.
  - intros c Hc. rewrite Hnet. simpl. rewrite hits_absent by done.
    rewrite decide_False; [done |]. by apply evicted_absent.
  - intros u ip c Hin. rewrite Hnet. simpl.
    rewrite (hits_entry ex u ip c) by (done || apply Hwf).
    pose proof (evicted_entry ex (net w) u ip c _ Hwf Hin) as Hev.
    assert (Hfail : u ∈ failed_users ex (net w) (clients w) <->
                    Some u <> ex /\ link (net w c) <> LinkUp).
    { rewrite elem_failed_users. split; [| intros [? ?]; by exists ip, c].
      intros (ip2 & c2 & Hin2 & Hex & Hl).
      assert (Some (ip2, c2) = Some (ip, c)) as [= -> ->]; [| done].
      destruct Hwf as [Hk _].
      by rewrite <- (DictFacts.get_elem u _ _ Hk Hin2), <- (DictFacts.get_elem u _ _ Hk Hin). }
    destruct (decide (Some u = ex)) as [Hex | Hex].
    + rewrite decide_False by (rewrite Hev; tauto). split; [done |].
      rewrite Hcl. apply elem_kept. split; [done |]. simpl. rewrite Hfail. tauto.
    + destruct (decide (link (net w c) = LinkUp)) as [Hl | Hl].
      * rewrite decide_False by (rewrite Hev; tauto). split; [done |].
        rewrite Hcl. apply elem_kept. split; [done |]. simpl. rewrite Hfail. tauto.
      * rewrite decide_True by (rewrite Hev; tauto). split; [done |].
        rewrite Hcl. intros Hu. apply list_elem_of_fmap in Hu as ([u' v'] & -> & Hu).
        apply elem_kept in Hu as [Hu1 Hu2]. simpl in Hu2.
        apply Hu2. apply elem_failed_users.
        destruct Hwf as [Hk _].
        assert (v' = (ip, c)) as ->.
        { assert (Some v' = Some (ip, c)) as [= ->]; [| done].
          by rewrite <- (DictFacts.get_elem u' _ _ Hk Hu1), <- (DictFacts.get_elem u' _ _ Hk Hin). }
        by exists ip, c.
Qed.

End wf.

(** ** What a broadcast can never do *)

Section frames.
Implicit Types (msg : string) (ex : option string) (c : conn) (w : state)
  (items r : registry) (disc : list string).

(** Whatever happens in the first loop, also when it is cut short by an
    exception, it leaves registry, history and flag alone, closes no socket,
    and touches only sockets of the registry that it does not exclude. *)
Lemma send_pass_frame msg ex items : forall disc w w' res,
  send_pass msg ex items disc w = (w', res) ->
  same_server w w' /\
  (forall c, closed (net w' c) = closed (net w c) /\ link (net w' c) = link (net w c)) /\
  (forall c, hits ex c items = 0 -> net w' c = net w c).
Proof.
  induction items as [|[u [ip c0]] items IH]; intros disc w w' res Hrun.
  - simpl in Hrun. unfold ret in Hrun. by simplify_eq.
  - simpl in Hrun. destruct (decide (Some u = ex)) as [Hex | Hex].
    + destruct (IH _ _ _ _ Hrun) as (Hs & Hcl & Hn). split_and!; [done | done |].
      intros c Hc. rewrite hits_cons, decide_True in Hc by done. by apply Hn.
    + set (w1 := set_net (alter (attempt msg) c0 (net w)) w) in *.
      assert (H1 : forall c, closed (net w1 c) = closed (net w c) /\
                             link (net w1 c) = link (net w c)).
      { intros c. unfold w1. simpl. rewrite net_alter. case_decide; [| done].
        by rewrite attempt_closed, attempt_link. }
      assert (H2 : forall c, hits ex c ((u, (ip, c0)) :: items) = 0 ->
                             net w1 c = net w c /\ hits ex c items = 0).
      { intros c. rewrite hits_cons, decide_False by done.
        destruct (decide (c0 = c)) as [-> | Hne]; [done |].
        intros Hc. split; [| done]. unfold w1. simpl. by rewrite net_alter_ne. }
      assert (Hgo : forall d, send_pass msg ex items d w1 = (w', res) ->
          same_server w w' /\
          (forall c, closed (net w' c) = closed (net w c) /\ link (net w' c) = link (net w c)) /\
          (forall c, hits ex c ((u, (ip, c0)) :: items) = 0 -> net w' c = net w c)).
      { intros d Hd. destruct (IH _ _ _ _ Hd) as (Hs & Hcl & Hn). split_and!.
        - done.
        - intros c. destruct (Hcl c) as [-> ->]. apply H1.
        - intros c Hc. destruct (H2 c Hc) as [<- Hc']. by apply Hn. }
      unfold bind, try_except in Hrun. rewrite sendall_run in Hrun. fold w1 in Hrun.
      destruct (send_outcome (net w c0)) as [[]|e]; simpl in Hrun.
      * by eapply Hgo.
      * destruct (is_conn_error e); simpl in Hrun; [by eapply Hgo |].
        simplify_eq. split_and!; [done | done |]. intros c Hc. by apply H2.
Qed.

(** A broadcast never adds an entry to the registry, never writes the
    history or the flag, never reopens a socket, and never touches a socket
    that is not in the registry. *)
Lemma broadcast_message_frame msg ex w w' res :
  broadcast_message msg ex w = (w', res) ->
  chat_history w' = chat_history w /\
  running w' = running w /\
  (forall e, e ∈ clients w' -> e ∈ clients w) /\
  (forall c, closed (net w c) = true -> closed (net w' c) = true) /\
  (forall c, c ∉ handles (clients w) -> net w' c = net w c).
Proof.
  unfold broadcast_message, bind, get_state. simpl.
  destruct (send_pass msg ex (clients w) [] w) as [w1 [d|e]] eqn:Hpass; intros Hrun.
  - destruct (send_pass_frame _ _ _ _ _ _ _ Hpass) as ((Hc & Hh & Hr) & Hcl & Hn).
    destruct (evict_spec d w1) as (w2 & Hev & Hc2 & Hh2 & Hr2 & Hn2).
    rewrite Hev in Hrun. simplify_eq. split_and!; try congruence.
    + intros e He. rewrite Hc2, Hc in He. by apply elem_kept in He as [? _].
    + intros c Hc0. rewrite Hn2. case_decide; [done |].
      destruct (Hcl c) as [-> _]. done.
    + intros c Hc0. rewrite Hn2, Hc, decide_False by by apply evicted_absent.
      apply Hn. by apply hits_absent.
  - simplify_eq.
    destruct (send_pass_frame _ _ _ _ _ _ _ Hpass) as ((Hc & Hh & Hr) & Hcl & Hn).
    split_and!; try done.
    + intros e0. by rewrite Hc.
    + intros c Hc0. destruct (Hcl c) as [-> _]. done.
    + intros c Hc0. apply Hn. by apply hits_absent.
Qed.

End frames.

(** ** One line through the handler *)

Section handler.
Implicit Types (msg data raw now : string) (c : conn) (w : state).

Lemma truthy_ne data : Text.truthy data = true <-> data <> "".
Proof. by destruct data. Qed.

(** The iteration that reads a non-empty line logs it and dispatches it;
    a time-out raised by the dispatch keeps the handler in the loop, any
    other exception and [exit] end the loop. *)
Lemma iterate_line c ip username raw data now w :
  running w = true ->
  closed (net w c) = false ->
  Text.strip raw = data ->
  data <> "" ->
  iterate c ip username (Ready (RecvData raw)) now w =
  match dispatch c username data (logged now (at_ip username ip) data w) with
  | (w1, Ok Next) => (w1, Active username)
  | (w1, Ok Leave) => (w1, Closing (Some username))
  | (w1, Raise e) =>
      (w1, if decide (e = socket_timeout) then Active username
           else Closing (Some username))
  end.
Proof.
  intros Hrun Hopen Hstrip Hne. apply truthy_ne in Hne.
  unfold iterate, loop_step, bind, get_state. rewrite Hrun.
  unfold iteration, try_except, bind, select, recv, get_state, bind, ret.
  rewrite Hopen. cbn [fst snd]. rewrite Hopen, Hstrip, Hne. cbn [negb].
  unfold store_message, bind, modify, ret. fold (logged now (at_ip username ip) data w).
  destruct (dispatch c username data _) as [w1 [[|]|e]]; try done.
  destruct e; done.
Qed.

Lemma dispatch_send c username rest w :
  dispatch c username ("send " +:+ rest) w =
  match send_command c username ("send " +:+ rest) w with
  | (w1, Ok _) => (w1, Ok Next)
  | (w1, Raise e) => (w1, Raise e)
  end.
Proof.
  unfold dispatch. rewrite decide_False by done. simpl.
  assert (Text.startswith "" rest = true) as -> by by destruct rest.
  unfold bind, ret. by destruct (send_command _ _ _ w) as [w1 [|]].
Qed.

Lemma send_command_parts c username target msg w :
  Text.contains " " target = false ->
  send_command c username ("send " +:+ target +:+ " " +:+ msg) w =
  match Dict.get target (clients w) with
  | Some (_, t_conn) =>
      try_except (sendall t_conn (private_msg username msg)) is_conn_error
        (fun _ => sendall c (not_connected_msg target)) w
  | None => sendall c (not_found_msg target) w
  end.
Proof.
  intros H. unfold send_command. rewrite TextFacts.split_send by done.
  cbn [length Nat.eqb nth]. unfold bind, get_state.
  by destruct (Dict.get target (clients w)) as [[? ?]|].
Qed.

Lemma startswith_inv (p s : string) :
  Text.startswith p s = true -> s = p +:+ Text.drop (String.length p) s.
Proof.
  unfold Text.startswith. revert s. induction p as [|a p IH]; intros s H.
  - by destruct s.
  - destruct s as [|b s]; [done |]. simpl in H.
    destruct (ascii_dec a b) as [-> |]; [| done]. simpl. f_equal. by apply IH.
Qed.

(** A line that is no command is answered with the help text. *)
Lemma dispatch_other c username data w :
  data <> "list" ->
  Text.startswith "broadcast " data = false ->
  Text.startswith "send " data = false ->
  data <> "exit" ->
  dispatch c username data w =
  match sendall c get_help w with
  | (w1, Ok _) => (w1, Ok Next)
  | (w1, Raise e) => (w1, Raise e)
  end.
Proof.
  intros H1 H2 H3 H4. unfold dispatch.
  rewrite decide_False, H2, H3, decide_False by done.
  unfold bind, ret. by destruct (sendall c get_help w) as [w1 [|]].
Qed.


Lemma dispatch_list c username w :
  dispatch c username "list" w =
  match sendall c (list_response (clients w)) w with
  | (w1, Ok _) => (w1, Ok Next)
  | (w1, Raise e) => (w1, Raise e)
  end.
Proof.
  unfold dispatch. rewrite decide_True by done. unfold bind, get_state, ret.
  by destruct (sendall c _ w) as [w1 [|]].
Qed.


(** The pieces of a line that starts with [send ]: the verb, then either the
    rest of the line, or the target and the rest of the line. *)
Lemma split_send_line (rest : string) :
  Text.split " " 2 ("send " +:+ rest) =
  match Text.cut " " rest with
  | Some (target, msg) => ["send"; target; msg]
  | None => ["send"; rest]
  end.
Proof.
  change ("send " +:+ rest) with ("send" +:+ String " " rest).
  cbn [Text.split]. rewrite TextFacts.cut_app by done.
  by destruct (Text.cut " " rest) as [[? ?]|].
Qed.

End handler.

(** ** Leaving: the [finally] block *)

Section leaving.
Implicit Types (msg data raw now : string) (c : conn) (w : state).

(** A line that is empty after trimming, like an empty read, ends the loop. *)
Lemma empty_line_leaves_loop c ip username raw now w :
  running w = true -> closed (net w c) = false -> Text.strip raw = "" ->
  iterate c ip username (Ready (RecvData raw)) now w = (w, Closing (Some username)).
Proof.
  intros Hrun Hopen Hstrip.
  unfold iterate, loop_step, bind, get_state. rewrite Hrun.
  unfold iteration, try_except, bind, select, recv, get_state, bind, ret.
  rewrite Hopen. cbn [fst snd]. by rewrite Hopen, Hstrip.
Qed.

(** Without a name, or with a name that is not registered, the [finally]
    block only closes the connection. *)
Lemma finish_unregistered c ip username now w :
  match username with
  | Some u => Text.truthy u && Dict.mem u (clients w) = false
  | None => True
  end ->
  finish c ip username now w = (set_net (alter shut c (net w)) w, Closed).
Proof.
  intros H. unfold finish, finally_block, bind, get_state.
  destruct username as [u|]; [rewrite H |]; done.
Qed.

(** With a registered name the [finally] block logs the leave, broadcasts
    it to the others, deletes the name and closes the connection; it stops
    short of the last two steps when the broadcast raises. *)
Lemma finish_registered c ip u now w :
  u <> "" -> Dict.mem u (clients w) = true ->
  finish c ip (Some u) now w =
  match broadcast_message (left_msg u) (Some u)
          (logged now "Server" (at_ip u ip +:+ " left the chat") w) with
  | (w1, Ok _) =>
      if Dict.mem u (clients w1)
      then (set_net (alter shut c (net w1)) (set_clients (Dict.remove u (clients w1)) w1),
            Closed)
      else (w1, Died KeyError)
  | (w1, Raise e) => (w1, Died e)
  end.
Proof.
  intros Hu Hmem. apply truthy_ne in Hu.
  unfold finish, finally_block, bind, get_state. rewrite Hu, Hmem. cbn [andb].
  unfold store_message, bind, modify, ret. cbn [fst snd].
  fold (logged now "Server" (at_ip u ip +:+ " left the chat") w).
  destruct (broadcast_message _ _ _) as [w1 [[]|e]]; [| done].
  unfold del_client, bind, get_state, close, modify, raise.
  by destruct (Dict.mem u (clients w1)).
Qed.

(** A handler that does not get into its loop. *)
Lemma handle_client_nil c ip rr now now' w :
  handle_client c ip rr now [] now' w = handshake c ip rr now now' w.
Proof.
  unfold handle_client, handshake.
  by destruct (negotiate c ip rr now w) as [w1 [| u | uo | | e]].
Qed.

End leaving.

(** ** Threads: a stretch run without interruption *)

Section collapse.
Implicit Types (w : state) (ep : nat) (c : conn).

Lemma bump_same ep w w' : clients w' = clients w -> bump ep w w' = ep.
Proof. intros H. unfold bump. by rewrite decide_True. Qed.

Lemma collapse_bind {A B} (p : proc A) (k : A -> proc B) ep w :
  collapse (pbind p k) ep w =
  match collapse p ep w with
  | (w', ep', Ok a) => collapse (k a) ep' w'
  | (w', ep', Raise e) => (w', ep', Raise e)
  end.
Proof.
  revert ep w. induction p as [[a|e] | X o k' IH]; intros ep w; cbn; [done | done |].
  destruct (exec o None ep w) as [w' r]. apply IH.
Qed.

Lemma collapse_try {A} (p : proc A) (handles : exn -> bool) (h : exn -> proc A) ep w :
  collapse (ptry p handles h) ep w =
  match collapse p ep w with
  | (w', ep', Raise e) => if handles e then collapse (h e) ep' w' else (w', ep', Raise e)
  | r => r
  end.
Proof.
  revert ep w. induction p as [[a|e] | X o k' IH]; intros ep w; cbn; [done | |].
  - by destruct (handles e).
  - destruct (exec o None ep w) as [w' r]. apply IH.
Qed.

Lemma collapse_settle {A B} (p : proc A) (f : result A -> B) ep w :
  collapse (settle p f) ep w =
  let '(w', ep', r) := collapse p ep w in (w', ep', Ok (f r)).
Proof.
  revert ep w. induction p as [r | X o k' IH]; intros ep w; cbn; [done |].
  destruct (exec o None ep w) as [w' r]. apply IH.
Qed.


Lemma agrees_at_ext {A} w (p : proc A) (m m' : M A) :
  m w = m' w -> agrees_at w p m -> agrees_at w p m'.
Proof. intros E H ep. rewrite <- E. apply H. Qed.

Lemma agrees_at_fin {A} w (r : result A) : agrees_at w (Fin r) (fun w => (w, r)).
Proof. intros ep. by exists ep. Qed.

Lemma agrees_at_bind {A B} w (p : proc A) (m : M A) (k : A -> proc B) (f : A -> M B) :
  agrees_at w p m ->
  (forall a, (m w).2 = Ok a -> agrees_at (m w).1 (k a) (f a)) ->
  agrees_at w (pbind p k) (bind m f).
Proof.
  intros Hp Hk ep. rewrite collapse_bind. destruct (Hp ep) as [ep1 ->].
  unfold bind. destruct (m w) as [w1 [a|e]]; cbn [fst snd] in *.
  - destruct (Hk a eq_refl ep1) as [ep2 ->]. exists ep2. by destruct (f a w1).
  - by exists ep1.
Qed.

Lemma agrees_at_try {A} w (p : proc A) (m : M A) handles (h : exn -> proc A)
    (f : exn -> M A) :
  agrees_at w p m ->
  (forall e, (m w).2 = Raise e -> agrees_at (m w).1 (h e) (f e)) ->
  agrees_at w (ptry p handles h) (try_except m handles f).
Proof.
  intros Hp Hh ep. rewrite collapse_try. destruct (Hp ep) as [ep1 ->].
  unfold try_except. destruct (m w) as [w1 [a|e]]; cbn [fst snd] in *.
  - by exists ep1.
  - destruct (handles e); [| by exists ep1].
    destruct (Hh e eq_refl ep1) as [ep2 ->]. exists ep2. by destruct (f e w1).
Qed.

Lemma agrees_at_call {X} w (o : prim X) (m : M X) :
  (forall ep, exec o None ep w = m w) -> agrees_at w (call o) m.
Proof.
  intros E ep. cbn. rewrite E. destruct (m w) as [w' r]. by eexists.
Qed.

(** A look at the registry, and what follows it at the same state. *)
Lemma agrees_at_clients {B} w (k : registry -> proc B) (f : M B) :
  agrees_at w (k (clients w)) f ->
  agrees_at w (do* r := call PClients in k r) f.
Proof.
  intros H ep. cbn. rewrite bump_same by done. apply H.
Qed.

Lemma agrees_at_running {B} w (k : bool -> proc B) (f : M B) :
  agrees_at w (k (running w)) f ->
  agrees_at w (do* b := call PRunning in k b) f.
Proof.
  intros H ep. cbn. rewrite bump_same by done. apply H.
Qed.

End collapse.

Section agreement.
Implicit Types (w : state) (ep : nat) (c : conn) (r : registry).

Lemma next_item_same r ep pos ch :
  next_item (Iterator (length r) ep pos) ch ep r = Ok (r !! pos).
Proof. unfold next_item. cbn. by rewrite !decide_True. Qed.

Lemma drop_lookup_nil {A} (l : list A) pos : drop pos l = [] -> l !! pos = None.
Proof.
  revert pos. induction l as [|y l IH]; intros [|pos] H; simplify_eq/=; [done | done |].
  by apply IH.
Qed.

Lemma drop_lookup_cons {A} (l : list A) pos x l' :
  drop pos l = x :: l' -> l !! pos = Some x /\ drop (S pos) l = l'.
Proof.
  revert pos. induction l as [|y l IH]; intros [|pos] H; simplify_eq/=; [done |].
  by apply IH.
Qed.

(** The first loop of a broadcast over the live registry does what
    [send_pass] does on the items the registry has. *)
Lemma pass_collapse msg ex r ep items : forall pos disc w,
  clients w = r -> drop pos r = items ->
  collapse (pass_p (length items) msg ex (Iterator (length r) ep pos) disc) ep w =
  (let (w', res) := send_pass msg ex items disc w in (w', ep, res)).
Proof.
  induction items as [|[u [ip c]] items IH]; intros pos disc w Hr Hd.
  - assert (Hl : r !! pos = None) by by apply drop_lookup_nil.
    cbn [length pass_p call pbind collapse exec].
    rewrite Hr, next_item_same, Hl, bump_same by done. done.
  - assert (Hl : r !! pos = Some (u, (ip, c)) /\ drop (S pos) r = items)
      by by apply drop_lookup_cons.
    clear Hd. destruct Hl as [Hl Hd].
    cbn [length pass_p call pbind collapse exec]. rewrite Hr, next_item_same, Hl.
    rewrite bump_same by done. cbn [send_pass].
    destruct (decide (Some u = ex)) as [He | He].
    + by apply IH.
    + rewrite collapse_bind, collapse_try. cbn [pbind call collapse exec].
      rewrite sendall_run. unfold bind at 1. unfold try_except, bind. rewrite sendall_run.
      rewrite bump_same by done.
      destruct (send_outcome (net w c)) as [[]|e]; cbn [collapse ret].
      * by apply IH.
      * destruct (is_conn_error e); cbn [collapse ret]; [by apply IH | done].
Qed.

Lemma evict_agrees disc : forall w, agrees_at w (evict_p disc) (evict disc).
Proof.
  induction disc as [|u rest IH]; intros w; [apply agrees_at_fin |].
  cbn [evict_p]. apply agrees_at_clients.
  destruct (Dict.get u (clients w)) as [[ip c]|] eqn:Hget.
  - rewrite (proj2 (DictFacts.mem_true u (clients w))) by by eexists.
    apply agrees_at_clients. rewrite Hget.
    apply (agrees_at_ext w _
             (let* _ := close c in let* _ := del_client u in evict rest)).
    { unfold evict at 2. fold evict. unfold bind, get_state, close, modify, del_client.
      rewrite Hget. unfold bind, get_state, modify. cbn [clients set_net].
      by rewrite (proj2 (DictFacts.mem_true u (clients w))) by by eexists. }
    apply agrees_at_bind; [by apply agrees_at_call |]. intros _ _.
    apply agrees_at_bind; [by apply agrees_at_call |]. intros _ _. apply IH.
  - rewrite (proj2 (DictFacts.mem_false u (clients w))) by done.
    apply (agrees_at_ext w _ (evict rest)); [| apply IH].
    unfold evict at 2. fold evict. unfold bind, get_state. by rewrite Hget.
Qed.

Lemma broadcast_agrees msg ex w :
  agrees_at w (broadcast_p msg ex) (broadcast_message msg ex).
Proof.
  intros ep. unfold broadcast_p. rewrite collapse_bind. cbn [call collapse exec].
  rewrite bump_same by done. rewrite collapse_bind. cbn [it_size].
  rewrite (pass_collapse msg ex (clients w) ep (clients w) 0 [] w) by done.
  unfold broadcast_message, bind, get_state. cbn [fst snd].
  destruct (send_pass msg ex (clients w) [] w) as [w1 [disc|e]]; [| by eexists].
  apply evict_agrees.
Qed.

Lemma join_agrees c ip username now w :
  agrees_at w (join_p c ip username now) (join c ip username now).
Proof.
  unfold join_p, join. destruct (negb (Text.truthy username)).
  { apply agrees_at_bind; [by apply agrees_at_call |]. intros _ _. apply agrees_at_fin. }
  apply agrees_at_clients.
  apply (agrees_at_ext w _
    (if Dict.mem username (clients w) then
       let* _ := sendall c taken_msg in let* _ := close c in ret Leave
     else
       let* _ := modify (fun w => set_clients (Dict.set username (ip, c) (clients w)) w) in
       let* _ := store_message now "Server" (at_ip username ip +:+ " joined the chat") in
       let* _ := broadcast_message (joined_msg username) (Some username) in
       let* _ := sendall c (welcome_msg username) in
       ret Next)); [done |].
  destruct (Dict.mem username (clients w)).
  - apply agrees_at_bind; [by apply agrees_at_call |]. intros _ _.
    apply agrees_at_bind; [by apply agrees_at_call |]. intros _ _. apply agrees_at_fin.
  - apply agrees_at_bind; [by apply agrees_at_call |]. intros _ _.
    apply agrees_at_bind; [by apply agrees_at_call |]. intros _ _.
    apply agrees_at_bind; [apply broadcast_agrees |]. intros _ _.
    apply agrees_at_bind; [by apply agrees_at_call |]. intros _ _. apply agrees_at_fin.
Qed.

(** The list comprehension over the live registry gives the lines of the
    items the registry has. *)
Lemma roster_collapse r ep items : forall pos lines w,
  clients w = r -> drop pos r = items ->
  collapse (roster_p (length items) (Iterator (length r) ep pos) lines) ep w =
  (w, ep, Ok (lines ++ map roster_line items)).
Proof.
  induction items as [|e items IH]; intros pos lines w Hr Hd.
  - assert (Hl : r !! pos = None) by by apply drop_lookup_nil.
    cbn [length roster_p call pbind collapse exec map].
    rewrite Hr, next_item_same, Hl, bump_same, app_nil_r by done. done.
  - assert (Hl : r !! pos = Some e /\ drop (S pos) r = items) by by apply drop_lookup_cons.
    clear Hd. destruct Hl as [Hl Hd].
    cbn [length roster_p call pbind collapse exec map].
    rewrite Hr, next_item_same, Hl, bump_same by done.
    etrans; [apply (IH (S pos) (lines ++ [roster_line e]) w Hr Hd) |].
    by rewrite <- app_assoc.
Qed.

Lemma send_command_agrees c username data w :
  agrees_at w (send_command_p c username data) (send_command c username data).
Proof.
  unfold send_command_p, send_command.
  destruct (length (Text.split " " 2 data) =? 3); [| by apply agrees_at_call].
  set (target := nth 1 (Text.split " " 2 data) ""). set (msg := nth 2 (Text.split " " 2 data) "").
  apply agrees_at_clients.
  apply (agrees_at_ext w _
    (match Dict.get target (clients w) with
     | Some (_, t_conn) =>
         try_except (sendall t_conn (private_msg username msg)) is_conn_error
           (fun _ => sendall c (not_connected_msg target))
     | None => sendall c (not_found_msg target)
     end)).
  { unfold bind, get_state. by destruct (Dict.get target (clients w)) as [[? ?]|]. }
  destruct (Dict.get target (clients w)) as [[ip t_conn]|] eqn:Hget.
  - rewrite (proj2 (DictFacts.mem_true target (clients w))) by by eexists.
    apply agrees_at_clients. rewrite Hget.
    apply agrees_at_try; [by apply agrees_at_call |]. intros e _. by apply agrees_at_call.
  - rewrite (proj2 (DictFacts.mem_false target (clients w))) by done.
    by apply agrees_at_call.
Qed.

Lemma dispatch_agrees c username data w :
  agrees_at w (dispatch_p c username data) (dispatch c username data).
Proof.
  unfold dispatch_p, dispatch. case_decide as Hlist.
  { intros ep. rewrite collapse_bind. cbn [call collapse exec]. rewrite bump_same by done.
    rewrite collapse_bind. cbn [it_size].
    rewrite (roster_collapse (clients w) ep (clients w) 0 [] w) by done. cbn [app].
    rewrite collapse_bind. cbn [call collapse exec]. rewrite sendall_run.
    rewrite bump_same by done.
    unfold bind, get_state. cbn [fst snd]. rewrite sendall_run. unfold list_response.
    destruct (send_outcome (net w c)) as [[]|e]; by eexists. }
  destruct (Text.startswith "broadcast " data).
  { apply agrees_at_bind; [apply broadcast_agrees |]. intros _ _. apply agrees_at_fin. }
  destruct (Text.startswith "send " data).
  { apply agrees_at_bind; [apply send_command_agrees |]. intros _ _. apply agrees_at_fin. }
  case_decide; [apply agrees_at_fin |].
  apply agrees_at_bind; [by apply agrees_at_call |]. intros _ _. apply agrees_at_fin.
Qed.

Lemma iteration_agrees c ip username ev now w :
  agrees_at w (iteration_p c ip username ev now) (iteration c ip username ev now).
Proof.
  unfold iteration_p, iteration. apply agrees_at_try.
  - apply agrees_at_bind; [by apply agrees_at_call |]. intros [r|] _; [| apply agrees_at_fin].
    apply agrees_at_bind; [by apply agrees_at_call |]. intros raw _.
    destruct (negb (Text.truthy (Text.strip raw))); [apply agrees_at_fin |].
    apply agrees_at_bind; [by apply agrees_at_call |]. intros _ _. apply dispatch_agrees.
  - intros e _. case_decide; apply agrees_at_fin.
Qed.

Lemma loop_step_agrees c ip username ev now w :
  agrees_at w (loop_step_p c ip username ev now) (loop_step c ip username ev now).
Proof.
  unfold loop_step_p, loop_step. apply agrees_at_running.
  apply (agrees_at_ext w _
    (if running w then iteration c ip username ev now else ret Leave)); [done |].
  destruct (running w); [apply iteration_agrees | apply agrees_at_fin].
Qed.

Lemma finally_agrees c ip username now w :
  agrees_at w (finally_p c ip username now) (finally_block c ip username now).
Proof.
  unfold finally_p, finally_block.
  apply (agrees_at_ext w _
    (let* _ :=
       match username with
       | Some u =>
           if Text.truthy u && Dict.mem u (clients w) then
             let* _ := store_message now "Server" (at_ip u ip +:+ " left the chat") in
             let* _ := broadcast_message (left_msg u) (Some u) in
             del_client u
           else ret tt
       | None => ret tt
       end in
     close c)); [done |].
  apply agrees_at_bind; [| intros _ _; by apply agrees_at_call].
  destruct username as [u|]; [| apply agrees_at_fin].
  destruct (Text.truthy u); cbn [andb]; [| apply agrees_at_fin].
  apply agrees_at_clients. destruct (Dict.mem u (clients w)); [| apply agrees_at_fin].
  apply agrees_at_bind; [by apply agrees_at_call |]. intros _ _.
  apply agrees_at_bind; [apply broadcast_agrees |]. intros _ _. by apply agrees_at_call.
Qed.

(** The three stretches of a handler, run without interruption, do what the
    functions [negotiate], [iterate] and [finish] do. *)
Lemma recv_run c (rr : recv_result) w :
  recv c rr w =
  (w, if closed (net w c) then Raise OSError
      else match rr with RecvData text => Ok text | RecvRaise e => Raise e end).
Proof. unfold recv, bind, get_state. by destruct (closed (net w c)), rr. Qed.

Lemma negotiate_collapse c ip (rr : recv_result) now w ep :
  exists ep',
    collapse (negotiate_p c ip rr now) ep w =
    ((negotiate c ip rr now w).1, ep', Ok (negotiate c ip rr now w).2).
Proof.
  unfold negotiate_p, negotiate. cbn [collapse exec]. rewrite recv_run, bump_same by done.
  destruct (closed (net w c)); [by eexists |].
  destruct rr as [raw | e]; [| by eexists].
  rewrite collapse_settle. destruct (join_agrees c ip (Text.strip raw) now w ep) as [ep' ->].
  exists ep'. by destruct (join c ip (Text.strip raw) now w) as [w2 [[|]|e]].
Qed.

Lemma iterate_collapse c ip username ev now w ep :
  exists ep',
    collapse (iterate_p c ip username ev now) ep w =
    ((iterate c ip username ev now w).1, ep', Ok (iterate c ip username ev now w).2).
Proof.
  unfold iterate_p, iterate. rewrite collapse_settle.
  destruct (loop_step_agrees c ip username ev now w ep) as [ep' ->].
  exists ep'. by destruct (loop_step c ip username ev now w) as [w2 [[|]|e]].
Qed.

Lemma finish_collapse c ip username now w ep :
  exists ep',
    collapse (finish_p c ip username now) ep w =
    ((finish c ip username now w).1, ep', Ok (finish c ip username now w).2).
Proof.
  unfold finish_p, finish. rewrite collapse_settle.
  destruct (finally_agrees c ip username now w ep) as [ep' ->].
  exists ep'. by destruct (finally_block c ip username now w) as [w2 [[]|e]].
Qed.

(** So does the [finally] block of [start]. *)
Lemma goodbye_collapse r ep items : forall pos w,
  clients w = r -> drop pos r = items ->
  exists w',
    collapse (goodbye_p (length items) (Iterator (length r) ep pos)) ep w =
      (w', ep, (goodbye_pass items w).2) /\
    w' = (goodbye_pass items w).1.
Proof.
  induction items as [|[u [ip c]] items IH]; intros pos w Hr Hd.
  - assert (Hl : r !! pos = None) by by apply drop_lookup_nil.
    cbn [length goodbye_p call pbind collapse exec].
    rewrite Hr, next_item_same, Hl, bump_same by done. by eexists.
  - assert (Hl : r !! pos = Some (u, (ip, c)) /\ drop (S pos) r = items)
      by by apply drop_lookup_cons.
    clear Hd. destruct Hl as [Hl Hd].
    cbn [length goodbye_p call pbind collapse exec].
    rewrite Hr, next_item_same, Hl, bump_same by done.
    cbn [goodbye_pass]. unfold bind at 1 2. unfold try_except, bind.
    rewrite collapse_bind, collapse_try. cbn [collapse exec].
    rewrite !sendall_run, bump_same by done.
    destruct (send_outcome (net w c)) as [[]|e]; cbn [collapse exec call ret].
    + unfold close, modify. rewrite bump_same by done. by apply IH.
    + by apply IH.
Qed.

Lemma shutdown_agrees w : agrees_at w shutdown_p shutdown.
Proof.
  intros ep. unfold shutdown_p, shutdown. cbn [call pbind collapse exec modify].
  rewrite !bump_same by done. cbn [it_size clients set_running].
  destruct (goodbye_collapse (clients w) ep (clients w) 0 (set_running false w))
    as (w' & -> & ->); [done | done |].
  unfold bind, modify, get_state. cbn [fst snd clients set_running]. by eexists.
Qed.

End agreement.

(** ** What a call leaves of the registry and the sockets *)

Section transitions.
Implicit Types (msg data raw now : string) (c : conn) (w : state) (r : registry).

Lemma quiet_refl w : quiet w w.
Proof. done. Qed.

Lemma quiet_trans w1 w2 w3 : quiet w1 w2 -> quiet w2 w3 -> quiet w1 w3.
Proof.
  intros [H1 H2] [H3 H4]. split; [congruence |]. intros c. by rewrite H4, H2.
Qed.


Lemma handles_sublist r r' : r' `sublist_of` r -> handles r' `sublist_of` handles r.
Proof. intros H. unfold handles. change map with (@fmap list _). by apply fmap_sublist. Qed.

Lemma shrinks_refl w : shrinks w w.
Proof. split; [done | auto]. Qed.


Lemma list_filter_sublist {A} (f : A -> bool) (l : list A) : List.filter f l `sublist_of` l.
Proof.
  induction l as [|x l IH]; simpl; [done |].
  destruct (f x); [by apply sublist_skip | by apply sublist_cons].
Qed.


Lemma sendall_quiet c msg w w' res : sendall c msg w = (w', res) -> quiet w w'.
Proof.
  rewrite sendall_run. intros [= <- _]. split; [done |]. intros c0. simpl.
  rewrite net_alter. case_decide; [by rewrite attempt_closed | done].
Qed.

Lemma logged_quiet now sender msg w : quiet w (logged now sender msg w).
Proof. done. Qed.

(** A broadcast in a well-formed state with open sockets returns normally,
    shrinks the state and keeps the excluded entry. *)
Lemma broadcast_shrinks msg ex w :
  wf_registry (clients w) -> all_open w ->
  exists w',
    broadcast_message msg ex w = (w', Ok tt) /\ shrinks w w' /\
    forall u ip c, Some u = ex -> (u, (ip, c)) ∈ clients w -> (u, (ip, c)) ∈ clients w'.
Proof.
  intros Hwf Hopen.
  destruct (broadcast_message_wf msg ex w Hwf) as (w' & Hrun & _ & _ & Hcl & Hout & Hent).
  { intros e He _. by apply Hopen. }
  exists w'. split; [done |]. split; [split |].
  - rewrite Hcl. apply list_filter_sublist.
  - intros c Hc. destruct (decide (c ∈ handles (clients w))) as [Hin | Hn].
    + unfold handles in Hin. apply list_elem_of_In, in_map_iff in Hin as ([u [ip c']] & Heq & Hin).
      simpl in Heq. subst c'. apply list_elem_of_In in Hin.
      specialize (Hent u ip c Hin).
      destruct (decide (Some u = ex)); [| destruct (decide (link (net w c) = LinkUp))].
      * left. destruct Hent as [<- _]. done.
      * left. destruct Hent as [Heq _]. rewrite Heq in Hc. by rewrite attempt_closed in Hc.
      * right. destruct Hent as [_ Hgone]. intros Hin'.
        unfold handles in Hin'. apply list_elem_of_In, in_map_iff in Hin' as ([u' [ip' c']] & Heq & Hin').
        simpl in Heq. subst c'. apply list_elem_of_In in Hin'.
        assert (Hin0 : (u', (ip', c)) ∈ clients w).
        { rewrite Hcl in Hin'. by apply elem_kept in Hin' as [? _]. }
        destruct Hwf as [_ Hhs].
        destruct (handle_unique _ _ _ _ _ _ Hhs Hin Hin0) as [-> ->].
        apply Hgone, list_elem_of_fmap. by exists (u, (ip, c)).
    + left. by rewrite <- (Hout c Hn).
  - intros u ip c Hex Hin. specialize (Hent u ip c Hin).
    rewrite decide_True in Hent by done. by destruct Hent.
Qed.

End transitions.

Section effects.
Implicit Types (msg data raw now : string) (c : conn) (w : state) (r : registry).

Lemma remove_sublist u r : Dict.remove u r `sublist_of` r.
Proof. apply list_filter_sublist. Qed.

(** The [finally] block in a well-formed state with open sockets: it ends
    normally, only removes entries, closes only evicted sockets and the
    handler's own, and leaves no entry under the handler's name. *)
Lemma finish_effect c ip uo now w :
  wf_registry (clients w) -> all_open w ->
  exists w',
    finish c ip uo now w = (w', Closed) /\
    clients w' `sublist_of` clients w /\
    (forall c0, closed (net w' c0) = true ->
       closed (net w c0) = true \/ c0 ∉ handles (clients w') \/ c0 = c) /\
    (forall u, uo = Some u -> u <> "" -> (u ∉ (clients w').*1)).
Proof.
  intros Hwf Hopen.
  assert (Hplain : match uo with
                   | Some u => Text.truthy u && Dict.mem u (clients w) = false
                   | None => True
                   end ->
    exists w',
      finish c ip uo now w = (w', Closed) /\
      clients w' `sublist_of` clients w /\
      (forall c0, closed (net w' c0) = true ->
         closed (net w c0) = true \/ c0 ∉ handles (clients w') \/ c0 = c) /\
      (forall u, uo = Some u -> u <> "" -> (u ∉ (clients w').*1))).
  { intros H. rewrite finish_unregistered by done. eexists. split; [reflexivity |].
    cbn [clients net set_net]. split_and!; [done | |].
    - intros c0. rewrite net_alter. case_decide; auto.
    - intros u -> Hu. apply truthy_ne in Hu. rewrite Hu in H. cbn [andb] in H.
      by apply DictFacts.get_None_keys, DictFacts.mem_false. }
  destruct uo as [u|]; [| by apply Hplain].
  destruct (Text.truthy u && Dict.mem u (clients w)) eqn:Hreg; [| by apply Hplain].
  apply andb_true_iff in Hreg as [Hu Hmem]. apply truthy_ne in Hu.
  rewrite finish_registered by done.
  set (w0 := logged now "Server" (at_ip u ip +:+ " left the chat") w).
  destruct (broadcast_shrinks (left_msg u) (Some u) w0 Hwf Hopen) as (w1 & -> & [Hsub Hcl] & Hstay).
  apply DictFacts.mem_true in Hmem as [[ip0 c0] Hget].
  apply DictFacts.get_Some_elem in Hget.
  assert (Hmem1 : Dict.mem u (clients w1) = true).
  { apply DictFacts.mem_true, not_eq_None_Some. rewrite DictFacts.get_None_keys.
    intros Hn. apply Hn, list_elem_of_fmap. exists (u, (ip0, c0)). split; [done |].
    by apply Hstay. }
  rewrite Hmem1. eexists. split; [reflexivity |]. cbn [clients net set_net set_clients].
  split_and!.
  - etrans; [apply remove_sublist | exact Hsub].
  - intros c1. rewrite net_alter. case_decide; [auto |]. intros Hc1.
    destruct (Hcl c1 Hc1) as [? | Hn]; [by left |]. right. left.
    intros Hin. apply Hn. eapply elem_of_sublist; [exact Hin |].
    apply handles_sublist, remove_sublist.
  - intros ? [= <-] _. rewrite <- DictFacts.get_None_keys, DictFacts.get_remove.
    by rewrite decide_True.
Qed.


End effects.

(** ** The system of threads *)

Section scheduling.
Implicit Types (w : state) (ep : nat) (c : conn) (g : pool) (wk : worker)
  (ws : list worker).

Lemma with_task_twice wk t t' : with_task (with_task wk t) t' = with_task wk t'.
Proof. done. Qed.

(** A stretch runs to its end when no other thread takes a step meanwhile. *)
Lemma work_steps (p : proc phase) : forall w ep ws m i wk,
  m <> Stopped ->
  ws !! i = Some (with_task wk (Some p)) ->
  let '(w', ep', r) := collapse p ep w in
  rtc sys_step (Pool w ep ws m)
               (Pool w' ep' (<[i := with_task wk (Some (Fin r))]> ws) m).
Proof.
  induction p as [r | X o k IH]; intros w ep ws m i wk Hm Hi.
  - cbn. by rewrite list_insert_id.
  - cbn [collapse]. destruct (exec o None ep w) as [w1 r1] eqn:Hexec.
    assert (Hlt : i < length ws) by by eapply lookup_lt_Some.
    specialize (IH r1 w1 (bump ep w w1) (<[i := with_task wk (Some (k r1))]> ws) m i wk Hm).
    rewrite list_lookup_insert_eq in IH by done. specialize (IH eq_refl).
    destruct (collapse (k r1) (bump ep w w1) w1) as [[w' ep'] r].
    rewrite list_insert_insert_eq in IH.
    eapply rtc_l; [| exact IH].
    by apply (sys_work (Pool w ep ws m) i (with_task wk (Some (Act o k))) X o k None w1 r1).
Qed.

(** What a handler takes up matches the function [step]. *)
Lemma begin_step wk ev now w :
  match begin wk ev now with
  | Some p =>
      forall ep, exists ep',
        collapse p ep w =
          ((step (seen wk) ev now w).1, ep', Ok (h_phase (step (seen wk) ev now w).2)) /\
        (step (seen wk) ev now w).2 =
          Handler (w_conn wk) (w_ip wk) (h_phase (step (seen wk) ev now w).2)
  | None => step (seen wk) ev now w = (w, seen wk)
  end.
Proof.
  destruct wk as [c ip ph t]. unfold begin, step, seen. cbn [w_phase w_conn w_ip h_phase h_conn h_ip].
  destruct ph as [| u | uo | |]; [destruct ev as [|rr] | | | |]; try done; intros ep.
  - destruct (negotiate_collapse c ip rr now w ep) as [ep' ->]. exists ep'.
    by destruct (negotiate c ip rr now w).
  - destruct (iterate_collapse c ip u ev now w ep) as [ep' ->]. exists ep'.
    by destruct (iterate c ip u ev now w).
  - destruct (finish_collapse c ip uo now w ep) as [ep' ->]. exists ep'.
    by destruct (finish c ip uo now w).
Qed.

(** A handler between two stretches can take its next step as [step] has
    it. *)
Lemma stretch_steps w ep ws m i wk ev now :
  m <> Stopped ->
  ws !! i = Some wk ->
  w_task wk = None ->
  exists ep',
    rtc sys_step (Pool w ep ws m)
      (Pool (step (seen wk) ev now w).1 ep'
            (<[i := Worker (w_conn wk) (w_ip wk) (h_phase (step (seen wk) ev now w).2) None]> ws)
            m) /\
    seen <$> <[i := Worker (w_conn wk) (w_ip wk) (h_phase (step (seen wk) ev now w).2) None]> ws
      = <[i := (step (seen wk) ev now w).2]> (seen <$> ws).
Proof.
  intros Hm Hi Ht. pose proof (begin_step wk ev now w) as Hb.
  assert (Hlt : i < length ws) by by eapply lookup_lt_Some.
  destruct (begin wk ev now) as [p|] eqn:Hbegin.
  - destruct (Hb ep) as (ep' & Hcol & Hh). exists ep'. split.
    + eapply rtc_l.
      { by apply (sys_begin (Pool w ep ws m) i wk ev now p). }
      cbn [shared epoch workers main].
      pose proof (work_steps p w ep (<[i := with_task wk (Some p)]> ws) m i wk Hm) as Hw.
      rewrite list_lookup_insert_eq in Hw by done. specialize (Hw eq_refl).
      rewrite Hcol, list_insert_insert_eq in Hw.
      eapply rtc_r; [exact Hw |].
      pose proof (sys_done (Pool (step (seen wk) ev now w).1 ep'
                    (<[i := with_task wk (Some (Fin (Ok (h_phase (step (seen wk) ev now w).2))))]> ws) m)
                    i (with_task wk (Some (Fin (Ok (h_phase (step (seen wk) ev now w).2)))))
                    (Ok (h_phase (step (seen wk) ev now w).2)) Hm) as Hd.
      cbn [shared epoch workers main] in Hd. rewrite list_lookup_insert_eq in Hd by done.
      specialize (Hd eq_refl eq_refl). by rewrite list_insert_insert_eq in Hd.
    + rewrite list_fmap_insert. f_equal. by rewrite Hh at 2.
  - exists ep. rewrite Hb. cbn [fst snd]. unfold seen at 1 3. cbn [h_phase].
    assert (Hwk : Worker (w_conn wk) (w_ip wk) (w_phase wk) None = wk).
    { destruct wk. by simplify_eq/=. }
    rewrite Hwk, list_insert_id by done. split; [done |].
    by rewrite list_insert_id by by rewrite list_lookup_fmap, Hi.
Qed.

Lemma view_threads g : threads (view g) = seen <$> workers g.
Proof. done. Qed.

(** The scripts of the demo states are runs of the threads in which each
    handler runs its stretch without interruption. *)
Lemma act_steps (a : action) g :
  idle g -> main g = Serving ->
  exists g', rtc sys_step g g' /\ idle g' /\ main g' = Serving /\ view g' = act a (view g).
Proof.
  intros Hidle Hmain. destruct g as [w ep ws m]. cbn in Hmain. subst m.
  destruct a as [c ip l | i ev now | c l]; cbn [act].
  - rewrite view_threads. cbn [workers srv view shared].
    assert (Hconns : map h_conn (seen <$> ws) = map w_conn ws).
    { change map with (@fmap list _). by rewrite <- list_fmap_compose. }
    rewrite Hconns. case_decide as Hc; [by exists (Pool w ep ws Serving) |].
    exists (Pool (set_net (<[c := fresh_sock l]> (net w)) w) ep
              (ws ++ [Worker c ip Negotiating None]) Serving). split_and!.
    + apply rtc_once. by apply (sys_accept (Pool w ep ws Serving) c ip l).
    + apply Forall_app. split; [done | by repeat constructor].
    + done.
    + unfold view. cbn [shared workers]. by rewrite map_app.
  - rewrite view_threads. cbn [workers srv view shared]. rewrite list_lookup_fmap.
    destruct (ws !! i) as [wk|] eqn:Hi; cbn [fmap option_fmap option_map];
      [| by exists (Pool w ep ws Serving)].
    assert (Ht : w_task wk = None).
    { unfold idle in Hidle. rewrite Forall_forall in Hidle. apply Hidle.
      by eapply list_elem_of_lookup_2. }
    destruct (stretch_steps w ep ws Serving i wk ev now) as (ep' & Hrun & Hview); try done.
    eexists. split_and!; [exact Hrun | | done |].
    + unfold idle in *. cbn [workers] in *. by apply Forall_insert.
    + unfold view. cbn [shared workers]. f_equal. exact Hview.
  - exists (Pool (set_net (alter (peer_sets l) c (net w)) w) ep ws Serving).
    split_and!; [| done | done | done].
    apply rtc_once. apply (sys_peer (Pool w ep ws Serving) c l).
Qed.

Lemma run_steps (script : list action) : forall g,
  idle g -> main g = Serving ->
  exists g', rtc sys_step g g' /\ idle g' /\ main g' = Serving /\
             view g' = run script (view g).
Proof.
  unfold run. induction script as [|a script IH]; intros g Hidle Hmain; cbn [foldl].
  - by exists g.
  - destruct (act_steps a g Hidle Hmain) as (g1 & Hrun1 & Hidle1 & Hmain1 & <-).
    destruct (IH g1 Hidle1 Hmain1) as (g2 & Hrun2 & ? & ? & ?).
    exists g2. split_and!; try done. by etrans.
Qed.

(** Every script leads to a state the server can reach. *)
Lemma run_reachable (script : list action) : reachable (run script boot).
Proof.
  destruct (run_steps script boot_pool) as (g & Hrun & Hidle & _ & Hview).
  - by apply Forall_nil.
  - done.
  - by exists g.
Qed.

End scheduling.

(** ** What every access keeps *)

Section accesses.
Implicit Types (w : state) (ep : nat) (c : conn) (ip : string).

Lemma settled_act {A X} (o : prim X) (k : result X -> proc A) :
  settled (Act o k) ->
  touch o <> None -> (exists u, touch o = Some (u, None)).
Proof. destruct o; cbn; intros [? _] ?; try done. by eexists. Qed.

Lemma settled_next {A X} (o : prim X) (k : result X -> proc A) r :
  settled (Act o k) -> settled (k r).
Proof. intros [_ H]. apply H. Qed.

Lemma never_act {A X} (o : prim X) (k : result X -> proc A) :
  never_registers (Act o k) ->
  touch o <> None -> (exists u, touch o = Some (u, None)).
Proof. destruct o; cbn; intros [? _] ?; try done. by eexists. Qed.

Lemma never_next {A X} (o : prim X) (k : result X -> proc A) r :
  never_registers (Act o k) -> never_registers (k r).
Proof. intros [_ H]. apply H. Qed.

Lemma fresh_act {A X} c ip (o : prim X) (k : result X -> proc A) :
  fresh c ip (Act o k) ->
  match touch o with
  | Some (u, Some v) => u <> "" /\ v = (ip, c) /\ forall r, settled (k r)
  | _ => forall r, fresh c ip (k r)
  end.
Proof. by destruct o. Qed.

Lemma settled_fresh {A} c ip (p : proc A) : settled p -> fresh c ip p.
Proof.
  induction p as [r | X o k IH]; [done |]. intros [Ho Hk]. cbn.
  destruct o; try done; intros ?; apply IH, Hk.
Qed.

Lemma settled_never {A} (p : proc A) : settled p -> never_registers p.
Proof.
  induction p as [r | X o k IH]; [done |]. intros [Ho Hk]. split; [by destruct o |].
  intros r. apply IH, Hk.
Qed.

Lemma settled_call {X} (o : prim X) :
  match o with PSetClient _ _ | PStop => False | _ => True end -> settled (call o).
Proof. intros H. by split. Qed.

Lemma settled_bind {A B} (p : proc A) (k : A -> proc B) :
  settled p -> (forall a, settled (k a)) -> settled (pbind p k).
Proof.
  induction p as [[a|e] | X o k' IH]; intros Hp Hk; cbn; [done | done |].
  destruct Hp as [Ho Hp]. split; [done |]. intros r. by apply IH.
Qed.

Lemma settled_try {A} (p : proc A) handles (h : exn -> proc A) :
  settled p -> (forall e, settled (h e)) -> settled (ptry p handles h).
Proof.
  induction p as [[a|e] | X o k' IH]; intros Hp Hh; cbn; [done | |].
  - by destruct (handles e).
  - destruct Hp as [Ho Hp]. split; [done |]. intros r. by apply IH.
Qed.

Lemma settled_settle {A B} (p : proc A) (f : result A -> B) :
  settled p -> settled (settle p f).
Proof.
  induction p as [r | X o k' IH]; intros Hp; cbn; [done |].
  destruct Hp as [Ho Hp]. split; [done |]. intros r. by apply IH.
Qed.

Lemma fresh_bind_l {A B} c ip (p : proc A) (k : A -> proc B) :
  settled p -> (forall a, fresh c ip (k a)) -> fresh c ip (pbind p k).
Proof.
  induction p as [[a|e] | X o k' IH]; intros Hp Hk; cbn [pbind]; [done | done |].
  destruct Hp as [Ho Hp]. cbn. destruct o; try done; intros ?; by apply IH.
Qed.

Lemma fresh_bind_r {A B} c ip (p : proc A) (k : A -> proc B) :
  fresh c ip p -> (forall a, settled (k a)) -> fresh c ip (pbind p k).
Proof.
  induction p as [[a|e] | X o k' IH]; intros Hp Hk; cbn [pbind];
    [by apply settled_fresh | done |].
  cbn in Hp |- *. destruct o; try done; try (intros ?; by apply IH).
  destruct Hp as (? & ? & Hp). split_and!; [done | done |].
  intros ?. by apply settled_bind.
Qed.

Lemma fresh_settle {A B} c ip (p : proc A) (f : result A -> B) :
  fresh c ip p -> fresh c ip (settle p f).
Proof.
  induction p as [r | X o k' IH]; intros Hp; cbn [settle]; [done |].
  cbn in Hp |- *. destruct o; try done; try (intros ?; by apply IH).
  destruct Hp as (? & ? & Hp). split_and!; [done | done |].
  intros ?. by apply settled_settle.
Qed.

Lemma past_settle {A} (p : proc A) (f : result A -> phase) :
  (forall r, f r <> Negotiating) -> past_negotiation (settle p f).
Proof.
  intros Hf. induction p as [r | X o k' IH]; cbn; [| done].
  intros [= E]. by apply (Hf r).
Qed.

Lemma never_bind {A B} (p : proc A) (k : A -> proc B) :
  never_registers p -> (forall a, never_registers (k a)) -> never_registers (pbind p k).
Proof.
  induction p as [[a|e] | X o k' IH]; intros Hp Hk; cbn; [done | done |].
  destruct Hp as [Ho Hp]. split; [done |]. intros r. by apply IH.
Qed.

(** *** The stretches of the code *)

Lemma pass_settled n msg ex : forall it disc, settled (pass_p n msg ex it disc).
Proof.
  induction n as [|n IH]; intros it disc; cbn [pass_p];
    (apply settled_bind; [by apply settled_call |]); intros [[u [ip c]]|]; try done.
  case_decide; [apply IH |]. apply settled_bind; [| intros d; apply IH].
  apply settled_try; [| done]. apply settled_bind; [by apply settled_call | done].
Qed.

Lemma evict_settled disc : settled (evict_p disc).
Proof.
  induction disc as [|u rest IH]; [done |]. cbn [evict_p].
  apply settled_bind; [by apply settled_call |]. intros r.
  destruct (Dict.mem u r); [| done].
  apply settled_bind; [by apply settled_call |]. intros r'.
  destruct (Dict.get u r') as [[ip c]|]; [| done].
  apply settled_bind; [by apply settled_call |]. intros _.
  apply settled_bind; [by apply settled_call | done].
Qed.

Lemma broadcast_settled msg ex : settled (broadcast_p msg ex).
Proof.
  unfold broadcast_p. apply settled_bind; [by apply settled_call |]. intros it.
  apply settled_bind; [apply pass_settled | intros d; apply evict_settled].
Qed.

Lemma roster_settled n : forall it lines, settled (roster_p n it lines).
Proof.
  induction n as [|n IH]; intros it lines; cbn [roster_p];
    (apply settled_bind; [by apply settled_call |]); intros [e|]; try done.
Qed.

Lemma send_command_settled c username data : settled (send_command_p c username data).
Proof.
  unfold send_command_p. destruct (length _ =? 3); [| by apply settled_call].
  apply settled_bind; [by apply settled_call |]. intros r.
  destruct (Dict.mem _ r); [| by apply settled_call].
  apply settled_bind; [by apply settled_call |]. intros r'.
  destruct (Dict.get _ r') as [[ip t_conn]|]; [| done].
  apply settled_try; [by apply settled_call |]. intros _. by apply settled_call.
Qed.

Lemma dispatch_settled c username data : settled (dispatch_p c username data).
Proof.
  unfold dispatch_p. case_decide.
  { apply settled_bind; [by apply settled_call |]. intros it.
    apply settled_bind; [apply roster_settled |]. intros lines.
    apply settled_bind; [by apply settled_call | done]. }
  destruct (Text.startswith "broadcast " data).
  { apply settled_bind; [apply broadcast_settled | done]. }
  destruct (Text.startswith "send " data).
  { apply settled_bind; [apply send_command_settled | done]. }
  case_decide; [done |]. apply settled_bind; [by apply settled_call | done].
Qed.

Lemma iterate_settled c ip username ev now : settled (iterate_p c ip username ev now).
Proof.
  unfold iterate_p, loop_step_p. apply settled_settle.
  apply settled_bind; [by apply settled_call |]. intros [|]; [| done].
  unfold iteration_p. apply settled_try; [| intros e; by case_decide].
  apply settled_bind; [by apply settled_call |]. intros [r|]; [| done].
  apply settled_bind; [by apply settled_call |]. intros raw.
  destruct (negb _); [done |].
  apply settled_bind; [by apply settled_call |]. intros _. apply dispatch_settled.
Qed.

Lemma finish_settled c ip username now : settled (finish_p c ip username now).
Proof.
  unfold finish_p, finally_p. apply settled_settle.
  apply settled_bind; [| intros _; by apply settled_call].
  destruct username as [u|]; [| done]. destruct (Text.truthy u); [| done].
  apply settled_bind; [by apply settled_call |]. intros r.
  destruct (Dict.mem u r); [| done].
  apply settled_bind; [by apply settled_call |]. intros _.
  apply settled_bind; [apply broadcast_settled |]. intros _. by apply settled_call.
Qed.

Lemma fresh_set_bind {B} c ip u (k : unit -> proc B) :
  u <> "" -> (forall a, settled (k a)) ->
  fresh c ip (do* x := call (PSetClient u (ip, c)) in k x).
Proof.
  intros Hu Hk. change (u <> "" /\ (ip, c) = (ip, c) /\
                        forall r : result unit, settled (pbind (Fin r) k)).
  split_and!; [done | done |]. intros [a|e]; [apply Hk | done].
Qed.

Lemma negotiate_fresh_task c ip rr now : fresh c ip (negotiate_p c ip rr now).
Proof.
  unfold negotiate_p. cbn. intros [raw|e]; [| done].
  apply fresh_settle. unfold join_p.
  destruct (Text.truthy (Text.strip raw)) eqn:Ht; cbn [negb].
  - apply fresh_bind_l; [by apply settled_call |]. intros r.
    destruct (Dict.mem _ r).
    + apply settled_fresh.
      apply settled_bind; [by apply settled_call |]. intros _.
      apply settled_bind; [by apply settled_call | done].
    + apply fresh_set_bind; [by destruct (Text.strip raw) |]. intros _.
      apply settled_bind; [by apply settled_call |]. intros _.
      apply settled_bind; [apply broadcast_settled |]. intros _.
      apply settled_bind; [by apply settled_call | done].
  - apply settled_fresh. apply settled_bind; [by apply settled_call | done].
Qed.

Lemma begin_past wk ev now p : begin wk ev now = Some p -> past_negotiation p.
Proof.
  unfold begin. destruct (w_phase wk) as [| u | uo | |]; [destruct ev as [|rr] | | | |];
    intros [= <-].
  - unfold negotiate_p. cbn. intros [raw|e]; [| done].
    apply past_settle. by intros [[|]|].
  - apply past_settle. by intros [[|]|].
  - apply past_settle. by intros [|].
Qed.

Lemma goodbye_never n : forall it, never_registers (goodbye_p n it).
Proof.
  induction n as [|n IH]; intros it; cbn [goodbye_p];
    (apply never_bind; [by split |]); intros [[u [ip c]]|]; try done.
  apply never_bind; [| intros _; apply IH].
  apply settled_never, settled_try; [| done].
  apply settled_bind; [by apply settled_call | intros _; by apply settled_call].
Qed.

Lemma shutdown_never : never_registers shutdown_p.
Proof.
  unfold shutdown_p. apply never_bind; [by split |]. intros _.
  apply never_bind; [by split |]. intros it. apply goodbye_never.
Qed.

(** *** What an access does to the shared state *)

Lemma exec_clients {X} (o : prim X) ch ep w w' (r : result X) :
  exec o ch ep w = (w', r) ->
  match touch o with
  | None => clients w' = clients w
  | Some (u, Some v) => clients w' = Dict.set u v (clients w)
  | Some (u, None) => clients w' = clients w \/ clients w' = Dict.remove u (clients w)
  end.
Proof.
  destruct o; cbn; try (by intros [= <- _]).
  - unfold recv, bind, get_state. by destruct (closed _); [| case_match]; intros [= <- _].
  - unfold select, bind, get_state. by destruct (closed _); intros [= <- _].
  - unfold del_client, bind, get_state. destruct (Dict.mem u (clients w)); intros [= <- _]; auto.
Qed.

Lemma exec_history {X} (o : prim X) ch ep w w' (r : result X) :
  exec o ch ep w = (w', r) -> chat_history w `prefix_of` chat_history w'.
Proof.
  destruct o; cbn; try (by intros [= <- _]).
  - unfold recv, bind, get_state. by destruct (closed _); [| case_match]; intros [= <- _].
  - unfold select, bind, get_state. by destruct (closed _); intros [= <- _].
  - unfold del_client, bind, get_state. by destruct (Dict.mem u (clients w)); intros [= <- _].
  - intros [= <- _]. by apply prefix_app_r.
Qed.

Lemma exec_running {X} (o : prim X) ch ep w w' (r : result X) :
  exec o ch ep w = (w', r) ->
  match o with
  | PStop => running w' = false
  | _ => running w' = running w
  end.
Proof.
  destruct o; cbn; try (by intros [= <- _]).
  - unfold recv, bind, get_state. by destruct (closed _); [| case_match]; intros [= <- _].
  - unfold select, bind, get_state. by destruct (closed _); intros [= <- _].
  - unfold del_client, bind, get_state. by destruct (Dict.mem u (clients w)); intros [= <- _].
Qed.

End accesses.

(** ** The invariant of the threads *)

Section invariant.
Implicit Types (w : state) (ep : nat) (c : conn) (ip u : string) (g : pool)
  (wk : worker) (ws : list worker) (r : registry).

Lemma handles_set u ip c r c' :
  c' ∈ handles (Dict.set u (ip, c) r) -> c' = c \/ c' ∈ handles r.
Proof.
  unfold handles. induction r as [|[k [i0 c0]] r IH]; cbn.
  - rewrite list_elem_of_singleton. auto.
  - case_decide as Hk; cbn; rewrite !elem_of_cons; [tauto |].
    intros [-> | Hin]; [right; by left |]. destruct (IH Hin); auto.
Qed.

Lemma NoDup_handles_set u ip c r :
  NoDup (handles r) -> c ∉ handles r -> NoDup (handles (Dict.set u (ip, c) r)).
Proof.
  unfold handles. induction r as [|[k [i0 c0]] r IH]; cbn; intros Hnd Hc.
  - apply NoDup_singleton.
  - apply NoDup_cons in Hnd as [Hc0 Hnd]. rewrite not_elem_of_cons in Hc.
    destruct Hc as [Hne Hc]. case_decide as Hk; cbn.
    + apply NoDup_cons. by split.
    + apply NoDup_cons. split; [| by apply IH].
      intros Hin. apply (handles_set u ip c r c0) in Hin as [-> | Hin]; done.
Qed.

Lemma worker_ok_ext w w' wk :
  (forall c, c ∈ handles (clients w') -> c ∈ handles (clients w)) ->
  worker_ok w wk -> worker_ok w' wk.
Proof.
  intros Hsub. unfold worker_ok. destruct (w_task wk) as [p|].
  - intros [Hp [Hs | [Hf Hc]]]; (split; [done |]); [by left | right]. split; [done |].
    intros Hin. by apply Hc, Hsub.
  - intros H Hph Hin. by apply (H Hph), Hsub.
Qed.

Lemma conns_insert ws i wk wk' :
  ws !! i = Some wk -> w_conn wk' = w_conn wk ->
  map w_conn (<[i := wk']> ws) = map w_conn ws.
Proof.
  intros Hi Hc. change map with (@fmap list _). rewrite list_fmap_insert, Hc.
  apply list_insert_id. by rewrite list_lookup_fmap, Hi.
Qed.

(** A step that only takes entries out of the registry. *)
Lemma inv_shrink g w' ep' ws' m' :
  inv g ->
  clients w' `sublist_of` clients (shared g) ->
  map w_conn ws' = map w_conn (workers g) ->
  (Forall (worker_ok (shared g)) (workers g) -> Forall (worker_ok w') ws') ->
  match m' with Stopping p => never_registers p | _ => True end ->
  inv (Pool w' ep' ws' m').
Proof.
  intros ([Hk Hh] & Hne & Hnd & Hsub & Hok & _) Hs Hconns Hws Hm.
  assert (Hhs : handles (clients w') `sublist_of` handles (clients (shared g)))
    by by apply handles_sublist.
  unfold inv. cbn [shared workers main]. split_and!; try done.
  - split.
    + eapply sublist_NoDup; [exact Hk |]. by apply fmap_sublist.
    + eapply sublist_NoDup; [exact Hh | exact Hhs].
  - intros Hin. apply Hne. eapply elem_of_sublist; [exact Hin |]. by apply fmap_sublist.
  - by rewrite Hconns.
  - intros c Hc. rewrite Hconns. apply Hsub. by eapply elem_of_sublist.
  - by apply Hws.
Qed.

Lemma sublist_same r r' : r' = r -> r' `sublist_of` r.
Proof. by intros ->. Qed.

Lemma worker_ok_shrink w w' ws :
  clients w' `sublist_of` clients w ->
  Forall (worker_ok w) ws -> Forall (worker_ok w') ws.
Proof.
  intros Hs Hall. eapply Forall_impl; [exact Hall |]. intros wk. apply worker_ok_ext.
  intros c Hc. eapply elem_of_sublist; [exact Hc |]. by apply handles_sublist.
Qed.

(** What an access that adds nothing does to the registry. *)
Lemma exec_shrinks {X} (o : prim X) ch ep w w' (res : result X) :
  exec o ch ep w = (w', res) ->
  (forall u v, touch o <> Some (u, Some v)) ->
  clients w' `sublist_of` clients w.
Proof.
  intros He Ht. apply exec_clients in He. destruct (touch o) as [[u [v|]]|].
  - by destruct (Ht u v).
  - destruct He as [-> | ->]; [done | apply remove_sublist].
  - by rewrite He.
Qed.

(** Every step of the system keeps the invariant. *)
Theorem inv_step g g' : inv g -> sys_step g g' -> inv g'.
Proof.
  intros Hinv Hstep. pose proof Hinv as ([Hk Hh] & Hne & Hnd & Hsub & Hok & Hmain).
  destruct Hstep as [g c ip l Hm Hc | g c l | g i wk ev now p Hm Hi Ht Hb
                    | g i wk X o k ch w' res Hm Hi Ht He | g i wk res Hm Hi Ht
                    | g Hm | g X o k ch w' res Hm He | g res Hm].
  - unfold inv. cbn [shared workers main clients set_net]. split_and!; try done.
    + rewrite map_app. cbn. apply NoDup_app. split_and!; [done | | apply NoDup_singleton].
      intros x Hx Hx'. apply list_elem_of_singleton in Hx'. by subst.
    + intros c' Hc'. rewrite map_app. apply elem_of_app. left. by apply Hsub.
    + apply Forall_app. split; [exact Hok |]. apply Forall_singleton.
      intros _ Hin. cbn in Hin. by apply Hc, Hsub.
  - by apply (inv_shrink g).
  - apply (inv_shrink g); try done.
    + by apply (conns_insert _ _ wk).
    + intros _. apply Forall_insert; [done |].
      pose proof (proj1 (Forall_forall _ _) Hok wk (list_elem_of_lookup_2 _ _ _ Hi)) as Hwk.
      unfold worker_ok in Hwk |- *. rewrite Ht in Hwk. cbn [w_task with_task w_conn w_ip].
      split; [by eapply begin_past |].
      unfold begin in Hb. destruct (w_phase wk) as [| un | uo | |] eqn:Hph.
      * destruct ev as [|rr]; [done |]. injection Hb as <-. right.
        split; [apply negotiate_fresh_task | by apply Hwk].
      * injection Hb as <-. left. apply iterate_settled.
      * injection Hb as <-. left. apply finish_settled.
      * done.
      * done.
  - pose proof (proj1 (Forall_forall _ _) Hok wk (list_elem_of_lookup_2 _ _ _ Hi)) as Hwk.
    unfold worker_ok in Hwk. rewrite Ht in Hwk. destruct Hwk as [Hpast Hwk].
    pose proof (exec_clients o ch (epoch g) (shared g) w' res He) as Hcl.
    destruct (touch o) as [[un [v|]]|] eqn:Htouch.
    + (* the handler registers itself *)
      destruct Hwk as [Hs | [Hf Hfresh]].
      { destruct (settled_act o k Hs) as [? ?]; congruence. }
      apply fresh_act in Hf. rewrite Htouch in Hf. destruct Hf as (Hun & -> & Hsett).
      unfold inv. cbn [shared workers main]. rewrite Hcl. split_and!.
      * split; [by apply DictFacts.NoDup_set | by apply NoDup_handles_set].
      * rewrite DictFacts.keys_set. destruct (Dict.mem un _); [done |].
        rewrite elem_of_app, list_elem_of_singleton. intros [? | ?]; [done | congruence].
      * by rewrite (conns_insert _ _ wk).
      * intros c Hc. rewrite (conns_insert _ _ wk) by done.
        apply handles_set in Hc as [-> | Hc]; [| by apply Hsub].
        apply list_elem_of_fmap. exists wk. split; [done |]. by eapply list_elem_of_lookup_2.
      * apply Forall_forall. intros wk' Hin.
        apply list_elem_of_lookup in Hin as [j Hj].
        destruct (decide (i = j)) as [<- | Hij].
        -- rewrite list_lookup_insert_eq in Hj by by eapply lookup_lt_Some.
           injection Hj as <-. unfold worker_ok. cbn [w_task with_task]. split; [apply Hpast |].
           left. apply Hsett.
        -- rewrite list_lookup_insert_ne in Hj by done.
           pose proof (proj1 (Forall_forall _ _) Hok wk' (list_elem_of_lookup_2 _ _ _ Hj)) as Hwk'.
           assert (Hcc : w_conn wk' <> w_conn wk).
           { intros E. apply Hij. eapply NoDup_lookup; [exact Hnd | |].
             - change map with (@fmap list _). by rewrite list_lookup_fmap, Hi.
             - change map with (@fmap list _). rewrite list_lookup_fmap, Hj. cbn.
               by rewrite E. }
           unfold worker_ok in Hwk' |- *. destruct (w_task wk') as [p'|].
           ++ destruct Hwk' as [Hp' [? | [? Hc']]]; (split; [done |]); [by left | right].
              split; [done |]. intros Hc''. rewrite Hcl in Hc''.
              apply handles_set in Hc'' as [? | ?]; done.
           ++ intros Hph Hc''. rewrite Hcl in Hc''.
              apply handles_set in Hc'' as [? | ?]; [done |].
              by apply (Hwk' Hph).
      * exact Hmain.
    + (* the handler deletes an entry *)
      assert (Hs : clients w' `sublist_of` clients (shared g)).
      { destruct Hcl as [-> | ->]; [done | apply remove_sublist]. }
      apply (inv_shrink g); try done.
      * by apply (conns_insert _ _ wk).
      * intros _. apply Forall_insert; [by eapply worker_ok_shrink |].
        unfold worker_ok. cbn [w_task with_task w_conn w_ip]. split; [apply Hpast |].
        destruct Hwk as [Hsett | [Hf Hfresh]]; [left; by eapply settled_next | right].
        apply fresh_act in Hf. rewrite Htouch in Hf. split; [apply Hf |].
        intros Hin. apply Hfresh. eapply elem_of_sublist; [exact Hin |].
        by apply handles_sublist.
    + (* the registry is left alone *)
      assert (Hs : clients w' `sublist_of` clients (shared g)) by by rewrite Hcl.
      apply (inv_shrink g); try done.
      * by apply (conns_insert _ _ wk).
      * intros _. apply Forall_insert; [by eapply worker_ok_shrink |].
        unfold worker_ok. cbn [w_task with_task w_conn w_ip]. split; [apply Hpast |].
        destruct Hwk as [Hsett | [Hf Hfresh]]; [left; by eapply settled_next | right].
        apply fresh_act in Hf. rewrite Htouch in Hf. split; [apply Hf |]. by rewrite Hcl.
  - pose proof (proj1 (Forall_forall _ _) Hok wk (list_elem_of_lookup_2 _ _ _ Hi)) as Hwk.
    unfold worker_ok in Hwk. rewrite Ht in Hwk. destruct Hwk as [Hpast Hwk].
    apply (inv_shrink g); try done.
    + by apply (conns_insert _ _ wk).
    + intros _. apply Forall_insert; [done |].
      unfold worker_ok. cbn [w_task w_phase w_conn]. intros Hph. exfalso.
      cbn in Hpast. destruct res as [ph|e]; [| done]. cbn in Hph. by subst ph.
  - apply (inv_shrink g); try done. apply shutdown_never.
  - rewrite Hm in Hmain.
    assert (Hs : clients w' `sublist_of` clients (shared g)).
    { eapply exec_shrinks; [exact He |]. intros un v Ht.
      destruct (never_act o k Hmain) as [? ?]; congruence. }
    apply (inv_shrink g); try done.
    + by eapply worker_ok_shrink.
    + by eapply never_next.
  - by apply (inv_shrink g).
Qed.

Lemma inv_boot : inv boot_pool.
Proof.
  unfold inv. cbn. split_and!; try done; try apply NoDup_nil_2; try apply not_elem_of_nil.
  split; apply NoDup_nil_2.
Qed.

(** At every moment of every run of the threads the invariant holds. *)
Theorem run_inv g : rtc sys_step boot_pool g -> inv g.
Proof.
  revert g. apply rtc_ind_r; [apply inv_boot |].
  intros g g' _ Hstep IH. by eapply inv_step.
Qed.

(** At every instant at most one session exists per username. *)
Theorem reachable_names_unique s : reachable s -> NoDup (clients (srv s)).*1.
Proof. intros (g & Hrun & _ & <-). by destruct (run_inv g Hrun) as ([? _] & _). Qed.

End invariant.

Section replaying.
Implicit Types (g : pool) (wk : worker).

Lemma play_steps (mv : move) g : rtc sys_step g (play mv g).
Proof.
  destruct g as [w ep ws m].
  destruct mv as [c ip l | c l | i ev now | i ev now | i ch | i | | ch |];
    cbn [play on_worker main workers shared epoch].
  - destruct m; try done. case_decide as Hc; [done |].
    apply rtc_once. by apply (sys_accept (Pool w ep ws Serving) c ip l).
  - apply rtc_once. apply (sys_peer (Pool w ep ws m) c l).
  - assert (Hgo : m <> Stopped ->
      rtc sys_step (Pool w ep ws m)
        match ws !! i with
        | Some wk =>
            match w_task wk, begin wk ev now with
            | None, Some p =>
                let '(w', ep', r) := collapse p ep w in
                Pool w' ep' (<[i := Worker (w_conn wk) (w_ip wk) (next_phase r) None]> ws) m
            | _, _ => Pool w ep ws m
            end
        | None => Pool w ep ws m
        end).
    { intros Hm. destruct (ws !! i) as [wk|] eqn:Hi; [| done].
      destruct (w_task wk) as [t|] eqn:Ht; [done |].
      destruct (begin wk ev now) as [p|] eqn:Hb; [| done].
      assert (Hlt : i < length ws) by by eapply lookup_lt_Some.
      eapply rtc_l; [by apply (sys_begin (Pool w ep ws m) i wk ev now p) |].
      cbn [shared epoch workers main].
      pose proof (work_steps p w ep (<[i := with_task wk (Some p)]> ws) m i wk Hm) as Hw.
      rewrite list_lookup_insert_eq in Hw by done. specialize (Hw eq_refl).
      destruct (collapse p ep w) as [[w' ep'] r]. rewrite list_insert_insert_eq in Hw.
      eapply rtc_r; [exact Hw |].
      pose proof (sys_done (Pool w' ep' (<[i := with_task wk (Some (Fin r))]> ws) m)
                    i (with_task wk (Some (Fin r))) r Hm) as Hd.
      cbn [shared epoch workers main] in Hd. rewrite list_lookup_insert_eq in Hd by done.
      specialize (Hd eq_refl eq_refl). by rewrite list_insert_insert_eq in Hd. }
    destruct m; [by apply Hgo | by apply Hgo | done].
  - assert (Hgo : m <> Stopped ->
      rtc sys_step (Pool w ep ws m)
        match ws !! i with
        | Some wk =>
            match w_task wk, begin wk ev now with
            | None, Some p => Pool w ep (<[i := with_task wk (Some p)]> ws) m
            | _, _ => Pool w ep ws m
            end
        | None => Pool w ep ws m
        end).
    { intros Hm. destruct (ws !! i) as [wk|] eqn:Hi; [| done].
      destruct (w_task wk) as [t|] eqn:Ht; [done |].
      destruct (begin wk ev now) as [p|] eqn:Hb; [| done].
      apply rtc_once. by apply (sys_begin (Pool w ep ws m) i wk ev now p). }
    destruct m; [by apply Hgo | by apply Hgo | done].
  - assert (Hgo : m <> Stopped ->
      rtc sys_step (Pool w ep ws m)
        match ws !! i with
        | Some wk =>
            match w_task wk with
            | Some (Act o k) =>
                let (w', r) := exec o ch ep w in
                Pool w' (bump ep w w') (<[i := with_task wk (Some (k r))]> ws) m
            | _ => Pool w ep ws m
            end
        | None => Pool w ep ws m
        end).
    { intros Hm. destruct (ws !! i) as [wk|] eqn:Hi; [| done].
      destruct (w_task wk) as [[r | X o k]|] eqn:Ht; [done | | done].
      destruct (exec o ch ep w) as [w' r] eqn:He.
      apply rtc_once. by apply (sys_work (Pool w ep ws m) i wk X o k ch w' r). }
    destruct m; [by apply Hgo | by apply Hgo | done].
  - assert (Hgo : m <> Stopped ->
      rtc sys_step (Pool w ep ws m)
        match ws !! i with
        | Some wk =>
            match w_task wk with
            | Some (Fin r) =>
                Pool w ep (<[i := Worker (w_conn wk) (w_ip wk) (next_phase r) None]> ws) m
            | _ => Pool w ep ws m
            end
        | None => Pool w ep ws m
        end).
    { intros Hm. destruct (ws !! i) as [wk|] eqn:Hi; [| done].
      destruct (w_task wk) as [[r | X o k]|] eqn:Ht; [| done | done].
      apply rtc_once. by apply (sys_done (Pool w ep ws m) i wk r). }
    destruct m; [by apply Hgo | by apply Hgo | done].
  - destruct m; try done. apply rtc_once. by apply (sys_interrupt (Pool w ep ws Serving)).
  - destruct m as [| [r | X o k] |]; try done.
    destruct (exec o ch ep w) as [w' r] eqn:He.
    apply rtc_once. by apply (sys_main_work (Pool w ep ws (Stopping (Act o k))) X o k ch w' r).
  - destruct m as [| [r | X o k] |]; try done.
    apply rtc_once. by apply (sys_main_done (Pool w ep ws (Stopping (Fin r))) r).
Qed.

(** Every script of moves is a run of the threads. *)
Lemma replay_steps (script : list move) g : rtc sys_step g (replay script g).
Proof.
  unfold replay. revert g. induction script as [|mv script IH]; intros g; cbn [foldl]; [done |].
  etrans; [apply play_steps | apply IH].
Qed.

End replaying.

Section taming.
Implicit Types (g : pool) (wk : worker).

Lemma begin_fresh wk ev now p : begin wk ev now = Some p -> fresh (w_conn wk) (w_ip wk) p.
Proof.
  unfold begin. destruct (w_phase wk) as [| u | uo | |]; [destruct ev as [|rr] | | | |];
    intros [= <-].
  - apply negotiate_fresh_task.
  - apply settled_fresh, iterate_settled.
  - apply settled_fresh, finish_settled.
Qed.

Lemma fresh_next {A X} c ip (o : prim X) (k : result X -> proc A) r :
  fresh c ip (Act o k) -> fresh c ip (k r).
Proof.
  destruct o; cbn; try done; try (intros H; apply H).
  intros (_ & _ & H). apply settled_fresh, H.
Qed.

Lemma fresh_running {A X} c ip (o : prim X) (k : result X -> proc A) ch ep w w' r :
  fresh c ip (Act o k) -> exec o ch ep w = (w', r) -> running w' = running w.
Proof.
  intros Hf He. apply exec_running in He. by destruct o.
Qed.

Lemma idle_tame g : idle g -> tame g.
Proof.
  unfold idle, tame. intros Hi. eapply Forall_impl; [exact Hi |]. intros wk Hn p Hp. congruence.
Qed.

Lemma tame_insert ws i wk' :
  Forall (fun wk => forall p, w_task wk = Some p -> fresh (w_conn wk) (w_ip wk) p) ws ->
  (forall p, w_task wk' = Some p -> fresh (w_conn wk') (w_ip wk') p) ->
  Forall (fun wk => forall p, w_task wk = Some p -> fresh (w_conn wk) (w_ip wk) p)
         (<[i := wk']> ws).
Proof. intros Hws Hwk. by apply Forall_insert. Qed.

Lemma tame_step g g' : tame g -> sys_step g g' -> tame g'.
Proof.
  unfold tame. intros Ht Hstep.
  destruct Hstep as [g c ip l Hm Hc | g c l | g i wk ev now p Hm Hi Hn Hb
                    | g i wk X o k ch w' r Hm Hi Hk He | g i wk r Hm Hi Hk
                    | g Hm | g X o k ch w' r Hm He | g r Hm]; cbn [workers]; try done.
  - apply Forall_app. split; [done |]. by apply Forall_singleton.
  - apply tame_insert; [done |]. cbn. intros ? [= <-]. by apply (begin_fresh wk ev now).
  - apply tame_insert; [done |]. cbn. intros ? [= <-].
    eapply Forall_lookup_1 in Ht; [| exact Hi]. apply (fresh_next _ _ o k r), Ht, Hk.
  - by apply tame_insert.
Qed.

(** One step of the threads: the history grows at its end, and the flag
    [running] is never set again once cleared. *)
Lemma step_history g g' :
  sys_step g g' ->
  chat_history (shared g) `prefix_of` chat_history (shared g') /\
  (running (shared g') = true -> running (shared g) = true).
Proof.
  intros Hstep.
  destruct Hstep as [g c ip l Hm Hc | g c l | g i wk ev now p Hm Hi Hn Hb
                    | g i wk X o k ch w' r Hm Hi Hk He | g i wk r Hm Hi Hk
                    | g Hm | g X o k ch w' r Hm He | g r Hm];
    cbn [shared main]; try done.
  - split; [by eapply exec_history |]. apply exec_running in He. destruct o; congruence.
  - split; [by eapply exec_history |]. apply exec_running in He. destruct o; congruence.
Qed.

(** Only the main thread, after it has left the accept loop, clears the
    flag. *)
Lemma step_running g g' :
  tame g -> sys_step g g' -> main g' = Serving ->
  main g = Serving /\ running (shared g') = running (shared g).
Proof.
  intros Ht Hstep.
  destruct Hstep as [g c ip l Hm Hc | g c l | g i wk ev now p Hm Hi Hn Hb
                    | g i wk X o k ch w' r Hm Hi Hk He | g i wk r Hm Hi Hk
                    | g Hm | g X o k ch w' r Hm He | g r Hm];
    cbn [shared main]; try done.
  intros Hs. split; [done |].
  eapply Forall_lookup_1 in Ht; [| exact Hi]. specialize (Ht _ Hk).
  by eapply fresh_running.
Qed.

End taming.

(** * The claims *)

Lemma town_reachable : reachable town.
Proof. apply run_reachable. Qed.

Lemma stormy_reachable : reachable stormy.
Proof. apply run_reachable. Qed.

Lemma knocking_reachable : reachable knocking.
Proof. apply run_reachable. Qed.

(** Scenario 1: when bob joins after alice, bob gets the welcome line and
    alice is told that bob has joined. *)
Example alice_then_bob :
  let s := run [ Accept 1 "10.0.0.1" LinkUp; Handle 0 (Ready (RecvData "alice")) "09:00";
                 Accept 2 "10.0.0.2" LinkUp; Handle 1 (Ready (RecvData "bob")) "09:01" ] boot in
  outbox (net (srv s) 2) = ["Welcome to the chat, bob! Type 'help' for commands."] /\
  outbox (net (srv s) 1) = ["Welcome to the chat, alice! Type 'help' for commands.";
                            "[Server] bob joined the chat"].
Proof. vm_compute. by split. Qed.

(** [handle_client] run on its own: dave joins the town, lists the users,
    and leaves with [exit]. *)
Example dave_comes_and_goes :
  let r := handle_client 4 "10.0.0.4" (RecvData "dave") "10:00"
             [ (Idle, "10:01"); (Ready (RecvData "list"), "10:02");
               (Ready (RecvData "exit"), "10:03") ] "10:04" (srv town) in
  r.2 = Closed /\
  clients r.1 = clients (srv town) /\
  closed (net r.1 4) = true /\
  outbox (net r.1 4) =
    [ "Welcome to the chat, dave! Type 'help' for commands.";
      "Connected clients:" +:+ Text.nl +:+ "  alice@10.0.0.1" +:+ Text.nl +:+
      "  bob@10.0.0.2" +:+ Text.nl +:+ "  carol@10.0.0.3" +:+ Text.nl +:+ "  dave@10.0.0.4" ] /\
  outbox (net r.1 1) =
    outbox (net (srv town) 1) ++ ["[Server] dave joined the chat"; "[Server] dave left the chat"].
Proof. vm_compute. by split_and!. Qed.

Example town_clients : clients calm = demo_clients.
Proof. reflexivity. Qed.

Example stormy_clients : clients demo = demo_clients.
Proof. reflexivity. Qed.

Lemma all_open_Forall (w : state) :
  Forall (fun e => closed (net w e.2.2) = false) (clients w) -> all_open w.
Proof. intros H e He. by eapply Forall_forall in H. Qed.

(** The demo states are well formed, and their registered sockets open. *)
Example town_wf : wf_registry (clients (srv town)).
Proof. split; apply (bool_decide_unpack _); vm_compute; exact I. Qed.

Example town_open : all_open (srv town).
Proof. apply all_open_Forall, (bool_decide_unpack _). vm_compute. exact I. Qed.

Example stormy_wf : wf_registry (clients (srv stormy)).
Proof. split; apply (bool_decide_unpack _); vm_compute; exact I. Qed.

Example stormy_open : all_open (srv stormy).
Proof. apply all_open_Forall, (bool_decide_unpack _). vm_compute. exact I. Qed.



(** ** Message log *)

(** C9: [store_message] appends exactly one entry, formatted from the clock
    reading, the sender label and the text, and returns that entry; the
    entries that were there stay where they are, and nothing else of the
    state changes. *)
Theorem store_message_appends (now sender message : string) (w : state) :
  exists entry w',
    store_message now sender message w = (w', Ok entry) /\
    entry = "[" +:+ now +:+ "] " +:+ sender +:+ ": " +:+ message /\
    chat_history w' = chat_history w ++ [entry] /\
    (forall i e, chat_history w !! i = Some e -> chat_history w' !! i = Some e) /\
    length (chat_history w') = S (length (chat_history w)) /\
    clients w' = clients w /\ running w' = running w /\ net w' = net w.
Proof.
  eexists _, _. split; [reflexivity |]. simpl. split_and!; try done.
  - intros i e H. by apply lookup_app_l_Some.
  - rewrite length_app. simpl. lia.
Qed.

(** ** Broadcast *)





(** The broadcast of one handler and the join of another, interleaved.
    Alice's handler has sent [[BROADCAST from alice] hi] to bob when dave's
    handler registers dave.  The next item alice's handler asks of the
    registry raises [RuntimeError], the dict having changed size during
    the iteration: carol, who is registered and is not alice, is never sent
    the broadcast, and alice's handler leaves its loop. *)
Example join_during_broadcast :
  let g := race_pool in
  let m := "[BROADCAST from alice] hi" in
  rtc sys_step boot_pool g /\
  clients (shared g) = [("alice", ("10.0.0.1", 1)); ("bob", ("10.0.0.2", 2));
                        ("carol", ("10.0.0.3", 3)); ("dave", ("10.0.0.4", 4))] /\
  map (fun wk => (w_conn wk, w_phase wk)) (workers g) =
    [(1, Closing (Some "alice")); (2, Active "bob"); (3, Active "carol"); (4, Active "dave")] /\
  calls (net (shared g) 2) =
    ["Welcome to the chat, bob! Type 'help' for commands."; "[Server] carol joined the chat";
     m; "[Server] dave joined the chat"] /\
  calls (net (shared g) 3) =
    ["Welcome to the chat, carol! Type 'help' for commands."; "[Server] dave joined the chat"] /\
  closed (net (shared g) 3) = false /\ link (net (shared g) 3) = LinkUp.
Proof.
  split; [etrans; [apply (replay_steps town_moves) | apply (replay_steps race_moves)] |].
  vm_compute. by split_and!.
Qed.





(** ** Private messages *)



(** C10: when the relay of a private message raises a connection error,
    the sender is told [User A is not connected.] and the handler goes on;
    the target keeps its registry entry, its socket stays open and receives
    nothing, and registry, history and flag are as before.  Only the
    sender's socket receives anything. *)
Theorem failed_private_delivery_keeps_target
    (w : state) (cB cA : conn) (B A m ipA : string) :
  healthy (net w cB) ->
  Text.contains " " A = false ->
  Dict.get A (clients w) = Some (ipA, cA) ->
  failing (net w cA) ->
  exists w',
    dispatch cB B ("send " +:+ A +:+ " " +:+ m) w = (w', Ok Next) /\
    outbox (net w' cB) = outbox (net w cB) ++ ["User " +:+ A +:+ " is not connected."] /\
    clients w' = clients w /\
    chat_history w' = chat_history w /\
    running w' = running w /\
    Dict.get A (clients w') = Some (ipA, cA) /\
    closed (net w' cA) = false /\
    (forall c, c <> cB ->
       outbox (net w' c) = outbox (net w c) /\
       closed (net w' c) = closed (net w c) /\
       link (net w' c) = link (net w c)) /\
    (forall c, c <> cB -> c <> cA -> net w' c = net w c).
Proof.
  intros HB HA Hget HAf.
  rewrite dispatch_send, send_command_parts, Hget by done.
  unfold try_except. rewrite sendall_run.
  destruct (send_outcome_failing _ HAf) as (e & Hout & He). rewrite Hout, He.
  assert (Hne : cA <> cB).
  { intros ->. by rewrite send_outcome_healthy in Hout. }
  rewrite sendall_run. simpl. rewrite net_alter_ne by done.
  rewrite send_outcome_healthy by done.
  eexists. split; [reflexivity |]. simpl. destruct HAf as [HAo HAl].
  split_and!; try done.
  - by rewrite net_alter_eq, net_alter_ne, attempt_outbox_up.
  - by rewrite net_alter_ne, net_alter_eq, attempt_closed.
  - intros c Hc. rewrite net_alter_ne by done. rewrite net_alter. case_decide; [| done].
    subst. by rewrite attempt_closed, attempt_link, attempt_outbox_down.
  - intros c Hc Hc'. by rewrite !net_alter_ne.
Qed.

Lemma failed_private_delivery_keeps_target_witness :
  exists w',
    dispatch 1 "alice" "send carol are you there" demo = (w', Ok Next) /\
    outbox (net w' 1) = outbox (net demo 1) ++ ["User carol is not connected."] /\
    clients w' = clients demo /\
    chat_history w' = chat_history demo /\
    running w' = running demo /\
    Dict.get "carol" (clients w') = Some ("10.0.0.3", 3) /\
    closed (net w' 3) = false /\
    (forall c, c <> 1 ->
       outbox (net w' c) = outbox (net demo c) /\
       closed (net w' c) = closed (net demo c) /\
       link (net w' c) = link (net demo c)) /\
    (forall c, c <> 1 -> c <> 3 -> net w' c = net demo c).
Proof.
  apply (failed_private_delivery_keeps_target demo 1 3 "alice" "carol" "are you there"
           "10.0.0.3").
  - split; vm_compute; reflexivity.
  - vm_compute. reflexivity.
  - vm_compute. reflexivity.
  - split; vm_compute; [reflexivity | discriminate].
Defined.

(** ** The [send] command line *)

(** C6: a line recognised as a [send] command is cut at its first two
    spaces only.  There are at most three pieces, which joined by spaces
    give the line back.  When the text after [send ] is a target without a
    space, a space and a message, the pieces are exactly [send], the target
    and the message, whatever spaces the message has, and it is this message
    that is relayed to the target as [[Private from B] message].  When the
    text after [send ] has no space there are two pieces only, and with
    fewer than three pieces the handler does nothing but send the usage text
    to the sender: it raises nothing of its own, and with a healthy sender
    the reply is delivered and the handler goes on. *)
Theorem send_splits_in_three (w : state) (c : conn) (username data : string) :
  Text.startswith "send " data = true ->
  let parts := Text.split " " 2 data in
  let rest := Text.drop 5 data in
  length parts <= 3 /\
  Text.join " " parts = data /\
  (forall target msg,
     Text.contains " " target = false ->
     rest = target +:+ " " +:+ msg ->
     parts = ["send"; target; msg] /\
     send_command c username data w =
       match Dict.get target (clients w) with
       | Some (_, t_conn) =>
           try_except (sendall t_conn ("[Private from " +:+ username +:+ "] " +:+ msg))
             is_conn_error
             (fun _ => sendall c ("User " +:+ target +:+ " is not connected.")) w
       | None => sendall c ("User " +:+ target +:+ " not found.") w
       end /\
     forall ip t_conn,
       Dict.get target (clients w) = Some (ip, t_conn) ->
       healthy (net w t_conn) ->
       exists w',
         dispatch c username data w = (w', Ok Next) /\
         outbox (net w' t_conn) =
           outbox (net w t_conn) ++ ["[Private from " +:+ username +:+ "] " +:+ msg]) /\
  (Text.contains " " rest = false -> parts = ["send"; rest]) /\
  (length parts = 3 ->
     exists target msg,
       parts = ["send"; target; msg] /\ Text.contains " " target = false /\
       data = "send " +:+ target +:+ " " +:+ msg) /\
  (length parts < 3 ->
     Text.contains " " rest = false /\
     dispatch c username data w =
       (let (w1, r) := sendall c "Usage: send <username> <message>" w in
        (w1, match r with Ok _ => Ok Next | Raise e => Raise e end)) /\
     (healthy (net w c) ->
        exists w',
          dispatch c username data w = (w', Ok Next) /\
          outbox (net w' c) = outbox (net w c) ++ ["Usage: send <username> <message>"] /\
          clients w' = clients w /\
          forall c', c' <> c -> net w' c' = net w c')).
Proof.
  intros Hsend parts rest0. apply startswith_inv in Hsend.
  set (rest := Text.drop (String.length "send ") data) in *.
  change rest0 with rest. clear rest0.
  assert (Hparts : parts = match Text.cut " " rest with
                           | Some (target, msg) => ["send"; target; msg]
                           | None => ["send"; rest]
                           end).
  { unfold parts. rewrite Hsend. apply split_send_line. }
  split; [apply (TextFacts.split_length " " 2 data) |].
  split; [apply (TextFacts.split_join " " 2 data) |].
  split.
  { intros target msg Ht Hrest.
    assert (Hdata : data = "send " +:+ target +:+ " " +:+ msg) by by rewrite Hsend, Hrest.
    split; [unfold parts; rewrite Hdata; by apply TextFacts.split_send |].
    split; [rewrite Hdata; by apply send_command_parts |].
    intros ip t_conn Hget Hh. rewrite Hdata, dispatch_send, send_command_parts, Hget by done.
    unfold try_except. rewrite sendall_run, send_outcome_healthy by done.
    eexists. split; [reflexivity |]. cbn [net set_net].
    by rewrite net_alter_eq, attempt_outbox_up. }
  split.
  { unfold Text.contains. intros Hc. apply bool_decide_eq_false in Hc.
    rewrite Hparts. destruct (Text.cut " " rest) as [[? ?]|]; [| done].
    exfalso. apply Hc. by eexists. }
  destruct (Text.cut " " rest) as [[target msg]|] eqn:Hcut.
  - split; [| rewrite Hparts; simpl; lia].
    intros _. exists target, msg. apply TextFacts.cut_join in Hcut as [Hrest Hc].
    split_and!; [done | done |]. by rewrite Hsend, Hrest.
  - split; [rewrite Hparts; simpl; lia |]. intros _.
    assert (Hd : dispatch c username data w =
       (let (w1, r) := sendall c usage_msg w in
        (w1, match r with Ok _ => Ok Next | Raise e => Raise e end))).
    { rewrite Hsend at 1. rewrite dispatch_send. unfold send_command.
      rewrite <- Hsend. fold parts. rewrite Hparts. cbn [length Nat.eqb].
      by destruct (sendall c usage_msg w) as [w1 [|]]. }
    split; [unfold Text.contains; rewrite Hcut; apply bool_decide_eq_false; by intros [? ?] |].
    split; [exact Hd |]. intros Hc. rewrite Hd, sendall_run, send_outcome_healthy by done.
    eexists. split; [reflexivity |]. simpl. rewrite net_alter_eq, attempt_outbox_up by done.
    split_and!; try done. intros c' Hne. by rewrite net_alter_ne.
Qed.

Lemma send_splits_in_three_witness :
  let data := "send bob see you at  noon" in
  let parts := Text.split " " 2 data in
  let rest := Text.drop 5 data in
  length parts <= 3 /\
  Text.join " " parts = data /\
  (forall target msg,
     Text.contains " " target = false ->
     rest = target +:+ " " +:+ msg ->
     parts = ["send"; target; msg] /\
     send_command 1 "alice" data calm =
       match Dict.get target (clients calm) with
       | Some (_, t_conn) =>
           try_except (sendall t_conn ("[Private from " +:+ "alice" +:+ "] " +:+ msg))
             is_conn_error
             (fun _ => sendall 1 ("User " +:+ target +:+ " is not connected.")) calm
       | None => sendall 1 ("User " +:+ target +:+ " not found.") calm
       end /\
     forall ip t_conn,
       Dict.get target (clients calm) = Some (ip, t_conn) ->
       healthy (net calm t_conn) ->
       exists w',
         dispatch 1 "alice" data calm = (w', Ok Next) /\
         outbox (net w' t_conn) =
           outbox (net calm t_conn) ++ ["[Private from " +:+ "alice" +:+ "] " +:+ msg]) /\
  (Text.contains " " rest = false -> parts = ["send"; rest]) /\
  (length parts = 3 ->
     exists target msg,
       parts = ["send"; target; msg] /\ Text.contains " " target = false /\
       data = "send " +:+ target +:+ " " +:+ msg) /\
  (length parts < 3 ->
     Text.contains " " rest = false /\
     dispatch 1 "alice" data calm =
       (let (w1, r) := sendall 1 "Usage: send <username> <message>" calm in
        (w1, match r with Ok _ => Ok Next | Raise e => Raise e end)) /\
     (healthy (net calm 1) ->
        exists w',
          dispatch 1 "alice" data calm = (w', Ok Next) /\
          outbox (net w' 1) = outbox (net calm 1) ++ ["Usage: send <username> <message>"] /\
          clients w' = clients calm /\
          forall c', c' <> 1 -> net w' c' = net calm c')).
Proof.
  apply (send_splits_in_three calm 1 "alice" "send bob see you at  noon").
  vm_compute. reflexivity.
Defined.

(** The relayed message keeps its spaces: bob is sent the whole rest of the
    line, and a [send] line without a message gets the usage text. *)
Example send_relays_whole_message :
  let r := dispatch 1 "alice" "send bob see you at  noon" calm in
  let r' := dispatch 1 "alice" "send bob" calm in
  r.2 = Ok Next /\
  outbox (net r.1 2) = outbox (net calm 2) ++ ["[Private from alice] see you at  noon"] /\
  outbox (net r.1 1) = outbox (net calm 1) /\
  r'.2 = Ok Next /\
  outbox (net r'.1 1) = outbox (net calm 1) ++ ["Usage: send <username> <message>"] /\
  outbox (net r'.1 2) = outbox (net calm 2).
Proof. vm_compute. by split_and!. Qed.

(** The message keeps its spaces. *)
Example send_message_with_spaces :
  Text.split " " 2 "send bob see you at  noon" = ["send"; "bob"; "see you at  noon"].
Proof. reflexivity. Qed.

(** ** Help *)

(** C5, as the code has it.  While the server is running and the
    session's socket is open, a received line that is not empty after
    trimming and is none of [list], [broadcast ...], [send ...], [exit] is
    answered with the help text, which lists the four commands.  When the
    sender's connection is up the text is delivered, the handler stays in
    its loop and nothing else changes but the history.  When the peer has
    reset or dropped the connection the [sendall] raises a connection
    error: nothing is delivered and the handler leaves its loop. *)
Theorem unrecognised_line_gets_help
    (w : state) (c : conn) (ip username raw now : string) :
  running w = true ->
  closed (net w c) = false ->
  Text.strip raw <> "" ->
  Text.strip raw <> "list" ->
  Text.startswith "broadcast " (Text.strip raw) = false ->
  Text.startswith "send " (Text.strip raw) = false ->
  Text.strip raw <> "exit" ->
  Forall (fun cmd => Text.occurs cmd get_help = true)
    ["list"; "broadcast <msg>"; "send <username> <msg>"; "exit"] /\
  (link (net w c) = LinkUp ->
     exists w',
       iterate c ip username (Ready (RecvData raw)) now w = (w', Active username) /\
       outbox (net w' c) = outbox (net w c) ++ [get_help] /\
       (forall c', c' <> c -> net w' c' = net w c') /\
       clients w' = clients w) /\
  (link (net w c) <> LinkUp ->
     exists w',
       iterate c ip username (Ready (RecvData raw)) now w = (w', Closing (Some username)) /\
       calls (net w' c) = calls (net w c) ++ [get_help] /\
       outbox (net w' c) = outbox (net w c) /\
       closed (net w' c) = false /\
       (forall c', c' <> c -> net w' c' = net w c') /\
       clients w' = clients w).
Proof.
  intros Hrun Hopen Hne H1 H2 H3 H4.
  split; [by repeat constructor |].
  rewrite (iterate_line _ _ _ _ _ _ _ Hrun Hopen eq_refl Hne).
  rewrite dispatch_other, sendall_run by done.
  change (net (logged _ _ _ w)) with (net w).
  split; intros Hl.
  - rewrite send_outcome_healthy by done.
    eexists. split; [reflexivity |]. simpl.
    rewrite net_alter_eq, attempt_outbox_up by done. split_and!; try done.
    intros c' Hc'. by rewrite net_alter_ne.
  - destruct (send_outcome_failing (net w c)) as (e & Hout & He); [done |].
    rewrite Hout. eexists. split; [by destruct e |]. simpl.
    rewrite net_alter_eq, attempt_calls, attempt_closed, attempt_outbox_down by done.
    split_and!; try done. intros c' Hc'. by rewrite net_alter_ne.
Qed.

Lemma unrecognised_line_gets_help_witness :
  Forall (fun cmd => Text.occurs cmd get_help = true)
    ["list"; "broadcast <msg>"; "send <username> <msg>"; "exit"] /\
  (link (net calm 1) = LinkUp ->
     exists w',
       iterate 1 "10.0.0.1" "alice" (Ready (RecvData " help ")) "12:00" calm
         = (w', Active "alice") /\
       outbox (net w' 1) = outbox (net calm 1) ++ [get_help] /\
       (forall c', c' <> 1 -> net w' c' = net calm c') /\
       clients w' = clients calm) /\
  (link (net calm 1) <> LinkUp ->
     exists w',
       iterate 1 "10.0.0.1" "alice" (Ready (RecvData " help ")) "12:00" calm
         = (w', Closing (Some "alice")) /\
       calls (net w' 1) = calls (net calm 1) ++ [get_help] /\
       outbox (net w' 1) = outbox (net calm 1) /\
       closed (net w' 1) = false /\
       (forall c', c' <> 1 -> net w' c' = net calm c') /\
       clients w' = clients calm).
Proof.
  apply (unrecognised_line_gets_help calm 1 "10.0.0.1" "alice" " help " "12:00").
  - vm_compute. reflexivity.
  - vm_compute. reflexivity.
  - vm_compute. discriminate.
  - vm_compute. discriminate.
  - vm_compute. reflexivity.
  - vm_compute. reflexivity.
  - vm_compute. discriminate.
Defined.

(** C5, as stated, fails on a line of blanks: it is empty after trimming,
    and the handler of alice leaves its loop without sending anything.  It
    fails, too, when the sender's connection is down: carol's peer has reset
    the connection, the reply to her line [dance] raises, nothing is
    delivered and her handler leaves its loop. *)
Lemma blank_line_ends_session :
  let w := srv town in
  let r := iterate 1 "10.0.0.1" "alice" (Ready (RecvData "   ")) "12:00" w in
  let w2 := srv stormy in
  let r2 := iterate 3 "10.0.0.3" "carol" (Ready (RecvData "dance")) "12:00" w2 in
  (Text.strip "   " = "" /\
   running w = true /\
   healthy (net w 1) /\
   r.2 = Closing (Some "alice") /\
   r.2 <> Active "alice" /\
   outbox (net r.1 1) = outbox (net w 1) /\
   calls (net r.1 1) = calls (net w 1)) /\
  (running w2 = true /\
   closed (net w2 3) = false /\ link (net w2 3) = LinkReset /\
   r2.2 = Closing (Some "carol") /\
   r2.2 <> Active "carol" /\
   calls (net r2.1 3) = calls (net w2 3) ++ [get_help] /\
   outbox (net r2.1 3) = outbox (net w2 3)).
Proof. vm_compute. split_and!; (reflexivity || discriminate). Qed.

(** ** Joining *)

Lemma negotiate_taken c ip raw now w :
  Text.strip raw <> "" ->
  Dict.mem (Text.strip raw) (clients w) = true ->
  closed (net w c) = false ->
  negotiate c ip (RecvData raw) now w =
  match send_outcome (net w c) with
  | Ok _ => (set_net (alter shut c (alter (attempt taken_msg) c (net w))) w,
             Closing (Some (Text.strip raw)))
  | Raise _ => (set_net (alter (attempt taken_msg) c (net w)) w,
                Closing (Some (Text.strip raw)))
  end.
Proof.
  intros Hne Hmem Hopen. apply truthy_ne in Hne.
  unfold negotiate, recv, bind, get_state. rewrite Hopen. cbn [ret].
  unfold join. rewrite Hne. cbn [negb]. unfold bind, get_state. rewrite Hmem.
  rewrite sendall_run. by destruct (send_outcome (net w c)) as [[]|e].
Qed.

(** C7, as the code has it.  When the read of the username times out the
    server sends nothing on the connection and closes it; registry and
    history are as before.  When the name is taken the server replies
    [Username already taken. Disconnecting.] and closes the connection.  In
    neither case is the connection registered: every entry of the registry
    afterwards was there before. *)
Theorem negotiation_failures (w : state) (c : conn) (ip now now' : string) :
  (exists w',
     handshake c ip (RecvRaise socket_timeout) now now' w = (w', Closed) /\
     clients w' = clients w /\
     chat_history w' = chat_history w /\
     calls (net w' c) = calls (net w c) /\
     outbox (net w' c) = outbox (net w c) /\
     closed (net w' c) = true /\
     forall c', c' <> c -> net w' c' = net w c') /\
  (forall raw,
     Text.strip raw <> "" ->
     Dict.mem (Text.strip raw) (clients w) = true ->
     healthy (net w c) ->
     c ∉ handles (clients w) ->
     exists w' p,
       handshake c ip (RecvData raw) now now' w = (w', p) /\
       outbox (net w' c) = outbox (net w c) ++ ["Username already taken. Disconnecting."] /\
       closed (net w' c) = true /\
       (forall e, e ∈ clients w' -> e ∈ clients w) /\
       c ∉ handles (clients w')).
Proof.
  split.
  - unfold handshake, negotiate, recv, bind, get_state.
    destruct (closed (net w c)); cbn [raise fst snd];
      rewrite finish_unregistered by done;
      (eexists; split; [reflexivity |]; simpl; rewrite net_alter_eq;
       split_and!; try done; intros c' Hc'; by rewrite net_alter_ne).
  - intros raw Hne Hmem Hc Hfresh. pose proof Hc as [Hopen _].
    unfold handshake. rewrite negotiate_taken, send_outcome_healthy by done.
    set (w1 := set_net (alter shut c (alter (attempt taken_msg) c (net w))) w).
    assert (Hout : outbox (net w1 c) = outbox (net w c) ++ [taken_msg]).
    { unfold w1. cbn [net set_net]. rewrite net_alter_eq. cbn [shut outbox].
      by rewrite net_alter_eq, attempt_outbox_up. }
    assert (Hcl : closed (net w1 c) = true).
    { unfold w1. cbn [net set_net]. by rewrite net_alter_eq. }
    rewrite finish_registered by done.
    set (w2 := logged now' "Server" _ w1).
    destruct (broadcast_message _ _ w2) as [w3 res] eqn:Hb.
    apply broadcast_message_frame in Hb as (_ & _ & Hsub & Hclosed & Hnet).
    assert (Hfresh' : c ∉ handles (clients w3)).
    { intros Hin. apply Hfresh. unfold handles in *.
      apply list_elem_of_In, in_map_iff in Hin as (e & <- & He).
      apply list_elem_of_In, in_map_iff. exists e. split; [done |].
      apply list_elem_of_In, (Hsub e), list_elem_of_In, He. }
    assert (H3 : net w3 c = net w1 c) by (by apply Hnet).
    destruct res as [[]|e]; [destruct (Dict.mem _ (clients w3)) |];
      eexists _, _; (split; [reflexivity |]); simpl.
    + rewrite net_alter_eq, H3. simpl. split_and!; try done.
      * intros e He. apply DictFacts.elem_remove in He as [He _]. by apply Hsub.
      * intros Hin. apply Hfresh'. unfold handles in *.
        apply list_elem_of_In, in_map_iff in Hin as (e & <- & He).
        apply list_elem_of_In, in_map_iff. exists e. split; [done |].
        apply list_elem_of_In. apply list_elem_of_In in He.
        by apply DictFacts.elem_remove in He as [He _].
    + rewrite H3. by split_and!.
    + rewrite H3. by split_and!.
Qed.

Lemma negotiation_failures_witness :
  exists w' p,
    handshake 4 "10.0.0.4" (RecvData "bob") "12:00" "12:01" (srv knocking) = (w', p) /\
    outbox (net w' 4) = outbox (net (srv knocking) 4) ++ ["Username already taken. Disconnecting."] /\
    closed (net w' 4) = true /\
    (forall e, e ∈ clients w' -> e ∈ clients (srv knocking)) /\
    4 ∉ handles (clients w').
Proof.
  apply (proj2 (negotiation_failures (srv knocking) 4 "10.0.0.4" "12:00" "12:01") "bob").
  - vm_compute. discriminate.
  - vm_compute. reflexivity.
  - split; vm_compute; reflexivity.
  - apply (bool_decide_unpack _). vm_compute. exact I.
Defined.

(** C7, as stated, fails on a time-out: the connection of the newcomer is
    closed without a single [sendall] on it. *)
Lemma negotiation_timeout_is_silent :
  let w := srv knocking in
  let r := handshake 4 "10.0.0.4" (RecvRaise socket_timeout) "12:00" "12:01" w in
  r.2 = Closed /\
  calls (net r.1 4) = [] /\
  outbox (net r.1 4) = [] /\
  closed (net r.1 4) = true /\
  clients r.1 = clients w.
Proof. vm_compute. by split_and!. Qed.

(** In any well-formed state with open sockets, a connection that asks for
    a registered name is turned away, and its [finally] block deletes the
    name from the registry while the holder's socket stays open. *)
Lemma duplicate_join_removes_holder
    (w : state) (c c0 : conn) (ip ip0 raw now now' : string) :
  wf_registry (clients w) -> all_open w ->
  Text.strip raw <> "" ->
  Dict.get (Text.strip raw) (clients w) = Some (ip0, c0) ->
  healthy (net w c) ->
  c ∉ handles (clients w) ->
  exists w',
    handshake c ip (RecvData raw) now now' w = (w', Closed) /\
    Dict.get (Text.strip raw) (clients w') = None /\
    closed (net w' c0) = false.
Proof.
  intros Hwf Hopen Hne Hget Hc Hfresh. pose proof Hc as [Hco _].
  pose proof (DictFacts.get_Some_elem _ _ _ Hget) as Hin.
  assert (Hmem : Dict.mem (Text.strip raw) (clients w) = true).
  { apply DictFacts.mem_true. by eexists. }
  assert (Hcc : c <> c0).
  { intros ->. apply Hfresh. by eapply elem_handles. }
  unfold handshake. rewrite negotiate_taken, send_outcome_healthy by done.
  set (w1 := set_net (alter shut c (alter (attempt taken_msg) c (net w))) w).
  assert (Hopen1 : all_open w1).
  { intros [u [i c1]] He. unfold w1. cbn. rewrite !net_alter_ne.
    - by apply (Hopen _ He).
    - intros ->. apply Hfresh. by eapply elem_handles.
    - intros ->. apply Hfresh. by eapply elem_handles. }
  destruct (finish_effect c ip (Some (Text.strip raw)) now' w1 Hwf Hopen1)
    as (w' & Hfin & _ & Hclosed & Hgone).
  exists w'. split; [done |]. split.
  - apply DictFacts.get_None_keys. by apply Hgone.
  - destruct (closed (net w' c0)) eqn:E; [| done]. exfalso.
    rewrite finish_registered in Hfin by done.
    destruct (broadcast_message_wf (left_msg (Text.strip raw)) (Some (Text.strip raw))
                (logged now' "Server" (at_ip (Text.strip raw) ip +:+ " left the chat") w1) Hwf)
      as (w2 & Hb & _ & _ & _ & _ & Hent).
    { intros e He _. by apply Hopen1. }
    rewrite Hb in Hfin. specialize (Hent _ _ _ Hin). rewrite decide_True in Hent by done.
    destruct Hent as [Hn Hstay].
    assert (Hmem2 : Dict.mem (Text.strip raw) (clients w2) = true).
    { apply DictFacts.mem_true, not_eq_None_Some. rewrite DictFacts.get_None_keys.
      intros Hk. apply Hk, list_elem_of_fmap. by exists (Text.strip raw, (ip0, c0)). }
    rewrite Hmem2 in Hfin. simplify_eq. cbn [net set_net] in E.
    rewrite net_alter_ne, Hn in E by done. cbn [net logged set_history] in E.
    unfold w1 in E. cbn [net set_net] in E. rewrite !net_alter_ne in E by done.
    pose proof (Hopen _ Hin) as Ho. cbn in Ho. congruence.
Qed.

(** C4 at a newcomer's attempt to join as [bob] while bob is connected,
    in a state the server reaches: the newcomer is told the name is taken
    and its connection is closed, but the [finally] block then finds the
    name [bob] in the registry, announces that bob has left and deletes
    bob's entry, while bob's connection stays open. *)
Theorem duplicate_join_unregisters_holder :
  let w := srv knocking in
  let r := handshake 4 "10.0.0.4" (RecvData "bob") "12:00" "12:01" w in
  reachable knocking /\
  clients w = [("alice", ("10.0.0.1", 1)); ("bob", ("10.0.0.2", 2));
               ("carol", ("10.0.0.3", 3))] /\
  r.2 = Closed /\
  outbox (net r.1 4) = ["Username already taken. Disconnecting."] /\
  closed (net r.1 4) = true /\
  clients r.1 = [("alice", ("10.0.0.1", 1)); ("carol", ("10.0.0.3", 3))] /\
  Dict.mem "bob" (clients r.1) = false /\
  closed (net r.1 2) = false /\
  outbox (net r.1 1) = outbox (net w 1) ++ ["[Server] bob left the chat"] /\
  outbox (net r.1 3) = outbox (net w 3) ++ ["[Server] bob left the chat"] /\
  chat_history r.1 = chat_history w ++ ["[12:01] Server: bob@10.0.0.4 left the chat"].
Proof. split; [apply run_reachable |]. vm_compute. by split_and!. Qed.

(** ** Leaving *)





(** The same among the threads.  The main thread leaves its accept loop and
    says goodbye to everybody; bob's handler, still alive, then leaves its
    loop and runs its [finally] block.  The leave is logged, the announcement
    raises [OSError] on alice's closed socket and ends the thread: bob is
    still registered and carol has not been told. *)
Example leave_after_shutdown :
  let g := closing_pool in
  rtc sys_step boot_pool g /\
  main g = Stopping (Fin (Ok tt)) /\
  running (shared g) = false /\
  map (fun wk => (w_conn wk, w_phase wk)) (workers g) =
    [(1, Active "alice"); (2, Died OSError); (3, Active "carol")] /\
  clients (shared g) = [("alice", ("10.0.0.1", 1)); ("bob", ("10.0.0.2", 2));
                        ("carol", ("10.0.0.3", 3))] /\
  last (chat_history (shared g)) = Some "[12:01] Server: bob@10.0.0.2 left the chat" /\
  last (calls (net (shared g) 1)) = Some "[Server] bob left the chat" /\
  last (calls (net (shared g) 3)) = Some "Server is shutting down. Goodbye!".
Proof.
  split; [etrans; [apply (replay_steps town_moves) | apply (replay_steps closing_moves)] |].
  vm_compute. by split_and!.
Qed.

(** * Beyond the claims: what the handlers never do *)

Section tracking.
Context (own : string * (string * conn) -> Prop).
Implicit Types (w : state) (c : conn) (msg : string).


























End tracking.

Section step_tracking.
Implicit Types (w : state) (c : conn) (ip now : string).









End step_tracking.

(** * Beyond the claims: joining *)

Section joining.
Implicit Types (w : state) (c : conn) (ip now raw u : string).


End joining.

Section joining_facts.
Implicit Types (w : state) (c : conn) (ip now raw u : string).


End joining_facts.





(** * Beyond the claims: reads, replies and evictions *)

(** X3: a connection whose first read raises (a time-out, a reset, bytes
    that are not UTF-8) or yields a name that is empty after trimming is
    closed, and that is all: registry and history are as before, nothing is
    sent on any socket, and no other socket is touched. *)
Theorem nameless_connection_closes_silently
    (w : state) (c : conn) (ip now now' : string) (r : recv_result) :
  match r with
  | RecvData raw => Text.strip raw = ""
  | RecvRaise _ => True
  end ->
  exists w',
    handshake c ip r now now' w = (w', Closed) /\
    clients w' = clients w /\
    chat_history w' = chat_history w /\
    running w' = running w /\
    forall c', net w' c' = if decide (c' = c) then shut (net w c) else net w c'.
Proof.
  intros Hr.
  assert (Hend : forall uo,
    match uo with Some u => u = "" | None => True end ->
    forall w1, clients w1 = clients w -> chat_history w1 = chat_history w ->
      running w1 = running w ->
      (forall c', net w1 c' = net w c' \/ c' = c /\ net w1 c' = shut (net w c)) ->
      exists w',
        finish c ip uo now' w1 = (w', Closed) /\
        clients w' = clients w /\ chat_history w' = chat_history w /\
        running w' = running w /\
        forall c', net w' c' = if decide (c' = c) then shut (net w c) else net w c').
  { intros uo Huo w1 Hc1 Hh1 Hr1 Hn1. rewrite finish_unregistered.
    - eexists. split; [reflexivity |]. cbn. split_and!; try done.
      intros c'. rewrite net_alter. destruct (decide (c = c')) as [<- | Hne].
      + rewrite decide_True by done. destruct (Hn1 c) as [-> | [_ ->]]; done.
      + rewrite decide_False by congruence.
        destruct (Hn1 c') as [-> | [? _]]; [done | congruence].
    - destruct uo as [u|]; [by subst |done]. }
  unfold handshake, negotiate, recv. unfold bind at 1. unfold get_state. cbn [fst snd].
  destruct (closed (net w c)) eqn:Hc.
  { cbn [raise]. apply (Hend None); auto. }
  destruct r as [raw|e]; [| cbn [raise]; apply (Hend None); auto].
  cbn [ret]. rewrite Hr. unfold join. cbn [Text.truthy negb].
  unfold bind, close, modify, ret. cbn [fst snd].
  apply (Hend (Some "")); try done.
  intros c'. cbn. rewrite net_alter. case_decide; subst; auto.
Qed.

Lemma nameless_connection_closes_silently_witness :
  exists w',
    handshake 4 "10.0.0.4" (RecvData (" " +:+ Text.nl)) "10:00" "10:01" (srv knocking)
      = (w', Closed) /\
    clients w' = clients (srv knocking) /\
    chat_history w' = chat_history (srv knocking) /\
    running w' = running (srv knocking) /\
    forall c', net w' c' = if decide (c' = 4) then shut (net (srv knocking) 4)
                           else net (srv knocking) c'.
Proof.
  apply (nameless_connection_closes_silently (srv knocking) 4 "10.0.0.4" "10:00" "10:01"
           (RecvData (" " +:+ Text.nl))).
  vm_compute. reflexivity.
Defined.



(** X5: the commands are matched exactly.  While the server is running,
    for a sender whose socket is open and whose connection is up, [list] or
    [exit] followed by anything, and the bare words [broadcast] and [send],
    are no commands: the sender gets the help text and the handler stays in
    its loop (so [exit now] does not end the session). *)
Theorem inexact_commands_get_help
    (w : state) (c : conn) (ip username raw rest now : string) :
  running w = true ->
  healthy (net w c) ->
  (rest <> "" /\ (Text.strip raw = "list" +:+ rest \/ Text.strip raw = "exit" +:+ rest)) \/
  (rest = "" /\ (Text.strip raw = "broadcast" \/ Text.strip raw = "send")) ->
  exists w',
    iterate c ip username (Ready (RecvData raw)) now w = (w', Active username) /\
    outbox (net w' c) = outbox (net w c) ++ [get_help] /\
    clients w' = clients w.
Proof.
  intros Hrun Hc Hdata. pose proof Hc as [Hopen _].
  assert (Hother : Text.strip raw <> "" /\ Text.strip raw <> "list" /\
                   Text.startswith "broadcast " (Text.strip raw) = false /\
                   Text.startswith "send " (Text.strip raw) = false /\
                   Text.strip raw <> "exit").
  { destruct Hdata as [[Hrest [-> | ->]] | [_ [-> | ->]]];
      (split_and!; try done); destruct rest; (done || (intros [=]; done)). }
  destruct Hother as (H0 & H1 & H2 & H3 & H4).
  rewrite (iterate_line _ _ _ _ _ _ _ Hrun Hopen eq_refl H0).
  rewrite dispatch_other, sendall_run by done.
  change (net (logged _ _ _ w)) with (net w). rewrite send_outcome_healthy by done.
  eexists. split; [reflexivity |]. cbn [net set_net clients logged set_history].
  by rewrite net_alter_eq, attempt_outbox_up.
Qed.

Lemma inexact_commands_get_help_witness :
  exists w',
    iterate 2 "10.0.0.2" "bob" (Ready (RecvData "exit now")) "10:00" (srv town)
      = (w', Active "bob") /\
    outbox (net w' 2) = outbox (net (srv town) 2) ++ [get_help] /\
    clients w' = clients (srv town).
Proof.
  apply (inexact_commands_get_help (srv town) 2 "10.0.0.2" "bob" "exit now" " now" "10:00").
  - vm_compute. reflexivity.
  - split; vm_compute; reflexivity.
  - left. split; [discriminate |]. right. vm_compute. reflexivity.
Defined.




(** X7: a read in the loop that raises leaves the state as it is; after
    [socket.timeout] the handler stays in its loop, after any other
    exception (a reset, a broken pipe, bytes that are not UTF-8) it is on
    its way out. *)
Theorem read_error_in_loop
    (w : state) (c : conn) (ip username now : string) (e : exn) :
  running w = true ->
  closed (net w c) = false ->
  iterate c ip username (Ready (RecvRaise e)) now w =
    (w, if decide (e = socket_timeout) then Active username
        else Closing (Some username)).
Proof.
  intros Hr Hc. unfold iterate, loop_step, iteration, select, recv.
  unfold try_except, bind, get_state, ret, raise. rewrite Hr, Hc. cbn [fst snd].
  rewrite Hc. by destruct e.
Qed.

Lemma read_error_in_loop_witness :
  iterate 2 "10.0.0.2" "bob" (Ready (RecvRaise UnicodeDecodeError)) "10:00" (srv town) =
    (srv town, if decide (UnicodeDecodeError = socket_timeout) then Active "bob"
               else Closing (Some "bob")).
Proof.
  apply (read_error_in_loop (srv town) 2 "10.0.0.2" "bob" "10:00" UnicodeDecodeError).
  - vm_compute. reflexivity.
  - vm_compute. reflexivity.
Defined.

(** * Beyond the claims: what holds of every run *)

(** X8: along every run of the threads, whatever their interleaving, the
    chat history only grows at its end (no entry is ever changed or
    removed) and the flag [running], once cleared, is never set again.
    Along a run that starts at a moment when no handler is in the middle of
    a stretch, as long as the main thread is in its accept loop nothing a
    handler, a new connection or a peer does changes the flag. *)
Theorem history_only_grows (g g' : pool) :
  rtc sys_step g g' ->
  chat_history (shared g) `prefix_of` chat_history (shared g') /\
  (running (shared g') = true -> running (shared g) = true) /\
  (idle g -> main g' = Serving -> running (shared g') = running (shared g)).
Proof.
  intros Hrun. split_and!.
  - induction Hrun as [g | g1 g2 g3 Hstep _ IH]; [done |].
    etrans; [apply (step_history _ _ Hstep) | exact IH].
  - induction Hrun as [g | g1 g2 g3 Hstep _ IH]; [done |].
    intros H3. by apply (step_history _ _ Hstep), IH.
  - intros Hidle Hs. apply idle_tame in Hidle.
    assert (Hall : main g = Serving /\ running (shared g') = running (shared g));
      [| by destruct Hall].
    induction Hrun as [g | g1 g2 g3 Hstep _ IH]; [done |].
    destruct (IH (tame_step _ _ Hidle Hstep) Hs) as [H2 E2].
    destruct (step_running _ _ Hidle Hstep H2) as [H1 E1].
    split; [done | congruence].
Qed.

Lemma history_only_grows_witness :
  chat_history (shared boot_pool) `prefix_of` chat_history (shared race_pool) /\
  (running (shared race_pool) = true -> running (shared boot_pool) = true) /\
  (idle boot_pool -> main race_pool = Serving ->
     running (shared race_pool) = running (shared boot_pool)).
Proof.
  apply (history_only_grows boot_pool race_pool).
  etrans; [apply (replay_steps town_moves) | apply (replay_steps race_moves)].
Defined.




(** X11: at every moment of every run of the threads, whatever their
    interleaving and whether or not the server is being shut down, no two
    entries of the registry have the same name or the same connection, no
    registered name is empty, and every registered connection is the
    connection of a handler thread. *)
Theorem registry_invariant (g : pool) :
  rtc sys_step boot_pool g ->
  NoDup (clients (shared g)).*1 /\
  NoDup (handles (clients (shared g))) /\
  (forall u ip c, (u, (ip, c)) ∈ clients (shared g) -> u <> "") /\
  (forall u ip c, (u, (ip, c)) ∈ clients (shared g) -> c ∈ map w_conn (workers g)).
Proof.
  intros Hg. destruct (run_inv g Hg) as ([Hk Hh] & Hnames & _ & Hown & _).
  split_and!; try done.
  - intros u ip c Hin ->. apply Hnames, list_elem_of_fmap. by exists ("", (ip, c)).
  - intros u ip c Hin. apply Hown. unfold handles.
    apply list_elem_of_fmap. by exists (u, (ip, c)).
Qed.

Lemma registry_invariant_witness :
  NoDup (clients (shared race_pool)).*1 /\
  NoDup (handles (clients (shared race_pool))) /\
  (forall u ip c, (u, (ip, c)) ∈ clients (shared race_pool) -> u <> "") /\
  (forall u ip c, (u, (ip, c)) ∈ clients (shared race_pool) ->
     c ∈ map w_conn (workers race_pool)).
Proof.
  apply (registry_invariant race_pool).
  etrans; [apply (replay_steps town_moves) | apply (replay_steps race_moves)].
Defined.



(** X13: a reply that cannot be delivered ends the session.  When the
    sender's own connection is down, a line that is answered to the sender
    ([list], or a line that is no command) makes the handler leave its loop;
    nothing is delivered to anybody, no socket is closed and the registry is
    as before. *)
Theorem undeliverable_reply_ends_session
    (w : state) (c : conn) (ip username raw now : string) :
  running w = true ->
  failing (net w c) ->
  Text.strip raw <> "" ->
  Text.startswith "broadcast " (Text.strip raw) = false ->
  Text.startswith "send " (Text.strip raw) = false ->
  Text.strip raw <> "exit" ->
  exists w',
    iterate c ip username (Ready (RecvData raw)) now w = (w', Closing (Some username)) /\
    clients w' = clients w /\
    forall c', outbox (net w' c') = outbox (net w c') /\
               closed (net w' c') = closed (net w c').
Proof.
  intros Hrun Hc Hne H2 H3 H4. pose proof Hc as [Hopen Hl].
  rewrite (iterate_line _ _ _ _ _ _ _ Hrun Hopen eq_refl Hne).
  destruct (send_outcome_failing _ Hc) as (e & Hout & He).
  assert (Hsent : forall reply,
    exists w',
      match sendall c reply (logged now (at_ip username ip) (Text.strip raw) w) with
      | (w1, Ok _) => (w1, Active username)
      | (w1, Raise e0) =>
          (w1, if decide (e0 = socket_timeout) then Active username
               else Closing (Some username))
      end = (w', Closing (Some username)) /\
      clients w' = clients w /\
      forall c', outbox (net w' c') = outbox (net w c') /\
                 closed (net w' c') = closed (net w c')).
  { intros reply. rewrite sendall_run. change (net (logged _ _ _ w)) with (net w).
    rewrite Hout. eexists. split; [by destruct e |]. cbn. split; [done |].
    intros c'. rewrite net_alter. case_decide; [subst | done].
    by rewrite attempt_closed, attempt_outbox_down. }
  destruct (decide (Text.strip raw = "list")) as [Hlist | Hlist].
  - rewrite Hlist, dispatch_list. rewrite <- Hlist.
    destruct (Hsent (list_response (clients w))) as (w' & Hrun' & Hrest).
    exists w'. split; [| done]. rewrite <- Hrun'.
    change (clients (logged now (at_ip username ip) (Text.strip raw) w)) with (clients w).
    by destruct (sendall c _ _) as [w1 [[]|e0]].
  - rewrite dispatch_other by done.
    destruct (Hsent get_help) as (w' & Hrun' & Hrest).
    exists w'. split; [| done]. rewrite <- Hrun'.
    by destruct (sendall c _ _) as [w1 [[]|e0]].
Qed.

Lemma undeliverable_reply_ends_session_witness :
  exists w',
    iterate 3 "10.0.0.3" "carol" (Ready (RecvData "list")) "10:00" (srv stormy)
      = (w', Closing (Some "carol")) /\
    clients w' = clients (srv stormy) /\
    forall c', outbox (net w' c') = outbox (net (srv stormy) c') /\
               closed (net w' c') = closed (net (srv stormy) c').
Proof.
  apply (undeliverable_reply_ends_session (srv stormy) 3 "10.0.0.3" "carol" "list" "10:00").
  - vm_compute. reflexivity.
  - split; vm_compute; [reflexivity | discriminate].
  - vm_compute. discriminate.
  - vm_compute. reflexivity.
  - vm_compute. reflexivity.
  - vm_compute. discriminate.
Defined.

(** * Beyond the claims: what is logged *)

Section logging.
Implicit Types (w : state) (c : conn) (msg : string).

Lemma same_log_ret {A} (a : A) : respects same_log (ret a).
Proof. by intros w w' r [= <- _]. Qed.

Lemma same_log_bind {A B} (m : M A) (k : A -> M B) :
  respects same_log m -> (forall a, respects same_log (k a)) ->
  respects same_log (bind m k).
Proof.
  intros Hm Hk w w' r. unfold bind. destruct (m w) as [w1 [a|e]] eqn:E.
  - intros Hrun. destruct (Hm _ _ _ E) as [? ?], (Hk _ _ _ _ Hrun) as [? ?].
    split; congruence.
  - intros [= <- _]. by eapply Hm.
Qed.

Lemma same_log_try_except {A} (m : M A) (handles : exn -> bool) (h : exn -> M A) :
  respects same_log m -> (forall e, respects same_log (h e)) ->
  respects same_log (try_except m handles h).
Proof.
  intros Hm Hh w w' r. unfold try_except. destruct (m w) as [w1 [a|e]] eqn:E.
  - intros [= <- _]. by eapply Hm.
  - destruct (handles e).
    + intros Hrun. destruct (Hm _ _ _ E) as [? ?], (Hh _ _ _ _ Hrun) as [? ?].
      split; congruence.
    + intros [= <- _]. by eapply Hm.
Qed.

Lemma same_log_sendall c msg : respects same_log (sendall c msg).
Proof. by intros w w' r [= <- _]. Qed.

Lemma same_log_send_pass msg ex items : forall disc,
  respects same_log (send_pass msg ex items disc).
Proof.
  induction items as [|[u [ip c]] items IH]; intros disc; simpl.
  - apply same_log_ret.
  - case_decide; [apply IH |]. apply same_log_bind; [| intros d; apply IH].
    apply same_log_try_except; [| intros e; apply same_log_ret].
    apply same_log_bind; [apply same_log_sendall | intros ?; apply same_log_ret].
Qed.

Lemma same_log_evict disc : respects same_log (evict disc).
Proof.
  induction disc as [|u rest IH]; simpl; [apply same_log_ret |].
  apply same_log_bind; [by intros w w' r [= <- _] |]. intros w.
  destruct (Dict.get u (clients w)) as [[ip c]|]; [| apply IH].
  apply same_log_bind; [by intros w1 w' r [= <- _] | intros _].
  apply same_log_bind; [by intros w1 w' r [= <- _] | intros _; apply IH].
Qed.

Lemma same_log_broadcast_message msg ex : respects same_log (broadcast_message msg ex).
Proof.
  unfold broadcast_message. apply same_log_bind; [by intros w w' r [= <- _] |].
  intros w. apply same_log_bind; [apply same_log_send_pass | intros d; apply same_log_evict].
Qed.

Lemma same_log_send_command c username data :
  respects same_log (send_command c username data).
Proof.
  unfold send_command. destruct (length _ =? 3); [| apply same_log_sendall].
  apply same_log_bind; [by intros w w' r [= <- _] |]. intros w.
  destruct (Dict.get _ (clients w)) as [[ip t_conn]|]; [| apply same_log_sendall].
  apply same_log_try_except; [apply same_log_sendall | intros _; apply same_log_sendall].
Qed.

Lemma same_log_dispatch c username data : respects same_log (dispatch c username data).
Proof.
  unfold dispatch. case_decide.
  { apply same_log_bind; [by intros w w' r [= <- _] |]. intros w.
    apply same_log_bind; [apply same_log_sendall | intros _; apply same_log_ret]. }
  destruct (Text.startswith "broadcast " data).
  { apply same_log_bind; [apply same_log_broadcast_message | intros _; apply same_log_ret]. }
  destruct (Text.startswith "send " data).
  { apply same_log_bind; [apply same_log_send_command | intros _; apply same_log_ret]. }
  case_decide; [apply same_log_ret |].
  apply same_log_bind; [apply same_log_sendall | intros _; apply same_log_ret].
Qed.

End logging.

(** X14: every non-empty line read in the loop is logged, once, as
    [[time] name@address: line] with the clock at that moment, before it is
    looked at: the iteration leaves the history as it was plus that one entry,
    whatever the line is (a command, a private message, [exit], or
    something unknown) and however its handling ends.  No reply, broadcast
    or eviction adds to the history. *)
Theorem every_line_is_logged (c : conn) (ip username raw now : string) (w : state) :
  running w = true ->
  closed (net w c) = false ->
  Text.strip raw <> "" ->
  chat_history (iterate c ip username (Ready (RecvData raw)) now w).1 =
    chat_history w ++
    [log_entry now (at_ip username ip) (Text.strip raw)].
Proof.
  intros Hrun Hopen Hne.
  rewrite (iterate_line _ _ _ _ _ _ _ Hrun Hopen eq_refl Hne).
  destruct (dispatch c username (Text.strip raw) _) as [w1 r] eqn:E.
  apply same_log_dispatch in E as [E _].
  destruct r as [[|]|e]; cbn [fst]; by rewrite E.
Qed.

Lemma every_line_is_logged_witness :
  chat_history
    (iterate 2 "10.0.0.2" "bob" (Ready (RecvData "send alice psst")) "10:00" (srv town)).1 =
  chat_history (srv town) ++
    [log_entry "10:00" (at_ip "bob" "10.0.0.2") (Text.strip "send alice psst")].
Proof.
  apply (every_line_is_logged 2 "10.0.0.2" "bob" "send alice psst" "10:00" (srv town)).
  - vm_compute. reflexivity.
  - vm_compute. reflexivity.
  - vm_compute. discriminate.
Defined.

(** * Beyond the claims: shutting down and choosing the port *)

Section shutting_down.
Implicit Types (w : state) (c : conn) (items : registry).

Lemma farewell_run c w :
  exists w1,
    try_except (let* _ := sendall c shutdown_msg in close c)
      (fun _ => true) (fun _ => ret tt) w = (w1, Ok tt) /\
    clients w1 = clients w /\ chat_history w1 = chat_history w /\
    running w1 = running w /\
    forall c', net w1 c' = if decide (c = c') then farewell (net w c') else net w c'.
Proof.
  unfold try_except, bind. rewrite sendall_run.
  destruct (send_outcome (net w c)) as [[]|e] eqn:Hout.
  - eexists. split; [reflexivity |]. split_and!; try done.
    intros c'. cbn. rewrite !net_alter. case_decide as Hc; [subst c' | done].
    unfold farewell. by rewrite Hout.
  - eexists. split; [reflexivity |]. split_and!; try done.
    intros c'. cbn. rewrite !net_alter. case_decide as Hc; [subst c' | done].
    unfold farewell. by rewrite Hout.
Qed.

Lemma goodbye_pass_spec items : forall w,
  NoDup (handles items) ->
  exists w',
    goodbye_pass items w = (w', Ok tt) /\
    clients w' = clients w /\ chat_history w' = chat_history w /\
    running w' = running w /\
    forall c, net w' c = if decide (c ∈ handles items) then farewell (net w c) else net w c.
Proof.
  induction items as [|[u [ip c0]] items IH]; intros w Hnd.
  - exists w. by split_and!.
  - change (handles ((u, (ip, c0)) :: items)) with (c0 :: handles items) in *.
    apply NoDup_cons in Hnd as [Hc0 Hnd].
    cbn [goodbye_pass]. unfold bind at 1.
    destruct (farewell_run c0 w) as (w1 & -> & Hc1 & Hh1 & Hr1 & Hn1).
    destruct (IH w1 Hnd) as (w' & Hrun & Hc & Hh & Hr & Hn).
    exists w'. split_and!; try congruence.
    intros c. rewrite Hn, Hn1.
    destruct (decide (c0 = c)) as [<- | Hne].
    + rewrite decide_False by done. rewrite decide_True by left. done.
    + destruct (decide (c ∈ handles items)) as [Hin | Hin].
      * rewrite decide_True by (by right). done.
      * rewrite decide_False; [done |]. rewrite elem_of_cons. by intros [? | ?].
Qed.

End shutting_down.

(** X15: the [finally] block of [start] run in one go, with no handler
    taking a step meanwhile, in a state where no connection is registered
    twice and every registered socket is open: the loop that says goodbye
    never raises and removes nobody from the registry; it clears
    [running]; every registered user whose connection is up is sent
    [Server is shutting down. Goodbye!] and has the socket closed, while a
    user whose connection is down gets nothing and keeps the socket open
    (the [close] is skipped with the failed [sendall]).  Afterwards every
    handler leaves its loop at the next test of [running], whatever its
    socket reports. *)
Theorem shutdown_effect (w : state) :
  NoDup (handles (clients w)) ->
  all_open w ->
  exists w',
    shutdown w = (w', Ok tt) /\
    running w' = false /\
    clients w' = clients w /\
    chat_history w' = chat_history w /\
    (forall u ip c, (u, (ip, c)) ∈ clients w ->
       (link (net w c) = LinkUp ->
          outbox (net w' c) = outbox (net w c) ++ ["Server is shutting down. Goodbye!"] /\
          closed (net w' c) = true) /\
       (link (net w c) <> LinkUp ->
          outbox (net w' c) = outbox (net w c) /\
          closed (net w' c) = false)) /\
    (forall c, c ∉ handles (clients w) -> net w' c = net w c) /\
    (forall c ip username ev now,
       iterate c ip username ev now w' = (w', Closing (Some username))).
Proof.
  intros Hh Hopen.
  unfold shutdown, bind, modify, get_state. cbn [fst snd].
  destruct (goodbye_pass_spec (clients w) (set_running false w) Hh)
    as (w' & Hrun & Hc & Hhist & Hr & Hn).
  exists w'. split_and!; try done.
  - intros u ip c Hin. pose proof (Hopen _ Hin) as Ho. cbn in Ho.
    rewrite Hn, decide_True by (by eapply elem_handles). cbn [net set_running].
    unfold farewell, send_outcome. rewrite Ho. split; intros Hl.
    + rewrite Hl. cbn [shut outbox closed]. split; [| done].
      apply attempt_outbox_up. by split.
    + destruct (link (net w c)) eqn:E; [done | |];
        (split; [apply attempt_outbox_down; congruence | by rewrite attempt_closed]).
  - intros c Hc0. by rewrite Hn, decide_False.
  - intros c ip username ev now. unfold iterate, loop_step, bind, get_state.
    cbn [fst snd]. by rewrite Hr.
Qed.

Lemma shutdown_effect_witness :
  exists w',
    shutdown (srv stormy) = (w', Ok tt) /\
    running w' = false /\
    clients w' = clients (srv stormy) /\
    chat_history w' = chat_history (srv stormy) /\
    (forall u ip c, (u, (ip, c)) ∈ clients (srv stormy) ->
       (link (net (srv stormy) c) = LinkUp ->
          outbox (net w' c) =
            outbox (net (srv stormy) c) ++ ["Server is shutting down. Goodbye!"] /\
          closed (net w' c) = true) /\
       (link (net (srv stormy) c) <> LinkUp ->
          outbox (net w' c) = outbox (net (srv stormy) c) /\
          closed (net w' c) = false)) /\
    (forall c, c ∉ handles (clients (srv stormy)) -> net w' c = net (srv stormy) c) /\
    (forall c ip username ev now,
       iterate c ip username ev now w' = (w', Closing (Some username))).
Proof. apply (shutdown_effect (srv stormy)); [apply stormy_wf | apply stormy_open]. Defined.

(** X16: the port the server is started on.  A value of [PORT] that is no
    number stops the program whatever the command line says.  Otherwise the
    port is the first command-line argument when that is a number other
    than 0, and the port of the environment (5000 when [PORT] is not set)
    when there is no argument, when the argument is no number, and when
    the argument is 0, which the constructor takes for no port at all. *)
Theorem port_selection (p0 n : Z) (e : exn) :
  n <> 0%Z ->
  main_port (Ok p0) (Some (Ok n)) = Ok n /\
  main_port (Ok p0) (Some (Ok 0%Z)) = Ok p0 /\
  main_port (Ok p0) (Some (Raise ValueError)) = Ok p0 /\
  main_port (Ok p0) None = Ok p0 /\
  (forall arg, main_port (Raise e) arg = Raise e).
Proof.
  intros Hn. unfold main_port, init_port. split_and!; try done.
  - by rewrite decide_False.
  - rewrite decide_True by done. by case_decide.
  - by case_decide.
Qed.

Lemma port_selection_witness :
  main_port (Ok 10000%Z) (Some (Ok 8080%Z)) = Ok 8080%Z /\
  main_port (Ok 10000%Z) (Some (Ok 0%Z)) = Ok 10000%Z /\
  main_port (Ok 10000%Z) (Some (Raise ValueError)) = Ok 10000%Z /\
  main_port (Ok 10000%Z) None = Ok 10000%Z /\
  (forall arg, main_port (Raise ValueError) arg = Raise ValueError).
Proof. apply (port_selection 10000 8080 ValueError). done. Defined.
